(** * msprime/trees.py: tree sequences, their diff streams, Newick strings
      and haplotypes

    A shallow embedding of [TreeSequence], [NewickGenerator] and
    [HaplotypeGenerator] of [msprime/trees.py], and the properties of the
    traversal engine proved about it.

    Conventions of the embedding.
    - Loci and node identifiers are the values of numpy [uint32] scalars,
      represented in [Z]; a subtraction of two of them wraps modulo [2^32]
      ([uint32]).
    - Python dictionaries are [gmap]s; [del d[k]] and [d[k]] raise [KeyError]
      on a missing key.
    - A generator is represented by its trace: the list of the values it
      yields, and the exception that ended it, if any.
    - Coalescence times are doubles.  Their arithmetic, their formatting and
      the random generator are an interface ([Float], [Rng]); nothing below
      depends on how they are implemented. *)

From Stdlib Require Import ZArith List String Ascii Permutation Sorted Lia.
From stdpp Require Import base option list gmap strings fin_maps sorting pretty.

Local Open Scope Z_scope.
Set Warnings "-clear-no-such-hyp".

(** ** Python exceptions and results *)

Inductive exn : Type :=
  | KeyError
  | IndexError
  | UnboundLocalError
  | AssertionError
  | StopIteration
  | Diverges.      (* not a Python exception: the bound the model puts on a
                      [while] loop was reached; the lemmas on each loop
                      show where this never happens *)

Inductive result (A : Type) : Type :=
  | Ok (a : A)
  | Raise (e : exn).
Arguments Ok {A} a.
Arguments Raise {A} e.

Global Instance result_ret : MRet result := fun A a => Ok a.
Global Instance result_bind : MBind result := fun A B k r =>
  match r with
  | Ok a => k a
  | Raise e => Raise e
  end.

(** [d[k]] *)
Definition getitem {V} (d : gmap Z V) (k : Z) : result V :=
  match d !! k with
  | Some v => Ok v
  | None => Raise KeyError
  end.

(** [del d[k]] *)
Definition delitem {V} (d : gmap Z V) (k : Z) : result (gmap Z V) :=
  match d !! k with
  | Some _ => Ok (delete k d)
  | None => Raise KeyError
  end.

(** A piece of a generator body: the values it yields, in order, and how it
    ends, with a value or with an exception.  A whole generator is a
    [gen Y ()]: [Ok ()] is the body returning, which the consumer sees as the
    end of the iteration. *)
Definition gen (Y A : Type) : Type := (list Y * result A)%type.

Global Instance gen_ret {Y} : MRet (gen Y) := fun A a => ([], Ok a).
Global Instance gen_bind {Y} : MBind (gen Y) := fun A B k g =>
  match g.2 with
  | Ok a => (g.1 ++ (k a).1, (k a).2)
  | Raise e => (g.1, Raise e)
  end.

Definition yield {Y} (y : Y) : gen Y () := ([y], Ok ()).
Definition lift {Y A} (r : result A) : gen Y A := ([], r).

(** ** Numbers *)

(** The value of a [uint32] computation. *)
Definition uint32 (z : Z) : Z := z mod 2 ^ 32.

Definition is_uint32 (z : Z) : bool := (0 <=? z) && (z <? 2 ^ 32).

(** Doubles: the operations the module applies to coalescence times. *)
Class Float (F : Type) : Type := {
  fzero : F;                       (* the literal [0] / [0.0] *)
  fadd : F -> F -> F;
  fsub : F -> F -> F;
  fmul : F -> F -> F;
  fdiv : F -> F -> F;
  fof_Z : Z -> F;                  (* an integer operand of a float operation *)
  fformat : F -> Z -> string       (* ["{0:.{1}f}".format(x, precision)] *)
}.

(** [numpy.random.RandomState] and the two draws made from it, with the state
    of the generator passed explicitly.  [seed_rng None entropy] is
    [RandomState(None)], which seeds from the operating system. *)
Class Rng (F G : Type) : Type := {
  seed_rng : option Z -> Z -> G;
  poisson : G -> F -> Z * G;
  choice : G -> list Z -> Z -> list F -> list Z * G
}.

(** ** Records *)

Section Records.
Context {F : Type}.

(** One row of [TreeSequence.records()]:
    [(left, right, children, parent, time)]. *)
Record record : Type := Rec {
  r_left : Z;
  r_right : Z;
  r_children : Z * Z;
  r_parent : Z;
  r_time : F
}.

Definition edge_of (r : record) : (Z * Z) * Z * F :=
  (r_children r, r_parent r, r_time r).

Record TreeSequence : Type := TS {
  _breakpoints : list Z;
  _left : list Z;
  _right : list Z;
  _children : list (Z * Z);
  _parent : list Z;
  _time : list F;
  _sample_size : Z;
  _num_loci : Z
}.

End Records.
Arguments record F : clear implicits.
Arguments TreeSequence F : clear implicits.

(** An edge of a diff: [(children, parent, time)]. *)
Abbreviation edge F := ((Z * Z) * Z * F)%type.

(** What [_diffs] yields: [(length, records_out, records_in)]. *)
Abbreviation delta F := (Z * list (edge F) * list (edge F))%type.

(** What [sparse_trees] yields, with the two dictionaries as they are at the
    moment of the [yield]. *)
Abbreviation sparse_tree F := (Z * gmap Z Z * gmap Z F)%type.

(** An entry of the heap of [sparse_trees]:
    [(right, (children, parent))]. *)
Abbreviation segment := (Z * ((Z * Z) * Z))%type.

(** ** TreeSequence *)

Section TreeSequence.
Context {F : Type} `{!Float F}.

(** [numpy.argsort]: the indices that sort an array. *)
Variable argsort : list Z -> list nat.

(** [a[p]] for an index array [p]. *)
Definition take_indices {A} (a : list A) (p : list nat) : list A :=
  omap (fun i => a !! i) p.

(** [TreeSequence.__init__]; [parameters] is read at ["sample_size"] and
    ["num_loci"] only. *)
Definition TreeSequence_init (breakpoints left right : list Z)
    (children : list (Z * Z)) (parent : list Z) (time : list F)
    (sample_size num_loci : Z) (sort_records : bool) : TreeSequence F :=
  if sort_records then
    let p := argsort left in
    TS breakpoints (take_indices left p) (take_indices right p)
       (take_indices children p) (take_indices parent p)
       (take_indices time p) sample_size num_loci
  else
    TS breakpoints left right children parent time sample_size num_loci.

(** The datasets and attributes of the HDF5 file written by [dump]. *)
Record container : Type := Container {
  f_breakpoints : list Z;
  f_records_left : list Z;
  f_records_right : list Z;
  f_records_children : list (Z * Z);
  f_records_parent : list Z;
  f_records_time : list F;
  f_sample_size : Z;
  f_num_loci : Z
}.

Definition dump (ts : TreeSequence F) : container :=
  Container (_breakpoints ts) (_left ts) (_right ts) (_children ts)
    (_parent ts) (_time ts) (_sample_size ts) (_num_loci ts).

(** [TreeSequence.load]: calls the constructor without [sort_records]. *)
Definition load (f : container) : TreeSequence F :=
  TreeSequence_init (f_breakpoints f) (f_records_left f) (f_records_right f)
    (f_records_children f) (f_records_parent f) (f_records_time f)
    (f_sample_size f) (f_num_loci f) false.

Definition get_sample_size (ts : TreeSequence F) : Z := _sample_size ts.
Definition get_num_loci (ts : TreeSequence F) : Z := _num_loci ts.
Definition get_breakpoints (ts : TreeSequence F) : list Z := _breakpoints ts.

Fixpoint zip5 (ls rs : list Z) (cs : list (Z * Z)) (ps : list Z)
    (ts : list F) : list (record F) :=
  match ls, rs, cs, ps, ts with
  | l :: ls, r :: rs, c :: cs, p :: ps, t :: ts =>
      Rec l r c p t :: zip5 ls rs cs ps ts
  | _, _, _, _, _ => []
  end.

(** [TreeSequence.records] *)
Definition records (ts : TreeSequence F) : list (record F) :=
  zip5 (_left ts) (_right ts) (_children ts) (_parent ts) (_time ts).

(** *** The heap of live segments

    [heapq] is used through [heappush], [heappop] and [heap[0]] only.  The
    heap is represented by the bag of its entries: [heap[0]] is the least
    entry in the order of Python tuples, and [heappop] removes it.  Entries
    are [(right, (children, parent))]. *)

Definition seg_key (s : segment) : list Z :=
  [s.1; s.2.1.1; s.2.1.2; s.2.2].

Fixpoint lex_leb (a b : list Z) : bool :=
  match a, b with
  | [], _ => true
  | _ :: _, [] => false
  | x :: a, y :: b => (x <? y) || ((x =? y) && lex_leb a b)
  end.

Definition seg_leb (a b : segment) : bool := lex_leb (seg_key a) (seg_key b).

Definition heappush (heap : list segment) (item : segment) : list segment :=
  item :: heap.

(** [heap[0]] *)
Fixpoint heap_top (heap : list segment) : option segment :=
  match heap with
  | [] => None
  | s :: heap =>
      match heap_top heap with
      | None => Some s
      | Some m => if seg_leb s m then Some s else Some m
      end
  end.

Fixpoint remove_one (s : segment) (heap : list segment) : list segment :=
  match heap with
  | [] => []
  | s' :: heap => if decide (s = s') then heap else s' :: remove_one s heap
  end.

Definition heappop (heap : list segment) : result (segment * list segment) :=
  match heap_top heap with
  | None => Raise IndexError
  | Some s => Ok (s, remove_one s heap)
  end.

(** *** sparse_trees *)

Definition samples_dict {V} (n : Z) (v : V) : gmap Z V :=
  list_to_map ((fun j => (j, v)) <$> seqZ 1 n).

(** The loop [while live_segments[0][0] <= l: ...]; [fuel] bounds the number
    of iterations. *)
Fixpoint sweep (fuel : nat) (l : Z) (live : list segment) (pi : gmap Z Z)
    (tau : gmap Z F) : result (list segment * gmap Z Z * gmap Z F) :=
  match heap_top live with
  | None => Raise IndexError
  | Some top =>
      if top.1 <=? l then
        match fuel with
        | O => Raise Diverges
        | S fuel =>
            '(x, live) ← heappop live;
            let '(_, (other_children, p)) := x in
            pi ← delitem pi other_children.1;
            pi ← delitem pi other_children.2;
            tau ← delitem tau p;
            sweep fuel l live pi tau
        end
      else Ok (live, pi, tau)
  end.

(** The body of the [for] loop after the [yield]. *)
Definition apply_record (rec : record F) (live : list segment)
    (pi : gmap Z Z) (tau : gmap Z F)
    : result (list segment * gmap Z Z * gmap Z F) :=
  let live := heappush live (r_right rec, (r_children rec, r_parent rec)) in
  '(live, pi, tau) ← sweep (length live) (r_left rec) live pi tau;
  let pi := <[(r_children rec).1 := r_parent rec]> pi in
  let pi := <[(r_children rec).2 := r_parent rec]> pi in
  let tau := <[r_parent rec := r_time rec]> tau in
  Ok (live, pi, tau).

(** The [for] loop and the final [yield].  After an iteration [last_l] and
    [l] are equal, so one variable stands for both.  [l - last_l] is between
    [uint32] scalars (and with [last_l] still the integer [0] it is [l]). *)
Fixpoint sparse_trees_loop (num_loci : Z) (recs : list (record F))
    (last_l : Z) (live : list segment) (pi : gmap Z Z) (tau : gmap Z F)
    : gen (sparse_tree F) () :=
  match recs with
  | [] => yield (num_loci - last_l, pi, tau)
  | rec :: recs =>
      let l := r_left rec in
      (if decide (last_l = l) then mret ()
       else yield (uint32 (l - last_l), pi, tau));;
      '(live, pi, tau) ← lift (apply_record rec live pi tau);
      sparse_trees_loop num_loci recs l live pi tau
  end.

Definition sparse_trees (ts : TreeSequence F) : gen (sparse_tree F) () :=
  let n := _sample_size ts in
  sparse_trees_loop (get_num_loci ts) (records ts) 0 [] ∅
    (samples_dict n fzero).

(** *** _diffs *)

(** [used_records[k]] for the [defaultdict(list)]. *)
Definition used_at (used_records : gmap Z (list (edge F))) (k : Z)
    : list (edge F) :=
  default [] (used_records !! k).

(** The [for] loop of [_diffs] and the final [yield]; [r] is [None] as long
    as the loop variable [r] is unbound. *)
Fixpoint diffs_loop (recs : list (record F)) (left : Z)
    (used_records : gmap Z (list (edge F))) (records_in : list (edge F))
    (r : option Z) : gen (delta F) () :=
  match recs with
  | [] =>
      match r with
      | None => lift (Raise UnboundLocalError)
      | Some r => yield (uint32 (r - left), used_at used_records left, records_in)
      end
  | rec :: recs =>
      let l := r_left rec in
      let e := edge_of rec in
      '(used_records, records_in) ←
        (if decide (l = left) then mret (used_records, records_in)
         else
           yield (uint32 (l - left), used_at used_records left, records_in);;
           mret (delete left used_records, []));
      let used_records :=
        <[r_right rec := used_at used_records (r_right rec) ++ [e]]>
          used_records in
      diffs_loop recs l used_records (records_in ++ [e]) (Some (r_right rec))
  end.

Definition _diffs (ts : TreeSequence F) : gen (delta F) () :=
  diffs_loop (records ts) 0 ∅ [] None.

(** *** _diffs_with_breaks *)

(** [b[k]] on an array. *)
Definition index {A} (b : list A) (k : nat) : result A :=
  match b !! k with
  | Some x => Ok x
  | None => Raise IndexError
  end.

(** [while self._breakpoints[k] != x: ...]; returns [k]. *)
Fixpoint breaks_while (fuel : nat) (b : list Z) (k : nat) (x : Z)
    : gen (delta F) nat :=
  bk ← lift (index b k);
  if decide (bk = x) then mret k
  else
    match fuel with
    | O => lift (Raise Diverges)
    | S fuel =>
        let k := S k in
        bk ← lift (index b k);
        bk1 ← lift (index b (k - 1));
        yield (uint32 (bk - bk1), [], []);;
        breaks_while fuel b k x
    end.

Fixpoint diffs_with_breaks_loop (b : list Z) (ds : list (delta F)) (k : nat)
    (x : Z) : gen (delta F) () :=
  match ds with
  | [] => mret ()
  | (length, records_out, records_in) :: ds =>
      let x := x + length in
      bk ← lift (index b k);
      bk1 ← lift (index b (k - 1));
      yield (uint32 (bk - bk1), records_out, records_in);;
      k ← breaks_while (List.length b) b k x;
      diffs_with_breaks_loop b ds (S k) x
  end.

(** The loop runs over what [_diffs] yields; an exception of [_diffs] comes
    out once those have been consumed. *)
Definition _diffs_with_breaks (ts : TreeSequence F) : gen (delta F) () :=
  let inner := _diffs ts in
  diffs_with_breaks_loop (_breakpoints ts) inner.1 1 0;;
  lift inner.2.

Definition diffs (ts : TreeSequence F) (all_breaks : bool) : gen (delta F) () :=
  if all_breaks then _diffs_with_breaks ts else _diffs ts.

End TreeSequence.
Arguments container F : clear implicits.

(** ** sparse_trees as a suspended generator

    [sparse_trees] yields its two dictionaries themselves.  To follow what a
    consumer sees through them, the dictionaries are objects of a store, the
    generator is a frame that [next] resumes, and a yielded value holds the
    references of the two objects. *)

Section SparseGenerator.
Context {F : Type} `{!Float F}.

Record store : Type := Store {
  int_dicts : gmap nat (gmap Z Z);
  float_dicts : gmap nat (gmap Z F)
}.

(** [d = {...}]: a new object. *)
Definition new_int_dict (σ : store) (d : gmap Z Z) : nat * store :=
  let a := fresh (dom (int_dicts σ)) in
  (a, Store (<[a := d]> (int_dicts σ)) (float_dicts σ)).

Definition new_float_dict (σ : store) (d : gmap Z F) : nat * store :=
  let a := fresh (dom (float_dicts σ)) in
  (a, Store (int_dicts σ) (<[a := d]> (float_dicts σ))).

Definition int_dict_at (σ : store) (a : nat) : gmap Z Z :=
  default ∅ (int_dicts σ !! a).

Definition float_dict_at (σ : store) (a : nat) : gmap Z F :=
  default ∅ (float_dicts σ !! a).

(** Where the generator is suspended. *)
Inductive sparse_pc : Type :=
  | AtStart (ts : TreeSequence F)
  | AtLoopYield (rec : record F) (recs : list (record F))
  | AtFinalYield
  | Finished.

Record sparse_frame : Type := Frame {
  fr_pc : sparse_pc;
  fr_num_loci : Z;
  fr_pi : nat;
  fr_tau : nat;
  fr_live : list segment
}.

(** Calling [sparse_trees()] runs nothing of the body. *)
Definition sparse_trees_call (ts : TreeSequence F) : sparse_frame :=
  Frame (AtStart ts) (get_num_loci ts) 0%nat 0%nat [].

(** The loop body after the [yield], on the dictionaries of the store.  (On
    an exception the store is returned as it was; nothing below looks at it
    then.) *)
Definition apply_record_in (fr : sparse_frame) (rec : record F) (σ : store)
    : result (list segment * store) :=
  '(live, pi, tau) ← apply_record rec (fr_live fr)
                        (int_dict_at σ (fr_pi fr)) (float_dict_at σ (fr_tau fr));
  Ok (live, Store (<[fr_pi fr := pi]> (int_dicts σ))
              (<[fr_tau fr := tau]> (float_dicts σ))).

Definition with_live (fr : sparse_frame) (pc : sparse_pc)
    (live : list segment) : sparse_frame :=
  Frame pc (fr_num_loci fr) (fr_pi fr) (fr_tau fr) live.

(** Running the [for] loop up to the next [yield]. *)
Fixpoint run_to_yield (fr : sparse_frame) (recs : list (record F))
    (last_l : Z) (live : list segment) (σ : store)
    : result (Z * nat * nat) * sparse_frame * store :=
  match recs with
  | [] =>
      (Ok (fr_num_loci fr - last_l, fr_pi fr, fr_tau fr),
       with_live fr AtFinalYield live, σ)
  | rec :: recs =>
      let l := r_left rec in
      if decide (last_l = l) then
        match apply_record_in (with_live fr Finished live) rec σ with
        | Ok (live, σ) => run_to_yield fr recs l live σ
        | Raise e => (Raise e, with_live fr Finished live, σ)
        end
      else
        (Ok (uint32 (l - last_l), fr_pi fr, fr_tau fr),
         with_live fr (AtLoopYield rec recs) live, σ)
  end.

(** [next(g)] for the generator [g = sparse_trees()]. *)
Definition sparse_next (fr : sparse_frame) (σ : store)
    : result (Z * nat * nat) * sparse_frame * store :=
  match fr_pc fr with
  | AtStart ts =>
      let n := _sample_size ts in
      let '(pi, σ) := new_int_dict σ ∅ in
      let '(tau, σ) := new_float_dict σ (samples_dict n fzero) in
      let fr := Frame Finished (fr_num_loci fr) pi tau [] in
      run_to_yield fr (records ts) 0 [] σ
  | AtLoopYield rec recs =>
      match apply_record_in fr rec σ with
      | Ok (live, σ) => run_to_yield fr recs (r_left rec) live σ
      | Raise e => (Raise e, with_live fr Finished (fr_live fr), σ)
      end
  | AtFinalYield => (Raise StopIteration, with_live fr Finished (fr_live fr), σ)
  | Finished => (Raise StopIteration, fr, σ)
  end.

(** What a consumer notes at a [yield]: the value yielded, and a copy of
    what it reads through the two references at that moment. *)
Definition observation : Type := ((Z * nat * nat) * gmap Z Z * gmap Z F)%type.

Definition seen (o : observation) : sparse_tree F := (o.1.1.1.1, o.1.2, o.2).

(** A consumer that calls [next] up to [k] times and touches nothing. *)
Fixpoint observe (k : nat) (fr : sparse_frame) (σ : store)
    : list observation * sparse_frame * store :=
  match k with
  | O => ([], fr, σ)
  | S k =>
      match sparse_next fr σ with
      | (Ok y, fr, σ) =>
          let o := (y, int_dict_at σ y.1.2, float_dict_at σ y.2) in
          let '(rest, fr, σ) := observe k fr σ in
          (o :: rest, fr, σ)
      | (Raise _, fr, σ) => ([], fr, σ)
      end
  end.

(** What a suspended generator yields from here on, if its dictionaries are
    left alone. *)
Definition remaining (fr : sparse_frame) (σ : store) : gen (sparse_tree F) () :=
  match fr_pc fr with
  | AtStart ts => sparse_trees ts
  | AtLoopYield rec recs =>
      '(live, pi, tau) ← lift (apply_record rec (fr_live fr)
                                 (int_dict_at σ (fr_pi fr))
                                 (float_dict_at σ (fr_tau fr)));
      sparse_trees_loop (fr_num_loci fr) recs (r_left rec) live pi tau
  | AtFinalYield | Finished => mret ()
  end.

(** "What was yielded before is not changed by advancing the iterator": after
    a second [next], the dictionaries reached through the references of the
    first [yield] are what they were at the first [yield]. *)
Definition snapshots_independent (ts : TreeSequence F) : Prop :=
  forall σ0 y1 fr1 σ1 y2 fr2 σ2,
    sparse_next (sparse_trees_call ts) σ0 = (Ok y1, fr1, σ1) ->
    sparse_next fr1 σ1 = (Ok y2, fr2, σ2) ->
    int_dict_at σ2 y1.1.2 = int_dict_at σ1 y1.1.2 /\
    float_dict_at σ2 y1.2 = float_dict_at σ1 y1.2.

(** A frame whose two dictionaries are in the store. *)
Definition frame_ok (fr : sparse_frame) (σ : store) : Prop :=
  is_Some (int_dicts σ !! fr_pi fr) /\ is_Some (float_dicts σ !! fr_tau fr).

End SparseGenerator.
Arguments store F : clear implicits.
Arguments sparse_pc F : clear implicits.
Arguments sparse_frame F : clear implicits.
Arguments observation F : clear implicits.

(** ** NewickGenerator *)

(** [for x in l: s = f(s, x)], stopping at the first exception. *)
Fixpoint for_each {A S} (f : S -> A -> result S) (l : list A) (s : S)
    : result S :=
  match l with
  | [] => Ok s
  | x :: l => s ← f s x; for_each f l s
  end.

Definition assert (b : bool) : result () :=
  if b then Ok () else Raise AssertionError.

Section NewickGenerator.
Context {F : Type} `{!Float F}.

Record NewickGenerator : Type := NG {
  ng_sample_size : Z;
  ng_precision : Z;
  ng_children : gmap Z (Z * Z);
  ng_branch_length : gmap Z string;
  ng_time : gmap Z F;
  ng_parent : gmap Z Z;
  ng_subtree : gmap Z string;
  ng_root : Z           (* assigned by [next] before it is read *)
}.

(** [NewickGenerator.__init__], without the diff iterator, which is given to
    [next] one item at a time. *)
Definition NewickGenerator_init (sample_size precision : Z) : NewickGenerator :=
  NG sample_size precision ∅ ∅ (samples_dict sample_size fzero) ∅ ∅ 0.

(** [_propogate_subtree_loss]: every iteration deletes an entry of
    [_subtree], so [fuel = size subtree] iterations are enough. *)
Fixpoint propogate_loop (fuel : nat) (parent : gmap Z Z)
    (subtree : gmap Z string) (k : Z) : result (gmap Z string) :=
  match subtree !! k with
  | Some _ =>
      match fuel with
      | O => Raise Diverges
      | S fuel =>
          let subtree := delete k subtree in
          let k := match parent !! k with Some p => p | None => k end in
          propogate_loop fuel parent subtree k
      end
  | None => Ok subtree
  end.

Definition _propogate_subtree_loss (self : NewickGenerator) (node : Z)
    : result NewickGenerator :=
  subtree ← propogate_loop (size (ng_subtree self)) (ng_parent self)
               (ng_subtree self) node;
  Ok (NG (ng_sample_size self) (ng_precision self) (ng_children self)
        (ng_branch_length self) (ng_time self) (ng_parent self) subtree
        (ng_root self)).

(** The body of [for j in children] for a record of [records_out]. *)
Definition remove_child (self : NewickGenerator) (j : Z)
    : result NewickGenerator :=
  self ← _propogate_subtree_loss self j;
  parent ← delitem (ng_parent self) j;
  branch_length ← delitem (ng_branch_length self) j;
  Ok (NG (ng_sample_size self) (ng_precision self) (ng_children self)
        branch_length (ng_time self) parent (ng_subtree self) (ng_root self)).

(** The body of the loop over [records_out]. *)
Definition remove_record (self : NewickGenerator) (e : edge F)
    : result NewickGenerator :=
  let '(children, parent, _) := e in
  children_d ← delitem (ng_children self) parent;
  time_d ← delitem (ng_time self) parent;
  let self := NG (ng_sample_size self) (ng_precision self) children_d
                (ng_branch_length self) time_d (ng_parent self)
                (ng_subtree self) (ng_root self) in
  for_each remove_child [children.1; children.2] self.

(** The body of [for j in children] for a record of [records_in]. *)
Definition insert_child (parent : Z) (self : NewickGenerator) (j : Z)
    : result NewickGenerator :=
  let self := NG (ng_sample_size self) (ng_precision self) (ng_children self)
                (ng_branch_length self) (ng_time self)
                (<[j := parent]> (ng_parent self)) (ng_subtree self)
                (ng_root self) in
  _propogate_subtree_loss self j.

(** The body of the first loop over [records_in]. *)
Definition insert_record (self : NewickGenerator) (e : edge F)
    : result NewickGenerator :=
  let '(children, parent, time) := e in
  let self := NG (ng_sample_size self) (ng_precision self)
                (<[parent := children]> (ng_children self))
                (ng_branch_length self) (ng_time self) (ng_parent self)
                (ng_subtree self) (ng_root self) in
  self ← for_each (insert_child parent) [children.1; children.2] self;
  Ok (NG (ng_sample_size self) (ng_precision self) (ng_children self)
        (ng_branch_length self) (<[parent := time]> (ng_time self))
        (ng_parent self) (ng_subtree self) (ng_root self)).

(** The body of the second loop over [records_in]: the branch lengths. *)
Definition set_branch_lengths (self : NewickGenerator) (e : edge F)
    : result NewickGenerator :=
  let '(children, parent, time) := e in
  for_each (fun self j =>
      tj ← getitem (ng_time self) j;
      let s := fformat (fsub time tj) (ng_precision self) in
      Ok (NG (ng_sample_size self) (ng_precision self) (ng_children self)
            (<[j := s]> (ng_branch_length self)) (ng_time self)
            (ng_parent self) (ng_subtree self) (ng_root self)))
    [children.1; children.2] self.

(** [while self._root in self._parent: self._root = self._parent[self._root]].
    With [fuel = size parent] the bound is reached only when the chain of
    parents runs into a cycle, where the Python loop does not end. *)
Fixpoint find_root (fuel : nat) (parent : gmap Z Z) (root : Z) : result Z :=
  match parent !! root with
  | Some p =>
      match fuel with
      | O => Raise Diverges
      | S fuel => find_root fuel parent p
      end
  | None => Ok root
  end.

(** The first loop of [_update_subtrees]: the nodes that have no cached
    string, in the order they are met; [nodes] has room for
    [2 * sample_size] of them. *)
Fixpoint collect (fuel : nat) (self : NewickGenerator) (stack : list Z)
    (nodes : list Z) : result (list Z) :=
  match stack with
  | [] => Ok nodes
  | node :: stack =>
      match fuel with
      | O => Raise Diverges
      | S fuel =>
          match ng_subtree self !! node with
          | Some _ => collect fuel self stack nodes
          | None =>
              if decide (Z.of_nat (length nodes) < 2 * ng_sample_size self)
              then
                let nodes := nodes ++ [node] in
                match ng_children self !! node with
                | Some (a, b) => collect fuel self (b :: a :: stack) nodes
                | None => collect fuel self stack nodes
                end
              else Raise IndexError
          end
      end
  end.

(** The string that the body of the second loop of [_update_subtrees]
    builds for a node.  The character array [s] is filled piece by piece in
    the source; the pieces and their places are those of the
    concatenation. *)
Definition subtree_string (self : NewickGenerator) (node : Z)
    : result string :=
  match ng_children self !! node with
  | Some children =>
      s1 ← getitem (ng_subtree self) children.1;
      s2 ← getitem (ng_subtree self) children.2;
      if decide (node = ng_root self) then
        Ok ("(" +:+ s1 +:+ "," +:+ s2 +:+ ")" +:+ ";")
      else
        bl ← getitem (ng_branch_length self) node;
        Ok ("(" +:+ s1 +:+ "," +:+ s2 +:+ ")" +:+ ":" +:+ bl)
  | None =>
      let prefix := pretty node +:+ ":" in
      suffix ← getitem (ng_branch_length self) node;
      Ok (prefix +:+ suffix)
  end.

(** The body of the second loop of [_update_subtrees]:
    [self._subtree[node] = s]. *)
Definition build_subtree (self : NewickGenerator) (node : Z)
    : result NewickGenerator :=
  s ← subtree_string self node;
  Ok (NG (ng_sample_size self) (ng_precision self) (ng_children self)
        (ng_branch_length self) (ng_time self) (ng_parent self)
        (<[node := s]> (ng_subtree self)) (ng_root self)).

Definition _update_subtrees (self : NewickGenerator) : result NewickGenerator :=
  nodes ← collect (Z.to_nat (4 * ng_sample_size self + 1)) self
             [ng_root self] [];
  for_each build_subtree (rev nodes) self.

(** [NewickGenerator.next], given the item that [next(self._diffs)]
    returns. *)
Definition NewickGenerator_next (self : NewickGenerator)
    (d : Z * list (edge F) * list (edge F))
    : result (NewickGenerator * (Z * string)) :=
  let '(length, records_out, records_in) := d in
  self ← for_each remove_record records_out self;
  self ← for_each insert_record records_in self;
  self ← for_each set_branch_lengths records_in self;
  root ← find_root (size (ng_parent self)) (ng_parent self) 1;
  let self := NG (ng_sample_size self) (ng_precision self) (ng_children self)
                (ng_branch_length self) (ng_time self) (ng_parent self)
                (ng_subtree self) root in
  assert (bool_decide
    (Z.of_nat (size (ng_time self)) = 2 * ng_sample_size self - 1));;
  assert (bool_decide
    (Z.of_nat (size (ng_parent self)) = 2 * ng_sample_size self - 2));;
  assert (bool_decide
    (Z.of_nat (size (ng_branch_length self)) = 2 * ng_sample_size self - 2));;
  self ← _update_subtrees self;
  ret ← getitem (ng_subtree self) (ng_root self);
  Ok (self, (length, ret)).

(** Iterating over the generator. *)
Fixpoint newick_loop (self : NewickGenerator)
    (ds : list (Z * list (edge F) * list (edge F))) : gen (Z * string) () :=
  match ds with
  | [] => mret ()
  | d :: ds =>
      '(self, y) ← lift (NewickGenerator_next self d);
      yield y;;
      newick_loop self ds
  end.

(** [TreeSequence.newick_trees], iterated to its end. *)
Definition newick_trees (ts : TreeSequence F) (precision : Z)
    (all_breaks : bool) : gen (Z * string) () :=
  let inner := diffs ts all_breaks in
  newick_loop (NewickGenerator_init (get_sample_size ts) precision) inner.1;;
  lift inner.2.

(** The builder without a cache: the same [next], entered with [_subtree]
    emptied, so that every string is built again from the leaves. *)
Definition clear_cache (self : NewickGenerator) : NewickGenerator :=
  NG (ng_sample_size self) (ng_precision self) (ng_children self)
    (ng_branch_length self) (ng_time self) (ng_parent self) ∅ (ng_root self).

Definition naive_next (self : NewickGenerator)
    (d : Z * list (edge F) * list (edge F))
    : result (NewickGenerator * (Z * string)) :=
  NewickGenerator_next (clear_cache self) d.

Fixpoint naive_loop (self : NewickGenerator)
    (ds : list (Z * list (edge F) * list (edge F))) : gen (Z * string) () :=
  match ds with
  | [] => mret ()
  | d :: ds =>
      '(self, y) ← lift (naive_next self d);
      yield y;;
      naive_loop self ds
  end.

Definition naive_newick_trees (ts : TreeSequence F) (precision : Z)
    (all_breaks : bool) : gen (Z * string) () :=
  let inner := diffs ts all_breaks in
  naive_loop (NewickGenerator_init (get_sample_size ts) precision) inner.1;;
  lift inner.2.

End NewickGenerator.
Arguments NewickGenerator F : clear implicits.

(** ** HaplotypeGenerator *)

Section HaplotypeGenerator.
Context {F G : Type} `{!Float F} `{!Rng F G}.

(** The haplotype matrix is the list of its rows; every row has
    [_max_segregating_sites] cells, each ["0"] or ["1"]. *)
Record HaplotypeGenerator : Type := HG {
  hg_random_seed : Z;
  hg_rng : G;
  hg_num_loci : Z;
  hg_sample_size : Z;
  hg_scaled_mutation_rate : F;
  hg_num_segregating_sites : Z;
  hg_max_segregating_sites : Z;
  hg_total_branch_length : F;
  hg_branch_length : gmap Z F;
  hg_children : gmap Z (Z * Z);
  hg_time : gmap Z F;
  hg_haplotype : list (list ascii)
}.

(** [np.empty((rows, cols))] filled with ["0"]. *)
Definition zeros (rows cols : Z) : list (list ascii) :=
  replicate (Z.to_nat rows) (replicate (Z.to_nat cols) "0"%char).

(** An index into an axis of length [len]: negative indices count from the
    end. *)
Definition axis_index (len i : Z) : result nat :=
  if (0 <=? i) && (i <? len) then Ok (Z.to_nat i)
  else if (- len <=? i) && (i <? 0) then Ok (Z.to_nat (i + len))
  else Raise IndexError.

(** [a[i, j] = x] *)
Definition setitem2 (a : list (list ascii)) (i j : Z) (x : ascii)
    : result (list (list ascii)) :=
  i ← axis_index (Z.of_nat (length a)) i;
  match a !! i with
  | Some row =>
      j ← axis_index (Z.of_nat (length row)) j;
      Ok (<[i := <[j := x]> row]> a)
  | None => Raise IndexError
  end.

Definition set_haplotype (self : HaplotypeGenerator)
    (num_segregating_sites max_segregating_sites : Z)
    (haplotype : list (list ascii)) : HaplotypeGenerator :=
  HG (hg_random_seed self) (hg_rng self) (hg_num_loci self)
    (hg_sample_size self) (hg_scaled_mutation_rate self)
    num_segregating_sites max_segregating_sites
    (hg_total_branch_length self) (hg_branch_length self)
    (hg_children self) (hg_time self) haplotype.

(** The [while] loop of [_apply_rare_mutations] for one branch.  The bound
    [fuel] is enough whenever the nodes below the branch form a tree; on a
    children dictionary with a cycle the Python loop does not end. *)
Fixpoint mark_leaves (fuel : nat) (self : HaplotypeGenerator)
    (stack : list Z) (haplotype : list (list ascii))
    : result (list (list ascii)) :=
  match stack with
  | [] => Ok haplotype
  | u :: stack =>
      match fuel with
      | O => Raise Diverges
      | S fuel =>
          if decide (u <= hg_sample_size self) then
            haplotype ← setitem2 haplotype (u - 1)
                          (hg_num_segregating_sites self) "1"%char;
            mark_leaves fuel self stack haplotype
          else
            children ← getitem (hg_children self) u;
            mark_leaves fuel self (children.2 :: children.1 :: stack)
              haplotype
      end
  end.

(** The body of [for node in branches]. *)
Definition apply_rare_mutation (self : HaplotypeGenerator) (node : Z)
    : result HaplotypeGenerator :=
  haplotype ← mark_leaves (2 * size (hg_children self) + 1) self [node]
                 (hg_haplotype self);
  Ok (set_haplotype self (hg_num_segregating_sites self + 1)
        (hg_max_segregating_sites self) haplotype).

Definition _apply_rare_mutations (self : HaplotypeGenerator)
    (branches : list Z) : result HaplotypeGenerator :=
  for_each apply_rare_mutation branches self.

(** [_apply_mutations].  When the matrix grows, the old one, of shape
    [(n, k)], is copied into the columns [0 .. k - 1] of a matrix of zeros. *)
Definition _apply_mutations (self : HaplotypeGenerator) (branches : list Z)
    : result HaplotypeGenerator :=
  let new_s := hg_num_segregating_sites self + Z.of_nat (length branches) in
  let self :=
    if decide (new_s >= hg_max_segregating_sites self) then
      let old_haplotypes := hg_haplotype self in
      let k := hg_max_segregating_sites self in
      let max_segregating_sites := Z.max (2 * k) (new_s + 1) in
      set_haplotype self (hg_num_segregating_sites self)
        max_segregating_sites
        ((fun row => row ++
            replicate (Z.to_nat (max_segregating_sites - k)) "0"%char)
           <$> old_haplotypes)
    else self in
  _apply_rare_mutations self branches.

(** [branches[j] = x] for the [j]th item of a dictionary: the items, then
    what the array held beyond them. *)
Definition fill_prefix {A} (items old : list A) : result (list A) :=
  if decide (length items <= length old)%nat
  then Ok (items ++ drop (length items) old)
  else Raise IndexError.

(** The loop variables of [_generate_haplotypes]. *)
Definition hg_loop_state : Type := (HaplotypeGenerator * list Z * list F)%type.

Definition retire_edge (self : HaplotypeGenerator) (e : edge F)
    : result HaplotypeGenerator :=
  let '(children, parent, _) := e in
  children_d ← delitem (hg_children self) parent;
  time_d ← delitem (hg_time self) parent;
  '(total, branch_length) ←
    for_each (fun (s : F * gmap Z F) j =>
        bl ← getitem s.2 j;
        branch_length ← delitem s.2 j;
        Ok (fsub s.1 bl, branch_length))
      [children.1; children.2]
      (hg_total_branch_length self, hg_branch_length self);
  Ok (HG (hg_random_seed self) (hg_rng self) (hg_num_loci self)
        (hg_sample_size self) (hg_scaled_mutation_rate self)
        (hg_num_segregating_sites self) (hg_max_segregating_sites self)
        total branch_length children_d time_d (hg_haplotype self)).

Definition add_edge (self : HaplotypeGenerator) (e : edge F)
    : result HaplotypeGenerator :=
  let '(children, parent, time) := e in
  Ok (HG (hg_random_seed self) (hg_rng self) (hg_num_loci self)
        (hg_sample_size self) (hg_scaled_mutation_rate self)
        (hg_num_segregating_sites self) (hg_max_segregating_sites self)
        (hg_total_branch_length self) (hg_branch_length self)
        (<[parent := children]> (hg_children self))
        (<[parent := time]> (hg_time self)) (hg_haplotype self)).

Definition add_branch_lengths (self : HaplotypeGenerator) (e : edge F)
    : result HaplotypeGenerator :=
  let '(children, parent, time) := e in
  for_each (fun self j =>
      tj ← getitem (hg_time self) j;
      let bl := fsub time tj in
      Ok (HG (hg_random_seed self) (hg_rng self) (hg_num_loci self)
            (hg_sample_size self) (hg_scaled_mutation_rate self)
            (hg_num_segregating_sites self) (hg_max_segregating_sites self)
            (fadd (hg_total_branch_length self) bl)
            (<[j := bl]> (hg_branch_length self))
            (hg_children self) (hg_time self) (hg_haplotype self)))
    [children.1; children.2] self.

(** The body of the loop of [_generate_haplotypes] over the diffs.  The
    items of [_branch_length] are taken in the order of [map_to_list]. *)
Definition generate_step (s : hg_loop_state)
    (d : Z * list (edge F) * list (edge F)) : result hg_loop_state :=
  let '(self, branches, probabilities) := s in
  let '(length, records_out, records_in) := d in
  self ← for_each retire_edge records_out self;
  self ← for_each add_edge records_in self;
  self ← for_each add_branch_lengths records_in self;
  let mu :=
    fdiv (fmul (fmul (hg_total_branch_length self)
                  (hg_scaled_mutation_rate self)) (fof_Z length))
      (fof_Z (hg_num_loci self)) in
  let '(num_mutations, rng) := poisson (hg_rng self) mu in
  let self :=
    HG (hg_random_seed self) rng (hg_num_loci self)
      (hg_sample_size self) (hg_scaled_mutation_rate self)
      (hg_num_segregating_sites self) (hg_max_segregating_sites self)
      (hg_total_branch_length self) (hg_branch_length self)
      (hg_children self) (hg_time self) (hg_haplotype self) in
  if decide (num_mutations > 0) then
    let items := map_to_list (hg_branch_length self) in
    branches ← fill_prefix (fst <$> items) branches;
    probabilities ←
      fill_prefix
        ((fun x => fdiv x.2 (hg_total_branch_length self)) <$> items)
        probabilities;
    let '(mutation_branches, rng) :=
      choice (hg_rng self) branches num_mutations probabilities in
    let self :=
      HG (hg_random_seed self) rng (hg_num_loci self)
        (hg_sample_size self) (hg_scaled_mutation_rate self)
        (hg_num_segregating_sites self) (hg_max_segregating_sites self)
        (hg_total_branch_length self) (hg_branch_length self)
        (hg_children self) (hg_time self) (hg_haplotype self) in
    self ← _apply_mutations self mutation_branches;
    Ok (self, branches, probabilities)
  else Ok (self, branches, probabilities).

(** [_generate_haplotypes]: the loop consumes [tree_sequence.diffs()]; an
    exception of the diff generator comes out after its last item. *)
Definition _generate_haplotypes (ts : TreeSequence F)
    (self : HaplotypeGenerator) : result HaplotypeGenerator :=
  let n := hg_sample_size self in
  let branches := replicate (Z.to_nat (2 * n - 2)) 0 in
  let probabilities := replicate (Z.to_nat (2 * n - 2)) fzero in
  let inner := diffs ts false in
  s ← for_each generate_step inner.1 (self, branches, probabilities);
  inner.2;;
  Ok s.1.1.

(** [HaplotypeGenerator.__init__] up to the call of
    [_generate_haplotypes].  [randint] is what [random.randint(0, 2**31)]
    returns if it is called, [entropy] what [RandomState(None)] reads from
    the operating system. *)
Definition HaplotypeGenerator_fields (ts : TreeSequence F)
    (scaled_mutation_rate : F) (random_seed : option Z)
    (randint entropy : Z) : HaplotypeGenerator :=
  let _random_seed :=
    match random_seed with
    | Some s => s
    | None => randint
    end in
  let _rng := seed_rng random_seed entropy in
  let num_loci := get_num_loci ts in
  let sample_size := get_sample_size ts in
  let max_segregating_sites := num_loci in
  HG _random_seed _rng num_loci sample_size scaled_mutation_rate 0
    max_segregating_sites fzero ∅ ∅ (samples_dict sample_size fzero)
    (zeros sample_size max_segregating_sites).

(** [HaplotypeGenerator.__init__] *)
Definition HaplotypeGenerator_init (ts : TreeSequence F)
    (scaled_mutation_rate : F) (random_seed : option Z)
    (randint entropy : Z) : result HaplotypeGenerator :=
  _generate_haplotypes ts
    (HaplotypeGenerator_fields ts scaled_mutation_rate random_seed randint
       entropy).

Definition get_num_segregating_sites (self : HaplotypeGenerator) : Z :=
  hg_num_segregating_sites self.

(** [haplotypes], as the list of what it yields: [h[:num_segregating_sites]]
    for every row. *)
Definition haplotypes (self : HaplotypeGenerator) : list (list ascii) :=
  take (Z.to_nat (hg_num_segregating_sites self)) <$> hg_haplotype self.

Definition haplotype_strings (self : HaplotypeGenerator) : list string :=
  string_of_list_ascii <$> haplotypes self.

End HaplotypeGenerator.
Arguments HaplotypeGenerator F G : clear implicits.

(** ** Valid inputs

    The records that are live at a locus are those whose interval
    [[left, right)] holds it.  A record sequence is valid when its records are
    in the order of their [left], their intervals lie in [0 .. num_loci], and
    at every locus the live records are the internal nodes of one binary tree
    over the leaves [1 .. sample_size]. *)

Inductive tree : Type :=
  | Leaf (u : Z)
  | Node (p : Z) (l r : tree).

Definition root_of (t : tree) : Z :=
  match t with Leaf u => u | Node p _ _ => p end.

Fixpoint leaves (t : tree) : list Z :=
  match t with
  | Leaf u => [u]
  | Node _ l r => leaves l ++ leaves r
  end.

Fixpoint inner (t : tree) : list Z :=
  match t with
  | Leaf _ => []
  | Node p l r => p :: inner l ++ inner r
  end.

Fixpoint nodes (t : tree) : list Z :=
  match t with
  | Leaf u => [u]
  | Node p l r => p :: nodes l ++ nodes r
  end.

(** A link is the [(children, parent)] of a record. *)
Abbreviation link := ((Z * Z) * Z)%type.

Definition parents (E : list link) : list Z := snd <$> E.

Definition children_of (E : list link) : list Z :=
  E ≫= (fun e => [e.1.1; e.1.2]).

Definition children_dict (E : list link) : gmap Z (Z * Z) :=
  list_to_map ((fun e : link => (e.2, e.1)) <$> E).

(** The tree below [v] in a children dictionary; nodes without an entry must
    be samples. *)
Fixpoint tree_below (fuel : nat) (C : gmap Z (Z * Z)) (n : Z) (v : Z)
    : option tree :=
  match fuel with
  | O => None
  | S fuel =>
      match C !! v with
      | Some (a, b) =>
          l ← tree_below fuel C n a;
          r ← tree_below fuel C n b;
          Some (Node v l r)
      | None => if (1 <=? v) && (v <=? n) then Some (Leaf v) else None
      end
  end.

(** The tree of a set of links, if they are the internal nodes of one binary
    tree over the leaves [1 .. n], with node identifiers all distinct. *)
Definition tree_of (n : Z) (E : list link) : option tree :=
  root ← head (filter (fun p => p ∉ children_of E) (parents E));
  t ← tree_below (S (length E)) (children_dict E) n root;
  guard (Z.of_nat (length E) = n - 1);;
  guard (NoDup (parents E));;
  guard (Forall (fun p => n < p) (parents E));;
  guard (NoDup (children_of E));;
  guard (NoDup (nodes t));;
  guard (Forall (fun j => j ∈ leaves t) (seqZ 1 n));;
  guard (Forall (fun p => p ∈ inner t) (parents E));;
  Some t.

Definition is_tree (n : Z) (E : list link) : bool :=
  bool_decide (is_Some (tree_of n E)).

Section Valid.
Context {F : Type}.

Definition link_of (r : record F) : link := (r_children r, r_parent r).

Definition covers (x : Z) (r : record F) : bool :=
  (r_left r <=? x) && (x <? r_right r).

(** The records live at locus [x]. *)
Definition live_at (recs : list (record F)) (x : Z) : list (record F) :=
  filter (fun r => covers x r = true) recs.

Definition valid_record (num_loci : Z) (r : record F) : bool :=
  (0 <=? r_left r) && (r_left r <? r_right r) && (r_right r <=? num_loci).

Definition valid_records (n num_loci : Z) (recs : list (record F)) : bool :=
  (2 <=? n) && (1 <=? num_loci) && (num_loci <? 2 ^ 32)
  && forallb (valid_record num_loci) recs
  && bool_decide (Sorted Z.le (r_left <$> recs))
  && forallb (fun x => is_tree n (link_of <$> live_at recs x))
       (seqZ 0 num_loci).

Definition valid_ts (ts : TreeSequence F) : bool :=
  valid_records (_sample_size ts) (_num_loci ts) (records ts).

(** The breakpoints go from [0] to [num_loci] in increasing order, and every
    [left] is one of them. *)
Definition valid_breakpoints (ts : TreeSequence F) : bool :=
  bool_decide (head (_breakpoints ts) = Some 0)
  && bool_decide (last (_breakpoints ts) = Some (_num_loci ts))
  && bool_decide (Sorted Z.lt (_breakpoints ts))
  && forallb (fun r => bool_decide (r_left r ∈ _breakpoints ts)) (records ts).

End Valid.

(** ** Instances for the examples

    Integers for the times, and a generator whose state is a counter. *)

Global Instance ZFloat : Float Z := {|
  fzero := 0; fadd := Z.add; fsub := Z.sub; fmul := Z.mul; fdiv := Z.div;
  fof_Z := fun z => z; fformat := fun x _ => pretty x |}.

Global Instance ZRng : Rng Z Z := {|
  seed_rng := fun seed entropy => default entropy seed;
  poisson := fun g mu => (if decide (mu = 0) then 0 else g mod 2, g + 1);
  choice := fun g branches num _ => (take (Z.to_nat num) branches, g + 1) |}.

(** Three samples, five loci, two trees: [((1,2)4,3)5] on [[0,3)] and
    [((1,2)4,3)6] on [[3,5)]. *)
Definition two_trees : TreeSequence Z :=
  TS [0; 2; 3; 5] [0; 0; 3] [5; 3; 5] [(1, 2); (4, 3); (4, 3)] [4; 5; 6]
     [1; 3; 4] 3 5.

(** ** Statements about inputs *)

Section Statements.
Context {F : Type} `{!Float F}.

(** The heap entry pushed for a record. *)
Definition segment_of (rec : record F) : segment :=
  (r_right rec, (r_children rec, r_parent rec)).

(** [used_records[r].append((children, parent, t))] *)
Definition record_used (used : gmap Z (list (edge F))) (rec : record F)
    : gmap Z (list (edge F)) :=
  <[r_right rec := used_at used (r_right rec) ++ [edge_of rec]]> used.

(** The last record does not end at [num_loci]. *)
Definition closing_mismatch (ts : TreeSequence F) : Prop :=
  exists r, last (records ts) = Some r /\ r_right r ≠ _num_loci ts.

(** A record is still live past the last locus. *)
Definition unterminated (ts : TreeSequence F) : Prop :=
  exists r, r ∈ records ts /\ _num_loci ts < r_right r.

(** "The diff engine fails on such an input". *)
Definition diffs_fails_on_malformed (ts : TreeSequence F) : Prop :=
  closing_mismatch ts \/ unterminated ts ->
  exists e, (_diffs ts).2 = Raise e.

End Statements.

(** One run of two records that end at different loci, the second one beyond
    the five loci of the sequence. *)
Definition malformed : TreeSequence Z :=
  TS [0; 5] [0; 0] [3; 7] [(1, 2); (4, 3)] [4; 5] [1; 2] 3 5.

(** ** Statements about the order of the records *)

Section Order.
Context {F : Type}.

(** [records()] goes through the records in the order of their [left]. *)
Definition records_ascending (ts : TreeSequence F) : Prop :=
  Sorted Z.le (r_left <$> records ts).

End Order.

(** An [argsort] for the examples: insertion from the right, which keeps the
    order of equal keys. *)
Fixpoint insert_index (a : list Z) (i : nat) (p : list nat) : list nat :=
  match p with
  | [] => [i]
  | j :: p' =>
      if decide (a !!! i <= a !!! j) then i :: p
      else j :: insert_index a i p'
  end.

Definition insertion_argsort (a : list Z) : list nat :=
  foldr (insert_index a) [] (seq 0 (length a)).

(** The arrays of [two_trees], started from the second tree. *)
Definition unsorted_file : container Z :=
  Container [0; 2; 3; 5] [3; 0; 0] [5; 5; 3] [(4, 3); (1, 2); (4, 3)]
    [6; 4; 5] [4; 1; 3] 3 5.

(** ** The state of sparse_trees *)

Definition live_links (live : list segment) : list link := snd <$> live.

Section SparseState.
Context {F : Type}.

(** The dictionaries hold the records of the heap, and these have distinct
    children and distinct parents, none of them a sample. *)
Record sparse_ok (n : Z) (live : list segment) (pi : gmap Z Z)
    (tau : gmap Z F) : Prop := SparseOk {
  ok_children : NoDup (children_of (live_links live));
  ok_parents : NoDup (parents (live_links live));
  ok_inner : Forall (fun p => n < p) (parents (live_links live));
  ok_pi : dom pi = list_to_set (children_of (live_links live));
  ok_tau : dom tau
           = list_to_set (seqZ 1 n) ∪ list_to_set (parents (live_links live))
}.

End SparseState.

(** ** Interval lengths *)

(** The [interval_length] of a yielded triple, and their sum. *)
Definition length_of {A B} (y : Z * A * B) : Z := y.1.1.

Definition total_length {A B} (ys : list (Z * A * B)) : Z :=
  foldr Z.add 0 (length_of <$> ys).

(** The heap of [sparse_trees] after the records [done], when the current
    left is [x]. *)
Definition heap_after {F} (done : list (record F)) (x : Z) : list segment :=
  filter (fun s : segment => x < s.1) (segment_of <$> reverse done).

(** ** The state of the NewickGenerator *)

Section NewickState.
Context {F : Type}.

(** Two states with the same forest: they differ in [_subtree] only. *)
Definition same_forest (self self' : NewickGenerator F) : Prop :=
  ng_sample_size self' = ng_sample_size self /\
  ng_children self' = ng_children self /\
  ng_branch_length self' = ng_branch_length self /\
  ng_time self' = ng_time self /\
  ng_parent self' = ng_parent self /\
  ng_root self' = ng_root self.

End NewickState.

(** ** Trees and the links of their nodes *)

Fixpoint links_of (t : tree) : list link :=
  match t with
  | Leaf _ => []
  | Node p l r => ((root_of l, root_of r), p) :: links_of l ++ links_of r
  end.

(** [E] is the set of the links of the tree [t], a binary tree over the
    leaves [1 .. n] whose node identifiers are all distinct. *)
Record tree_for (n : Z) (E : list link) (t : tree) : Prop := TreeFor {
  tf_links : E ≡ₚ links_of t;
  tf_nodup : NoDup (nodes t);
  tf_leaves : forall j, j ∈ leaves t <-> 1 <= j <= n;
  tf_inner : Forall (fun p => n < p) (inner t)
}.

(** The tree [t] as the children dictionary has it. *)
Fixpoint tree_in (C : gmap Z (Z * Z)) (t : tree) : Prop :=
  match t with
  | Leaf u => C !! u = None
  | Node p l r =>
      C !! p = Some (root_of l, root_of r) /\ tree_in C l /\ tree_in C r
  end.

(** The tree [t] as the parent dictionary has it. *)
Fixpoint parents_in (P : gmap Z Z) (t : tree) : Prop :=
  match t with
  | Leaf u => True
  | Node p l r =>
      P !! root_of l = Some p /\ P !! root_of r = Some p /\
      parents_in P l /\ parents_in P r
  end.

Fixpoint height (t : tree) : nat :=
  match t with
  | Leaf _ => 0
  | Node _ l r => S (Nat.max (height l) (height r))
  end.

Section DiffStream.
Context {F : Type}.

(** A valid diff stream, from the edges [E] of the tree before it: every
    item takes edges of the current tree away and puts edges in, and what
    results is again a tree over the samples. *)
Inductive diff_stream (n : Z) : list (edge F) -> list (delta F) -> Prop :=
  | stream_end E : diff_stream n E []
  | stream_step E K E' t len out rin ds :
      E ≡ₚ out ++ K ->
      E' ≡ₚ K ++ rin ->
      tree_for n (fst <$> E') t ->
      diff_stream n E' ds ->
      diff_stream n E ((len, out, rin) :: ds).

End DiffStream.

(** ** The forest dictionaries of the generators *)

(** Distinct parents, none of them a sample, and distinct children. *)
Definition flat (n : Z) (L : list link) : Prop :=
  NoDup (parents L) /\ NoDup (children_of L) /\
  Forall (fun p => n < p) (parents L).

(** The keys of the children, time and branch length dictionaries, for the
    links [EC] in the first two and [EB] in the third. *)
Record forest_doms {VC VT VB} (n : Z) (C : gmap Z VC) (T : gmap Z VT)
    (B : gmap Z VB) (EC EB : list link) : Prop := ForestDoms {
  fd_children : dom C = list_to_set (parents EC);
  fd_time : dom T = list_to_set (seqZ 1 n) ∪ list_to_set (parents EC);
  fd_branch : dom B = list_to_set (children_of EB)
}.

Section HaplotypeState.
Context {F G : Type} `{!Float F} `{!Rng F G}.

(** What the loops over the records leave alone. *)
Definition hg_same_matrix (self self' : HaplotypeGenerator F G) : Prop :=
  hg_sample_size self' = hg_sample_size self /\
  hg_num_loci self' = hg_num_loci self /\
  hg_scaled_mutation_rate self' = hg_scaled_mutation_rate self /\
  hg_num_segregating_sites self' = hg_num_segregating_sites self /\
  hg_max_segregating_sites self' = hg_max_segregating_sites self /\
  hg_haplotype self' = hg_haplotype self.

Definition hg_forest (self : HaplotypeGenerator F G) (EC EB : list link)
    : Prop :=
  forest_doms (hg_sample_size self) (hg_children self) (hg_time self)
    (hg_branch_length self) EC EB.

(** The cell [(i, j)] of the haplotype matrix. *)
Definition cell (self : HaplotypeGenerator F G) (i j : Z) : option ascii :=
  row ← hg_haplotype self !! Z.to_nat i; row !! Z.to_nat j.

(** The matrix has [sample_size] rows of [max_segregating_sites] cells, and
    holds ["0"] from the column [num_segregating_sites] on. *)
Record hg_matrix_ok (self : HaplotypeGenerator F G) : Prop := HgMatrixOk {
  hm_sites : 0 <= hg_num_segregating_sites self
             <= hg_max_segregating_sites self;
  hm_rows : Z.of_nat (length (hg_haplotype self)) = hg_sample_size self;
  hm_cols : Forall (fun row => Z.of_nat (length row)
                               = hg_max_segregating_sites self)
              (hg_haplotype self);
  hm_fresh : Forall (fun row =>
                Forall (fun x => x = "0"%char)
                  (drop (Z.to_nat (hg_num_segregating_sites self)) row))
               (hg_haplotype self)
}.

(** [t] is the tree below the node [v] in the children dictionary. *)
Record subtree_at (self : HaplotypeGenerator F G) (v : Z) (t : tree)
    : Prop := SubtreeAt {
  sa_root : root_of t = v;
  sa_tree : tree_in (hg_children self) t;
  sa_leaves : Forall (fun u => 1 <= u <= hg_sample_size self) (leaves t);
  sa_inner : Forall (fun p => hg_sample_size self < p) (inner t);
  sa_nodup : NoDup (nodes t)
}.

End HaplotypeState.

(** The matrix with ["1"] in the column [j] of the rows of the samples
    [us]. *)
Definition mark_rows (us : list Z) (j : nat) (H : list (list ascii))
    : list (list ascii) :=
  imap (fun i row =>
          if decide (Z.of_nat i + 1 ∈ us) then <[j := "1"%char]> row
          else row) H.

(** A generator with three samples below the tree [((1,2)4,3)5], one
    segregating site so far, and a matrix of two columns. *)
Definition one_site : HaplotypeGenerator Z Z :=
  HG 1 0 5 3 1 1 2 0 ∅ (<[4 := (1, 2)]> (<[5 := (4, 3)]> ∅)) ∅
    [["1"; "0"]; ["0"; "0"]; ["1"; "0"]]%char.

(** ** The state of the NewickGenerator between two trees *)

(** The [(child, parent)] pairs of a set of links. *)
Definition child_pairs (E : list link) : list (Z * Z) :=
  E ≫= (fun e => [(e.1.1, e.2); (e.1.2, e.2)]).

(** A node without a cached string has no parent with one. *)
Definition cache_closed (P : gmap Z Z) (S : gmap Z string) : Prop :=
  forall x p, P !! x = Some p -> x ∉ dom S -> p ∉ dom S.

Section NewickInvariant.
Context {F : Type} `{!Float F}.

(** The forest dictionaries hold the links [EC], and the branch lengths of
    the children of the links [EB]. *)
Record ng_forest (self : NewickGenerator F) (EC EB : list link)
    : Prop := NgForest {
  nf_children : forall p ch,
    ng_children self !! p = Some ch <-> (ch, p) ∈ EC;
  nf_parent : forall c p,
    ng_parent self !! c = Some p <-> (c, p) ∈ child_pairs EC;
  nf_time : dom (ng_time self)
            = list_to_set (seqZ 1 (ng_sample_size self))
              ∪ list_to_set (parents EC);
  nf_branch : dom (ng_branch_length self) = list_to_set (children_of EB)
}.

(** The cache: it is closed, its keys are nodes of the forest, every
    string in it is the one that [_update_subtrees] would put together
    from the strings of the children, and the root is the node in it
    that has no parent. *)
Record ng_cache (self : NewickGenerator F) (E : list link)
    : Prop := NgCache {
  nc_closed : cache_closed (ng_parent self) (ng_subtree self);
  nc_nodes : forall v, v ∈ dom (ng_subtree self) ->
    1 <= v <= ng_sample_size self \/ v ∈ parents E;
  nc_strings : forall v s, ng_subtree self !! v = Some s ->
    subtree_string self v = Ok s;
  nc_root : forall v, v ∈ dom (ng_subtree self) ->
    (v = ng_root self <-> ng_parent self !! v = None)
}.

(** The two builders agree on everything but the cache. *)
Definition forest_eq (self self' : NewickGenerator F) : Prop :=
  same_forest self self' /\ ng_precision self' = ng_precision self.

End NewickInvariant.

(** The distances between consecutive breakpoints. *)
Definition gaps (b : list Z) : list Z :=
  zip_with (fun x y => y - x) b (drop 1 b).

(** The Newick string of a tree, with the branch lengths [B]; the node
    [root] gets no branch length. *)
Fixpoint newick_of (B : gmap Z string) (root : Z) (t : tree) : string :=
  match t with
  | Leaf u => (pretty u +:+ ":") +:+ default EmptyString (B !! u)
  | Node p l r =>
      "(" +:+ newick_of B root l +:+ "," +:+ newick_of B root r +:+ ")" +:+
      (if decide (p = root) then ";"
       else ":" +:+ default EmptyString (B !! p))
  end.

(** The nodes of a tree that the first loop of [_update_subtrees] puts
    into [nodes], in its order: a node without a cached string, then such
    nodes below its second child, then below its first. *)
Fixpoint uncached (S : gmap Z string) (t : tree) : list Z :=
  match t with
  | Leaf u => match S !! u with Some _ => [] | None => [u] end
  | Node p l r =>
      match S !! p with
      | Some _ => []
      | None => p :: uncached S r ++ uncached S l
      end
  end.

(** Every cached string is the one that [_update_subtrees] would put
    together now from the strings of the children. *)
Definition strings_ok {F} (self : NewickGenerator F) : Prop :=
  forall v s, ng_subtree self !! v = Some s -> subtree_string self v = Ok s.

(** The number of records whose [left] is not the [left] before them, from
    the value [left] before the first record. *)
Fixpoint left_changes {F} (left : Z) (recs : list (record F)) : nat :=
  match recs with
  | [] => 0
  | rec :: recs =>
      (if decide (r_left rec = left) then 0 else 1)
      + left_changes (r_left rec) recs
  end.

(** * Properties *)

(** ** Results, generators *)

Lemma gen_bind_yields {Y A B} (g : gen Y A) (k : A -> gen Y B) a :
  g.2 = Ok a -> (g ≫= k) = (g.1 ++ (k a).1, (k a).2).
Proof. intros Hg. unfold mbind, gen_bind. by rewrite Hg. Qed.

Lemma gen_bind_raise {Y A B} (g : gen Y A) (k : A -> gen Y B) e :
  g.2 = Raise e -> (g ≫= k) = (g.1, Raise e).
Proof. intros Hg. unfold mbind, gen_bind. by rewrite Hg. Qed.

Lemma gen_bind_lift {Y A B} (r : result A) (k : A -> gen Y B) :
  (lift r ≫= k) = match r with Ok a => k a | Raise e => ([], Raise e) end.
Proof. destruct r as [a|e]; [|done]. unfold mbind, gen_bind. simpl. by destruct (k a). Qed.

Lemma gen_bind_yield {Y B} (y : Y) (k : () -> gen Y B) :
  (yield y ≫= k) = (y :: (k ()).1, (k ()).2).
Proof. done. Qed.

Lemma gen_bind_ret {Y A B} (a : A) (k : A -> gen Y B) : (mret a ≫= k) = k a.
Proof. unfold mbind, gen_bind, mret, gen_ret. simpl. by destruct (k a). Qed.

Lemma delitem_Some {V} (d : gmap Z V) k v :
  d !! k = Some v -> delitem d k = Ok (delete k d).
Proof. intros Hk. unfold delitem. by rewrite Hk. Qed.

Lemma delitem_Ok {V} (d d' : gmap Z V) k :
  delitem d k = Ok d' -> is_Some (d !! k) /\ d' = delete k d.
Proof.
  unfold delitem. destruct (d !! k) eqn:Hk; [|done].
  intros [= <-]. eauto.
Qed.

Lemma delitem_cases {V} (d : gmap Z V) k :
  delitem d k = Ok (delete k d) \/ delitem d k = Raise KeyError.
Proof. unfold delitem. destruct (d !! k); auto. Qed.

Lemma filter_all {A} (P : A -> Prop) `{!forall x, Decision (P x)} (l : list A) :
  Forall P l -> filter P l = l.
Proof.
  induction 1 as [|x l Hx Hl IH]; [done|].
  rewrite filter_cons_True by done. by rewrite IH.
Qed.

(** ** The heap *)

Lemma seg_leb_key a b : seg_leb a b = true -> a.1 <= b.1.
Proof.
  unfold seg_leb, seg_key. simpl. intros H.
  apply orb_true_iff in H as [H|H]; [lia|].
  apply andb_true_iff in H as [H _]. lia.
Qed.

Lemma seg_leb_false_key a b : seg_leb a b = false -> b.1 <= a.1.
Proof.
  unfold seg_leb, seg_key. simpl. intros H.
  apply orb_false_iff in H as [H _]. lia.
Qed.

Lemma heap_top_None heap : heap_top heap = None <-> heap = [].
Proof.
  split; [|by intros ->].
  destruct heap as [|s heap]; [done|]. simpl.
  destruct (heap_top heap) as [m|]; [destruct (seg_leb s m)|]; done.
Qed.

(** [heap[0]] is an entry of the heap, and none has a smaller [right]. *)
Lemma heap_top_least heap m :
  heap_top heap = Some m -> m ∈ heap /\ Forall (fun s => m.1 <= s.1) heap.
Proof.
  revert m. induction heap as [|s heap IH]; intros m; [done|]. simpl.
  destruct (heap_top heap) as [m'|] eqn:Htop.
  - destruct (IH m' eq_refl) as [Hin Hle].
    destruct (seg_leb s m') eqn:Hs; intros [= <-].
    + split; [left|]. constructor; [lia|].
      apply seg_leb_key in Hs. eapply Forall_impl; [exact Hle|].
      simpl. intros; lia.
    + split; [by right|]. constructor; [|done].
      by apply seg_leb_false_key.
  - intros [= <-]. apply heap_top_None in Htop as ->.
    split; [left|]. constructor; [lia|constructor].
Qed.

Lemma remove_one_length (s : segment) heap :
  s ∈ heap -> S (length (remove_one s heap)) = length heap.
Proof.
  induction heap as [|s' heap IH]; [by intros ?%elem_of_nil|].
  intros Hin. simpl. destruct (decide (s = s')) as [->|Hne]; [done|].
  simpl. f_equal. apply IH. by apply elem_of_cons in Hin as [?|?].
Qed.

(** Popping an entry that has expired leaves the entries that have not. *)
Lemma remove_one_filter (l : Z) (s : segment) heap :
  s.1 <= l ->
  filter (fun x : segment => l < x.1) (remove_one s heap)
  = filter (fun x : segment => l < x.1) heap.
Proof.
  intros Hs. induction heap as [|s' heap IH]; [done|]. simpl.
  destruct (decide (s = s')) as [<-|Hne].
  - rewrite filter_cons_False; [done|lia].
  - rewrite !filter_cons. by rewrite IH.
Qed.

Lemma remove_one_other (s x : segment) heap :
  x ≠ s -> x ∈ heap -> x ∈ remove_one s heap.
Proof.
  intros Hne. induction heap as [|s' heap IH]; [done|]. simpl.
  intros [Heq|Hin]%elem_of_cons.
  - subst s'. destruct (decide (s = x)); [congruence|left].
  - destruct (decide (s = s')); [done|]. right. auto.
Qed.

(** ** The eviction loop of [sparse_trees] *)

Section Sweep.
Context {F : Type}.
Implicit Types (pi : gmap Z Z) (tau : gmap Z F) (live : list segment).

(** With an entry that expires later than [l] in the heap, the loop is never
    at an empty heap and ends within [length live] iterations: it returns, or
    a [del] raised [KeyError].  When it returns, the heap holds the entries
    that expire later than [l], and only them. *)
Lemma sweep_outcome (fuel : nat) (l : Z) live pi tau :
  (length live <= fuel)%nat ->
  Exists (fun s => l < s.1) live ->
  sweep fuel l live pi tau = Raise KeyError \/
  exists pi' tau',
    sweep fuel l live pi tau
    = Ok (filter (fun s : segment => l < s.1) live, pi', tau').
Proof.
  revert live pi tau. induction fuel as [|fuel IH]; intros live pi tau Hlen Hex.
  { destruct live; [by apply Exists_nil in Hex|simpl in Hlen; lia]. }
  simpl. destruct (heap_top live) as [top|] eqn:Htop.
  2: { apply heap_top_None in Htop as ->. by apply Exists_nil in Hex. }
  destruct (heap_top_least _ _ Htop) as [Hin Hleast].
  destruct (Z.leb_spec top.1 l) as [Hexp|Hlive].
  - unfold heappop. rewrite Htop. simpl.
    destruct top as [x [[c0 c1] p]]. simpl in *.
    destruct (delitem_cases pi c0) as [-> | ->]; [|by left]. simpl.
    destruct (delitem_cases (delete c0 pi) c1) as [-> | ->]; [|by left]. simpl.
    destruct (delitem_cases tau p) as [-> | ->]; [|by left]. simpl.
    rewrite <- (remove_one_filter l (x, (c0, c1, p)) live) by done.
    apply IH.
    + pose proof (remove_one_length _ _ Hin). lia.
    + apply Exists_exists in Hex as (s & Hs & Hls).
      apply Exists_exists. exists s. split; [|done].
      apply remove_one_other; [|done]. intros ->. simpl in Hls. lia.
  - right. exists pi, tau. f_equal. f_equal. f_equal.
    symmetry. apply filter_all. eapply Forall_impl; [exact Hleast|].
    simpl. intros; lia.
Qed.

End Sweep.

(** ** sparse_trees *)

Section SparseTrees.
Context {F : Type} `{!Float F}.
Implicit Types (pi : gmap Z Z) (tau : gmap Z F) (live : list segment).

(** One iteration of the [for] loop. *)
Lemma sparse_trees_loop_cons num_loci (rec : record F) recs last_l live pi tau :
  sparse_trees_loop num_loci (rec :: recs) last_l live pi tau =
  let head :=
    if decide (last_l = r_left rec) then []
    else [(uint32 (r_left rec - last_l), pi, tau)] in
  match apply_record rec live pi tau with
  | Ok (live', pi', tau') =>
      let rest := sparse_trees_loop num_loci recs (r_left rec) live' pi' tau' in
      (head ++ rest.1, rest.2)
  | Raise e => (head, Raise e)
  end.
Proof.
  simpl. unfold mbind, gen_bind, lift, yield, mret, gen_ret.
  destruct (decide (last_l = r_left rec)) as [Heq|Hne]; simpl;
    destruct (apply_record rec live pi tau) as [[[live' pi'] tau']|e];
    simpl; by rewrite ?app_nil_r.
Qed.

Lemma apply_record_sweep (rec : record F) live pi tau :
  apply_record rec live pi tau =
  match sweep (S (length live)) (r_left rec) (segment_of rec :: live) pi tau with
  | Ok (live', pi', tau') =>
      Ok (live',
          <[(r_children rec).2 := r_parent rec]>
            (<[(r_children rec).1 := r_parent rec]> pi'),
          <[r_parent rec := r_time rec]> tau')
  | Raise e => Raise e
  end.
Proof.
  unfold apply_record, heappush, segment_of. simpl length.
  by destruct (sweep _ _ _ _ _) as [[[live' pi'] tau']|e].
Qed.

(** The body of the loop for a record with [left < right]: it returns, or a
    [del] raised [KeyError]; the heap it returns holds the pushed entry and
    the entries of the heap that expire later than [left]. *)
Lemma apply_record_outcome (rec : record F) live pi tau :
  r_left rec < r_right rec ->
  apply_record rec live pi tau = Raise KeyError \/
  exists pi' tau',
    apply_record rec live pi tau
    = Ok (segment_of rec :: filter (fun s : segment => r_left rec < s.1) live,
          pi', tau').
Proof.
  intros Hlr. rewrite apply_record_sweep.
  destruct (sweep_outcome (S (length live)) (r_left rec)
              (segment_of rec :: live) pi tau) as [-> | (pi' & tau' & ->)].
  - simpl. lia.
  - by apply Exists_cons_hd.
  - by left.
  - right. rewrite filter_cons_True by done. eauto.
Qed.

Lemma sparse_trees_loop_outcome num_loci (recs : list (record F)) last_l live
    pi tau :
  Forall (fun r => r_left r < r_right r) recs ->
  (sparse_trees_loop num_loci recs last_l live pi tau).2 = Ok () \/
  (sparse_trees_loop num_loci recs last_l live pi tau).2 = Raise KeyError.
Proof.
  intros Hrecs. revert last_l live pi tau.
  induction Hrecs as [|rec recs Hrec _ IH]; intros last_l live pi tau.
  { by left. }
  rewrite sparse_trees_loop_cons.
  destruct (apply_record_outcome rec live pi tau Hrec)
    as [-> | (pi' & tau' & ->)]; [by right|apply IH].
Qed.

(** C10.  When every record has [left < right], the loop
    [while live_segments[0][0] <= l] of [sparse_trees] is never at an empty
    heap ([IndexError] is not raised) and ends (the bound of the model is
    not reached); the only exception it can raise is the [KeyError] of a
    [del].  When it ends normally the heap still holds the entry pushed for
    the current record, and no entry with [right <= l] is left in it. *)
Theorem sweep_keeps_heap_nonempty (ts : TreeSequence F) :
  Forall (fun r => r_left r < r_right r) (records ts) ->
  ((sparse_trees ts).2 = Ok () \/ (sparse_trees ts).2 = Raise KeyError) /\
  forall rec live pi tau,
    rec ∈ records ts ->
    let l := r_left rec in
    let pushed := heappush live (r_right rec, (r_children rec, r_parent rec)) in
    match sweep (length pushed) l pushed pi tau with
    | Ok (live', _, _) =>
        (r_right rec, (r_children rec, r_parent rec)) ∈ live' /\
        Forall (fun s => l < s.1) live' /\
        heap_top live' ≠ None
    | Raise e => e = KeyError
    end.
Proof.
  intros Hrecs. split.
  { apply sparse_trees_loop_outcome, Hrecs. }
  intros rec live pi tau Hin l pushed.
  assert (Hlr : r_left rec < r_right rec).
  { rewrite Forall_forall in Hrecs. by apply Hrecs. }
  destruct (sweep_outcome (length pushed) l pushed pi tau)
    as [-> | (pi' & tau' & ->)]; [done| |done|].
  { by apply Exists_cons_hd. }
  subst pushed. unfold heappush. rewrite filter_cons_True by done.
  split; [left|]. split.
  - constructor; [done|]. apply Forall_forall.
    by intros s [Hs _]%list_elem_of_filter.
  - by intros ?%heap_top_None.
Qed.

End SparseTrees.

(** The records of [two_trees] have [left < right]. *)
Lemma sweep_keeps_heap_nonempty_witness :
  (@sparse_trees Z ZFloat two_trees).2 = Ok () \/
  (@sparse_trees Z ZFloat two_trees).2 = Raise KeyError.
Proof.
  refine (proj1 (@sweep_keeps_heap_nonempty Z ZFloat two_trees _)).
  repeat constructor.
Defined.

(** ** _diffs *)

Section Diffs.
Context {F : Type} `{!Float F}.
Implicit Types (used : gmap Z (list (edge F))) (rin : list (edge F)).

(** One iteration of the [for] loop. *)
Lemma diffs_loop_cons (rec : record F) recs left used rin r :
  diffs_loop (rec :: recs) left used rin r =
  if decide (r_left rec = left) then
    diffs_loop recs (r_left rec) (record_used used rec) (rin ++ [edge_of rec])
      (Some (r_right rec))
  else
    let rest :=
      diffs_loop recs (r_left rec) (record_used (delete left used) rec)
        [edge_of rec] (Some (r_right rec)) in
    ((uint32 (r_left rec - left), used_at used left, rin) :: rest.1, rest.2).
Proof.
  simpl. unfold mbind, gen_bind, lift, yield, mret, gen_ret.
  destruct (decide (r_left rec = left)) as [Heq|Hne]; simpl; [|done].
  by destruct (diffs_loop _ _ _ _ _) as [ys res].
Qed.

(** Once a record has been read, [_diffs] ends without an exception, and the
    last tuple it yields has the length [r - left] of the last record read. *)
Lemma diffs_loop_outcome (recs : list (record F)) left used rin r :
  let g := diffs_loop recs left used rin (Some r) in
  g.2 = Ok () /\
  exists out rin',
    last g.1
    = Some (uint32 (default r (r_right <$> last recs)
                    - default left (r_left <$> last recs)), out, rin').
Proof.
  revert left used rin r. induction recs as [|rec recs IH];
    intros left used rin r.
  { simpl. split; [done|]. eauto. }
  rewrite diffs_loop_cons.
  assert (Hlast : forall (f : record F -> Z) d,
    default d (f <$> last (rec :: recs))
    = default (f rec) (f <$> last recs)).
  { intros f d. destruct recs as [|rec' recs']; [reflexivity|].
    rewrite last_cons_cons.
    by destruct (proj2 (last_is_Some (rec' :: recs'))) as [x ->]. }
  rewrite !Hlast.
  destruct (decide (r_left rec = left)) as [Heq|Hne].
  - apply IH.
  - cbv zeta. simpl fst. simpl snd.
    destruct (IH (r_left rec) (record_used (delete left used) rec)
                [edge_of rec] (r_right rec)) as [Hok (out & rin' & Hl)].
    split; [done|]. exists out, rin'.
    destruct (diffs_loop recs _ _ _ _).1 as [|y ys] eqn:Hys; [done|].
    by rewrite last_cons_cons.
Qed.

(** The number of tuples that the loop yields, the last [yield] with
    them. *)
Lemma diffs_loop_length (recs : list (record F)) left used rin r :
  length (diffs_loop recs left used rin (Some r)).1
  = S (left_changes left recs).
Proof.
  revert left used rin r. induction recs as [|rec recs IH];
    intros left used rin r; [done|].
  rewrite diffs_loop_cons. cbn [left_changes].
  destruct (decide (r_left rec = left)) as [Heq|Hne].
  - by rewrite IH.
  - cbn [fst length]. by rewrite IH.
Qed.

(** C8, as the code has it.  [_diffs] checks nothing: for every record
    sequence that is not empty, whatever its [right] values, it ends without
    an exception; it yields one tuple at every record whose [left] is not
    the [left] before it ([0] before the first record) and one tuple at the
    end, and this last tuple has the length [right - left] of the last
    record.  It fails on the empty sequence only, where it yields nothing
    and the loop variable [r] is unbound at the last [yield]. *)
Theorem diffs_checks_nothing (ts : TreeSequence F) :
  (records ts = [] -> _diffs ts = ([], Raise UnboundLocalError)) /\
  (forall rl, last (records ts) = Some rl ->
     (_diffs ts).2 = Ok () /\
     length (_diffs ts).1 = S (left_changes 0 (records ts)) /\
     exists out rin,
       last (_diffs ts).1 = Some (uint32 (r_right rl - r_left rl), out, rin)).
Proof.
  unfold _diffs. split.
  { by intros ->. }
  intros rl Hlast. destruct (records ts) as [|rec recs]; [done|].
  rewrite diffs_loop_cons.
  assert (Hl : forall (f : record F -> Z),
    f rl = default (f rec) (f <$> last recs)).
  { intros f. destruct recs as [|rec' recs].
    - simpl in Hlast. by injection Hlast as <-.
    - rewrite last_cons_cons in Hlast. by rewrite Hlast. }
  rewrite !Hl. cbn [left_changes].
  destruct (decide (r_left rec = 0)) as [Heq|Hne].
  - split; [apply diffs_loop_outcome|].
    split; [by rewrite diffs_loop_length|apply diffs_loop_outcome].
  - cbv zeta. simpl fst. simpl snd.
    destruct (diffs_loop_outcome recs (r_left rec)
                (record_used (delete 0 ∅) rec) [edge_of rec] (r_right rec))
      as [Hok (out & rin' & Hlst)].
    split; [done|]. split.
    { cbn [length]. by rewrite diffs_loop_length. }
    exists out, rin'.
    destruct (diffs_loop recs _ _ _ _).1 as [|y ys] eqn:Hys; [done|].
    by rewrite last_cons_cons.
Qed.

End Diffs.

Lemma diffs_checks_nothing_witness :
  (@_diffs Z two_trees).2 = Ok () /\
  length (@_diffs Z two_trees).1 = 2%nat /\
  exists out rin, last (@_diffs Z two_trees).1 = Some (uint32 (5 - 3), out, rin).
Proof.
  refine (proj2 (@diffs_checks_nothing Z two_trees) (Rec 3 5 (4, 3) 6 4) _).
  reflexivity.
Defined.

(** C8, as stated, fails on [malformed]: the last record ends at locus 7 of
    5, and [_diffs] yields one tuple of length 7 and ends normally. *)
Lemma diffs_accepts_malformed :
  ~ diffs_fails_on_malformed malformed /\
  @_diffs Z malformed = ([(7, [], [((1, 2), 4, 1); ((4, 3), 5, 2)])], Ok ()).
Proof.
  split; [|reflexivity].
  intros Hfail. destruct Hfail as [e He]; [|discriminate He].
  left. exists (Rec 0 7 (4, 3) 5 2). split; [reflexivity|]. simpl. lia.
Qed.

(** ** The order of the records *)

Section RecordOrder.
Context {F : Type} `{!Float F}.
Variable argsort : list Z -> list nat.

Lemma zip5_lookup (ls rs : list Z) cs ps (ts : list F) (i : nat) :
  zip5 ls rs cs ps ts !! i =
  l ← ls !! i; r ← rs !! i; c ← cs !! i; p ← ps !! i; t ← ts !! i;
  Some (Rec l r c p t).
Proof.
  revert rs cs ps ts i. induction ls as [|l ls IH]; intros rs cs ps ts i.
  { done. }
  destruct rs as [|r rs], cs as [|c cs], ps as [|p ps], ts as [|t ts];
    try (destruct i; simpl; repeat (destruct (_ !! _); simpl); done).
  destruct i as [|i]; [done|]. simpl. apply IH.
Qed.

Lemma zip5_left (ls rs : list Z) cs ps (ts : list F) :
  length rs = length ls -> length cs = length ls ->
  length ps = length ls -> length ts = length ls ->
  r_left <$> zip5 ls rs cs ps ts = ls.
Proof.
  revert rs cs ps ts. induction ls as [|l ls IH];
    intros [|r rs] [|c cs] [|p ps] [|t ts]; simpl; try done.
  intros. f_equal. apply IH; congruence.
Qed.

(** Indexing the five arrays by [p] is indexing the records by [p]. *)
Lemma zip5_take_indices (ls rs : list Z) cs ps (ts : list F) (p : list nat) :
  length rs = length ls -> length cs = length ls ->
  length ps = length ls -> length ts = length ls ->
  Forall (fun i => (i < length ls)%nat) p ->
  zip5 (take_indices ls p) (take_indices rs p) (take_indices cs p)
    (take_indices ps p) (take_indices ts p)
  = take_indices (zip5 ls rs cs ps ts) p.
Proof.
  intros Hr Hc Hp Ht. unfold take_indices.
  induction 1 as [|i p Hi _ IH]; [done|]. simpl.
  rewrite zip5_lookup.
  destruct (lookup_lt_is_Some_2 ls i Hi) as [l ->].
  destruct (lookup_lt_is_Some_2 rs i ltac:(lia)) as [r ->].
  destruct (lookup_lt_is_Some_2 cs i ltac:(lia)) as [c ->].
  destruct (lookup_lt_is_Some_2 ps i ltac:(lia)) as [q ->].
  destruct (lookup_lt_is_Some_2 ts i ltac:(lia)) as [t ->].
  simpl. f_equal. exact IH.
Qed.

Lemma take_indices_fmap {A B} (f : A -> B) (a : list A) (p : list nat) :
  f <$> take_indices a p = take_indices (f <$> a) p.
Proof.
  unfold take_indices. induction p as [|i p IH]; [done|].
  simpl. rewrite list_lookup_fmap.
  destruct (a !! i); simpl; [f_equal|]; exact IH.
Qed.

Lemma take_indices_cons {A} (x : A) (a : list A) (s : list nat) :
  take_indices (x :: a) (S <$> s) = take_indices a s.
Proof.
  unfold take_indices. induction s as [|i s IH]; [done|].
  simpl. destruct (a !! i); [f_equal|]; exact IH.
Qed.

Lemma take_indices_seq {A} (a : list A) :
  take_indices a (seq 0 (length a)) = a.
Proof.
  induction a as [|x a IH]; [done|].
  simpl length. simpl seq. rewrite <- fmap_S_seq.
  change (take_indices (x :: a) (0%nat :: (S <$> seq 0 (length a))))
    with (x :: take_indices (x :: a) (S <$> seq 0 (length a))).
  by rewrite take_indices_cons, IH.
Qed.

Lemma take_indices_perm {A} (a : list A) (p : list nat) :
  p ≡ₚ seq 0 (length a) -> take_indices a p ≡ₚ a.
Proof.
  intros Hp. rewrite <- (take_indices_seq a) at 2.
  unfold take_indices. by rewrite Hp.
Qed.

(** C9, as the code has it.  Without [sort_records], which is the default
    and what [load] does, the constructor keeps the arrays in the order it is
    given them: [records()] of a tree sequence that was dumped and loaded are
    the records that were dumped, in their order.  With [sort_records], and
    an [argsort] that returns a permutation of the indices that sorts [left],
    [records()] are the given records, rearranged in the order of their
    [left]. *)
Theorem records_order breakpoints (left right : list Z) children parent
    (time : list F) sample_size num_loci :
  records (TreeSequence_init argsort breakpoints left right children parent
             time sample_size num_loci false)
  = zip5 left right children parent time /\
  (forall ts : TreeSequence F, records (load argsort (dump ts)) = records ts) /\
  (length right = length left -> length children = length left ->
   length parent = length left -> length time = length left ->
   argsort left ≡ₚ seq 0 (length left) ->
   Sorted Z.le (take_indices left (argsort left)) ->
   let ts := TreeSequence_init argsort breakpoints left right children parent
               time sample_size num_loci true in
   records_ascending ts /\
   records ts ≡ₚ zip5 left right children parent time).
Proof.
  split; [done|]. split; [by intros []|].
  intros Hr Hc Hp Ht Hperm Hsorted ts.
  assert (Hin : Forall (fun i => (i < length left)%nat) (argsort left)).
  { apply Forall_forall. intros i Hi. rewrite Hperm in Hi.
    apply elem_of_seq in Hi. lia. }
  assert (Hrecs : records ts
    = take_indices (zip5 left right children parent time) (argsort left)).
  { unfold ts, TreeSequence_init, records. simpl.
    by apply zip5_take_indices. }
  split.
  - unfold records_ascending. rewrite Hrecs, take_indices_fmap.
    by rewrite zip5_left.
  - rewrite Hrecs. apply take_indices_perm.
    replace (length (zip5 left right children parent time))
      with (length left); [done|].
    rewrite <- (zip5_left left right children parent time) at 1 by done.
    by rewrite length_fmap.
Qed.

End RecordOrder.

Lemma records_order_witness :
  let ts := @TreeSequence_init Z insertion_argsort [0; 2; 3; 5] [3; 0; 0]
              [5; 5; 3] [(4, 3); (1, 2); (4, 3)] [6; 4; 5] [4; 1; 3] 3 5 true in
  records_ascending ts /\
  records ts ≡ₚ zip5 [3; 0; 0] [5; 5; 3] [(4, 3); (1, 2); (4, 3)] [6; 4; 5]
                  [4; 1; 3].
Proof.
  refine (proj2 (proj2 (@records_order Z insertion_argsort [0; 2; 3; 5]
            [3; 0; 0] [5; 5; 3] [(4, 3); (1, 2); (4, 3)] [6; 4; 5] [4; 1; 3]
            3 5)) _ _ _ _ _ _); try reflexivity.
  - symmetry. exact (Permutation_cons_app [1; 2]%nat [] 0%nat
                       (Permutation_refl [1; 2]%nat)).
  - change (Sorted Z.le [0; 0; 3]). repeat constructor; lia.
Defined.

(** C9, as stated, fails on [unsorted_file]: [load] keeps the order of the
    file, and so does the constructor without [sort_records]. *)
Lemma load_keeps_file_order :
  ~ records_ascending (load insertion_argsort unsorted_file) /\
  ~ records_ascending
      (@TreeSequence_init Z insertion_argsort [0; 2; 3; 5] [3; 0; 0]
         [5; 5; 3] [(4, 3); (1, 2); (4, 3)] [6; 4; 5] [4; 1; 3] 3 5 false).
Proof.
  split; intros Hs; change (Sorted Z.le [3; 0; 0]) in Hs;
    apply Sorted_inv in Hs as [_ Hhd]; apply HdRel_inv in Hhd; lia.
Qed.

(** ** sparse_trees and the dictionaries it yields *)

Section Aliasing.
Context {F : Type} `{!Float F}.

Lemma apply_record_in_Ok (fr : sparse_frame F) rec σ live pi tau :
  apply_record rec (fr_live fr) (int_dict_at σ (fr_pi fr))
    (float_dict_at σ (fr_tau fr)) = Ok (live, pi, tau) ->
  exists σ',
    apply_record_in fr rec σ = Ok (live, σ') /\
    int_dict_at σ' (fr_pi fr) = pi /\ float_dict_at σ' (fr_tau fr) = tau /\
    frame_ok fr σ'.
Proof.
  intros Happ. unfold apply_record_in. rewrite Happ. simpl.
  eexists. split; [done|]. unfold int_dict_at, float_dict_at, frame_ok. simpl.
  rewrite !lookup_insert_eq. eauto.
Qed.

Lemma apply_record_in_Raise (fr : sparse_frame F) rec σ e :
  apply_record rec (fr_live fr) (int_dict_at σ (fr_pi fr))
    (float_dict_at σ (fr_tau fr)) = Raise e ->
  apply_record_in fr rec σ = Raise e.
Proof. intros Happ. unfold apply_record_in. by rewrite Happ. Qed.

(** Resuming the loop runs it up to its next [yield]: the value yielded
    holds the two references of the frame, and the dictionaries they lead to
    are those of the first item of the trace. *)
Lemma run_to_yield_spec (recs : list (record F)) fr last_l live σ :
  let g := sparse_trees_loop (fr_num_loci fr) recs last_l live
             (int_dict_at σ (fr_pi fr)) (float_dict_at σ (fr_tau fr)) in
  let '(r, fr', σ') := run_to_yield fr recs last_l live σ in
  fr_pi fr' = fr_pi fr /\ fr_tau fr' = fr_tau fr /\
  fr_num_loci fr' = fr_num_loci fr /\
  (forall ts, fr_pc fr' ≠ AtStart ts) /\
  match g.1 with
  | [] => exists e, r = Raise e
  | y :: ys =>
      r = Ok (y.1.1, fr_pi fr, fr_tau fr) /\
      int_dict_at σ' (fr_pi fr) = y.1.2 /\
      float_dict_at σ' (fr_tau fr) = y.2 /\
      (remaining fr' σ').1 = ys
  end.
Proof.
  revert last_l live σ. induction recs as [|rec recs IH]; intros last_l live σ.
  { simpl. done. }
  cbv zeta. rewrite sparse_trees_loop_cons. simpl run_to_yield.
  destruct (decide (last_l = r_left rec)) as [Heq|Hne].
  - destruct (apply_record rec live _ _) as [[[live' pi'] tau']|e] eqn:Happ.
    + destruct (apply_record_in_Ok (with_live fr Finished live) rec σ
                  live' pi' tau' Happ) as (σ' & -> & Hpi & Htau & _).
      simpl in Hpi, Htau. specialize (IH (r_left rec) live' σ').
      cbv zeta in IH. rewrite Hpi, Htau in IH. exact IH.
    + rewrite (apply_record_in_Raise (with_live fr Finished live) rec σ e Happ).
      simpl. eauto 10.
  - simpl. repeat split; try done.
    unfold remaining. simpl.
    by destruct (apply_record rec live _ _) as [[[live' pi'] tau']|e].
Qed.

(** The same for [next], on a frame that has been started. *)
Lemma sparse_next_spec (fr : sparse_frame F) σ :
  (forall ts, fr_pc fr ≠ AtStart ts) ->
  let '(r, fr', σ') := sparse_next fr σ in
  fr_pi fr' = fr_pi fr /\ fr_tau fr' = fr_tau fr /\
  fr_num_loci fr' = fr_num_loci fr /\
  (forall ts, fr_pc fr' ≠ AtStart ts) /\
  match (remaining fr σ).1 with
  | [] => exists e, r = Raise e
  | y :: ys =>
      r = Ok (y.1.1, fr_pi fr, fr_tau fr) /\
      int_dict_at σ' (fr_pi fr) = y.1.2 /\
      float_dict_at σ' (fr_tau fr) = y.2 /\
      (remaining fr' σ').1 = ys
  end.
Proof.
  intros Hstarted. unfold sparse_next, remaining.
  destruct fr as [pc m a b live]. simpl in *.
  destruct pc as [ts|rec recs| |]; [by destruct (Hstarted ts)| | |].
  - destruct (apply_record rec live _ _) as [[[live' pi'] tau']|e] eqn:Happ.
    + destruct (apply_record_in_Ok (Frame (AtLoopYield rec recs) m a b live)
                  rec σ live' pi' tau' Happ) as (σ' & -> & Hpi & Htau & _).
      simpl in Hpi, Htau.
      pose proof (run_to_yield_spec recs
        (Frame (AtLoopYield rec recs) m a b live) (r_left rec) live' σ') as Hrun.
      cbv zeta in Hrun. simpl in Hrun. rewrite Hpi, Htau in Hrun.
      destruct (run_to_yield _ recs (r_left rec) live' σ') as [[r fr'] σ''].
      unfold mbind, gen_bind, lift. simpl. exact Hrun.
    + rewrite (apply_record_in_Raise (Frame (AtLoopYield rec recs) m a b live)
                 rec σ e Happ). simpl. eauto 10.
  - simpl. eauto 10.
  - simpl. eauto 10.
Qed.

Lemma observe_started (k : nat) (fr : sparse_frame F) σ :
  (forall ts, fr_pc fr ≠ AtStart ts) ->
  let obs := (observe k fr σ).1.1 in
  seen <$> obs = take k (remaining fr σ).1 /\
  Forall (fun o : observation F =>
            o.1.1.1.2 = fr_pi fr /\ o.1.1.2 = fr_tau fr) obs.
Proof.
  revert fr σ. induction k as [|k IH]; intros fr σ Hstarted; [done|].
  cbv zeta. simpl observe.
  pose proof (sparse_next_spec fr σ Hstarted) as Hnext.
  destruct (sparse_next fr σ) as [[r fr1] σ1].
  destruct Hnext as (Hpi & Htau & _ & Hstarted1 & Hnext).
  destruct (remaining fr σ).1 as [|y ys].
  { destruct Hnext as [e ->]. done. }
  destruct Hnext as (-> & Hpi1 & Htau1 & Hrest).
  specialize (IH fr1 σ1 Hstarted1). cbv zeta in IH.
  destruct (observe k fr1 σ1) as [[rest fr2] σ2].
  destruct IH as [IHseen IHrefs]. simpl. split.
  - f_equal.
    + unfold seen. simpl. rewrite Hpi1, Htau1.
      by destruct y as [[len pi] tau].
    + rewrite <- Hrest. exact IHseen.
  - constructor; [done|]. rewrite <- Hpi, <- Htau. exact IHrefs.
Qed.

(** C4, as the code has it.  [sparse_trees] yields its own two dictionaries:
    every [yield] hands out the same two references, made when the generator
    starts, and what a consumer reads through them at the moment of a [yield]
    is the tree of the interval of that [yield].  (So what it reads through
    the references of an earlier [yield] is always the tree of the latest
    one.) *)
Theorem sparse_trees_yields_its_dictionaries (ts : TreeSequence F) σ (k : nat) :
  let obs := (observe k (sparse_trees_call ts) σ).1.1 in
  seen <$> obs = take k (sparse_trees ts).1 /\
  Forall (fun o : observation F =>
            o.1.1.1.2 = fresh (dom (int_dicts σ)) /\
            o.1.1.2 = fresh (dom (float_dicts σ))) obs.
Proof.
  destruct k as [|k]; [done|]. cbv zeta. simpl observe.
  unfold sparse_next, new_int_dict, new_float_dict. simpl.
  set (a := fresh (dom (int_dicts σ))).
  set (b := fresh (dom (float_dicts σ))).
  set (σ0 := Store (<[a := ∅]> (int_dicts σ))
               (<[b := samples_dict (_sample_size ts) fzero]> (float_dicts σ))).
  set (fr := Frame Finished (get_num_loci ts) a b []).
  pose proof (run_to_yield_spec (records ts) fr 0 [] σ0) as Hrun.
  cbv zeta in Hrun.
  replace (int_dict_at σ0 (fr_pi fr)) with (∅ : gmap Z Z) in Hrun
    by (unfold int_dict_at, σ0; simpl; by rewrite lookup_insert_eq).
  replace (float_dict_at σ0 (fr_tau fr))
    with (samples_dict (_sample_size ts) fzero : gmap Z F) in Hrun
    by (unfold float_dict_at, σ0; simpl; by rewrite lookup_insert_eq).
  change (sparse_trees_loop (fr_num_loci fr) (records ts) 0 [] ∅
            (samples_dict (_sample_size ts) fzero))
    with (sparse_trees ts) in Hrun.
  destruct (run_to_yield fr (records ts) 0 [] σ0) as [[r fr1] σ1].
  destruct Hrun as (Hpi & Htau & _ & Hstarted1 & Hrun).
  destruct (sparse_trees ts).1 as [|y ys].
  { destruct Hrun as [e ->]. done. }
  destruct Hrun as (-> & Hpi1 & Htau1 & Hrest).
  pose proof (observe_started k fr1 σ1 Hstarted1) as Hobs. cbv zeta in Hobs.
  destruct (observe k fr1 σ1) as [[rest fr2] σ2].
  destruct Hobs as [Hseen Hrefs]. simpl. split.
  - f_equal.
    + unfold seen. simpl. simpl in Hpi1, Htau1. rewrite Hpi1, Htau1.
      by destruct y as [[len pi] tau].
    + rewrite <- Hrest. exact Hseen.
  - constructor; [done|]. simpl in Hpi, Htau. rewrite <- Hpi, <- Htau.
    exact Hrefs.
Qed.

End Aliasing.

(** C4, as stated, fails on [two_trees]: after the second [next], the
    dictionary reached through the references of the first [yield] holds the
    second tree, where node 4 is below node 6 and no longer below node 5; and
    a consumer that empties the dictionary it was given makes the next
    [next] fail. *)
Lemma sparse_trees_snapshots_alias :
  ~ @snapshots_independent Z ZFloat two_trees /\
  (forall y1 fr1 σ1,
     @sparse_next Z ZFloat (sparse_trees_call two_trees) (Store ∅ ∅)
       = (Ok y1, fr1, σ1) ->
     (sparse_next fr1 (Store (<[y1.1.2 := ∅]> (int_dicts σ1)) (float_dicts σ1))).1.1
       = Raise KeyError).
Proof.
  split.
  - intros Hind.
    destruct (@sparse_next Z ZFloat (sparse_trees_call two_trees) (Store ∅ ∅))
      as [[r1 fr1] σ1] eqn:H1.
    destruct r1 as [y1|e1]; [|vm_compute in H1; discriminate H1].
    destruct (sparse_next fr1 σ1) as [[r2 fr2] σ2] eqn:H2.
    destruct r2 as [y2|e2].
    2: { vm_compute in H1. injection H1 as <- <- <-.
         vm_compute in H2. discriminate H2. }
    destruct (Hind _ _ _ _ _ _ _ H1 H2) as [Hpi _].
    vm_compute in H1. injection H1 as <- <- <-.
    vm_compute in H2. injection H2 as <- <- <-.
    apply (f_equal (fun m : gmap Z Z => m !! 4)) in Hpi.
    vm_compute in Hpi. discriminate Hpi.
  - intros y1 fr1 σ1 H1. vm_compute in H1. injection H1 as <- <- <-.
    vm_compute. reflexivity.
Qed.

(** ** The seed of the HaplotypeGenerator *)

(** C7: the code at the failing input.  Without [random_seed] the
    constructor records the seed that [random.randint] drew, but still gives
    [random_seed], that is [None], to [RandomState]: the generator is seeded
    from the operating system, not with the recorded seed.  On [two_trees],
    an instance made without a seed records 42, and the instance made with
    the seed 42 has other haplotypes. *)
Theorem recorded_seed_is_not_the_seed_used :
  (forall ts rate randint entropy,
     let self := @HaplotypeGenerator_fields Z Z ZFloat ZRng ts rate None
                   randint entropy in
     hg_random_seed self = randint /\
     hg_rng self = seed_rng None entropy) /\
  exists first second,
    @HaplotypeGenerator_init Z Z ZFloat ZRng two_trees 5 None 42 7 = Ok first /\
    HaplotypeGenerator_init two_trees 5 (Some (hg_random_seed first)) 0 0
      = Ok second /\
    hg_random_seed first = 42 /\
    haplotype_strings first = ["00"; "00"; "11"]%string /\
    haplotype_strings second = ["0"; "0"; "1"]%string.
Proof.
  split; [done|].
  destruct (@HaplotypeGenerator_init Z Z ZFloat ZRng two_trees 5 None 42 7)
    as [first|e] eqn:H1; [|vm_compute in H1; discriminate H1].
  assert (Hseed : hg_random_seed first = 42).
  { vm_compute in H1. by injection H1 as <-. }
  exists first. rewrite Hseed.
  destruct (@HaplotypeGenerator_init Z Z ZFloat ZRng two_trees 5 (Some 42) 0 0)
    as [second|e] eqn:H2; [|vm_compute in H2; discriminate H2].
  exists second. repeat split.
  - vm_compute in H1. by injection H1 as <-.
  - vm_compute in H2. by injection H2 as <-.
Qed.

(** ** Valid inputs *)

Lemma is_tree_Some n E :
  is_tree n E = true -> exists t, tree_of n E = Some t.
Proof.
  unfold is_tree. intros Ht. apply bool_decide_eq_true in Ht.
  destruct Ht as [t Ht]. eauto.
Qed.

(** What [tree_of] checks. *)
Lemma tree_of_Some n E t :
  tree_of n E = Some t ->
  (exists root,
     head (filter (fun p => p ∉ children_of E) (parents E)) = Some root /\
     tree_below (S (length E)) (children_dict E) n root = Some t) /\
  Z.of_nat (length E) = n - 1 /\
  NoDup (parents E) /\
  Forall (fun p => n < p) (parents E) /\
  NoDup (children_of E) /\
  NoDup (nodes t) /\
  Forall (fun j => j ∈ leaves t) (seqZ 1 n) /\
  Forall (fun p => p ∈ inner t) (parents E).
Proof.
  unfold tree_of. intros Ht.
  apply bind_Some in Ht as (root & Hroot & Ht).
  apply bind_Some in Ht as (t' & Hbelow & Ht).
  repeat case_guard; try done.
  change (Some t' = Some t) in Ht. simplify_eq.
  split; [eauto|]. repeat split; assumption.
Qed.

Lemma is_tree_flat n E :
  is_tree n E = true ->
  Z.of_nat (length E) = n - 1 /\ NoDup (parents E) /\
  Forall (fun p => n < p) (parents E) /\ NoDup (children_of E).
Proof.
  intros [t Ht]%is_tree_Some. apply tree_of_Some in Ht. tauto.
Qed.

Section ValidRecords.
Context {F : Type}.
Implicit Types (recs : list (record F)) (rec : record F).

Lemma valid_records_inv n m recs :
  valid_records n m recs = true ->
  2 <= n /\ 1 <= m < 2 ^ 32 /\
  Forall (fun r => 0 <= r_left r < r_right r /\ r_right r <= m) recs /\
  Sorted Z.le (r_left <$> recs) /\
  (forall x, 0 <= x < m -> is_tree n (link_of <$> live_at recs x) = true).
Proof.
  unfold valid_records. rewrite !andb_true_iff.
  intros [[[[[Hn Hm1] Hm2] Hrecs] Hsorted] Htrees].
  apply bool_decide_eq_true in Hsorted.
  split; [lia|]. split; [lia|]. split; [|split; [done|]].
  - apply Forall_forall. intros r Hr.
    rewrite forallb_forall in Hrecs. specialize (Hrecs r).
    unfold valid_record in Hrecs. rewrite !andb_true_iff in Hrecs.
    destruct Hrecs as [[? ?] ?]; [by apply list_elem_of_In|]. lia.
  - intros x Hx. rewrite forallb_forall in Htrees. apply Htrees.
    apply list_elem_of_In, elem_of_seqZ. lia.
Qed.

End ValidRecords.

(** ** The dictionaries of sparse_trees *)

Lemma children_of_cons (e : link) E :
  children_of (e :: E) = e.1.1 :: e.1.2 :: children_of E.
Proof. done. Qed.

Lemma children_of_app E1 E2 :
  children_of (E1 ++ E2) = children_of E1 ++ children_of E2.
Proof. unfold children_of. apply bind_app. Qed.

Lemma children_of_length E : length (children_of E) = (2 * length E)%nat.
Proof.
  induction E as [|e E IH]; [done|]. rewrite children_of_cons. simpl. lia.
Qed.

Global Instance children_of_perm : Proper ((≡ₚ) ==> (≡ₚ)) children_of.
Proof. intros E1 E2 HE. unfold children_of. by rewrite HE. Qed.

Global Instance parents_perm : Proper ((≡ₚ) ==> (≡ₚ)) parents.
Proof. intros E1 E2 HE. unfold parents. by rewrite HE. Qed.

Global Instance live_links_perm : Proper ((≡ₚ) ==> (≡ₚ)) live_links.
Proof. intros E1 E2 HE. unfold live_links. by rewrite HE. Qed.

Lemma remove_one_perm (s : segment) heap :
  s ∈ heap -> heap ≡ₚ s :: remove_one s heap.
Proof.
  induction heap as [|s' heap IH]; [by intros ?%elem_of_nil|].
  intros Hin. simpl. destruct (decide (s = s')) as [->|Hne]; [done|].
  apply elem_of_cons in Hin as [?|Hin]; [done|].
  rewrite (IH Hin) at 1. apply perm_swap.
Qed.

Lemma live_links_cons (s : segment) live :
  live_links (s :: live) = s.2 :: live_links live.
Proof. done. Qed.

Lemma parents_cons (e : link) E : parents (e :: E) = e.2 :: parents E.
Proof. done. Qed.

Section SparseOk.
Context {F : Type}.
Implicit Types (pi : gmap Z Z) (tau : gmap Z F) (live : list segment).

Lemma sparse_ok_perm n live live' pi tau :
  live ≡ₚ live' -> sparse_ok n live pi tau -> sparse_ok n live' pi tau.
Proof.
  intros Hp [Hdc Hdp Hnn Hdpi Hdtau].
  split; rewrite <- ?Hp; try done.
Qed.

(** Evicting an entry of the heap: the three [del] find their keys. *)
Lemma sparse_ok_evict n x c0 c1 p live pi tau :
  sparse_ok n ((x, ((c0, c1), p)) :: live) pi tau ->
  is_Some (pi !! c0) /\ is_Some (delete c0 pi !! c1) /\ is_Some (tau !! p) /\
  sparse_ok n live (delete c1 (delete c0 pi)) (delete p tau).
Proof.
  intros [Hdc Hdp Hnn Hdpi Hdtau].
  rewrite live_links_cons in Hdc, Hdp, Hnn, Hdpi, Hdtau.
  rewrite children_of_cons in Hdc, Hdpi. rewrite parents_cons in Hdp, Hnn, Hdtau.
  simpl in Hdc, Hdp, Hnn, Hdpi, Hdtau.
  apply NoDup_cons in Hdc as [Hc0 Hdc]. apply NoDup_cons in Hdc as [Hc1 Hdc].
  apply NoDup_cons in Hdp as [Hp Hdp]. apply Forall_cons in Hnn as [Hnp Hnn].
  assert (Hsample : p ∉ (list_to_set (seqZ 1 n) : gset Z)).
  { rewrite elem_of_list_to_set, elem_of_seqZ. lia. }
  repeat split; try done.
  - apply elem_of_dom. rewrite Hdpi. set_solver.
  - apply elem_of_dom. rewrite dom_delete_L, Hdpi.
    apply not_elem_of_cons in Hc0 as [Hne _]. set_solver.
  - apply elem_of_dom. rewrite Hdtau. set_solver.
  - rewrite !dom_delete_L, Hdpi. set_solver.
  - rewrite dom_delete_L, Hdtau. set_solver.
Qed.

(** Applying a record. *)
Lemma sparse_ok_apply n x c0 c1 p (t : F) live pi tau :
  sparse_ok n live pi tau ->
  NoDup (children_of (live_links ((x, ((c0, c1), p)) :: live))) ->
  NoDup (parents (live_links ((x, ((c0, c1), p)) :: live))) ->
  n < p ->
  sparse_ok n ((x, ((c0, c1), p)) :: live)
    (<[c1 := p]> (<[c0 := p]> pi)) (<[p := t]> tau).
Proof.
  intros [Hdc Hdp Hnn Hdpi Hdtau] Hc Hp Hnp. split; try done.
  - rewrite live_links_cons, parents_cons. by constructor.
  - rewrite !dom_insert_L, Hdpi, live_links_cons, children_of_cons.
    simpl. set_solver.
  - rewrite dom_insert_L, Hdtau, live_links_cons, parents_cons.
    simpl. set_solver.
Qed.

Lemma sparse_ok_sizes n live pi tau :
  0 <= n ->
  sparse_ok n live pi tau ->
  Z.of_nat (size pi) = 2 * Z.of_nat (length live) /\
  Z.of_nat (size tau) = n + Z.of_nat (length live).
Proof.
  intros Hn [Hdc Hdp Hnn Hdpi Hdtau]. split.
  - rewrite <- size_dom, Hdpi, size_list_to_set by done.
    rewrite children_of_length. unfold live_links. rewrite length_fmap.
    lia.
  - rewrite <- size_dom, Hdtau, size_union.
    + rewrite !size_list_to_set by (done || apply NoDup_seqZ).
      rewrite length_seqZ. unfold parents, live_links.
      rewrite !length_fmap. lia.
    + intros p. rewrite !elem_of_list_to_set, elem_of_seqZ.
      intros Hp1 Hp2. rewrite Forall_forall in Hnn. specialize (Hnn p Hp2). lia.
Qed.

Lemma sweep_S (fuel : nat) (l : Z) live pi tau :
  sweep (S fuel) l live pi tau =
  match heap_top live with
  | None => Raise IndexError
  | Some top =>
      if top.1 <=? l then
        '(x, live) ← heappop live;
        let '(_, (other_children, p)) := x in
        pi ← delitem pi other_children.1;
        pi ← delitem pi other_children.2;
        tau ← delitem tau p;
        sweep fuel l live pi tau
      else Ok (live, pi, tau)
  end.
Proof. done. Qed.

(** The eviction loop, on a heap whose first entry was just pushed and
    whose other entries are those of the dictionaries. *)
Lemma sweep_ok n (fuel : nat) (l : Z) s0 live pi tau :
  (length live < fuel)%nat ->
  l < s0.1 ->
  sparse_ok n live pi tau ->
  exists pi' tau',
    sweep fuel l (s0 :: live) pi tau
    = Ok (s0 :: filter (fun s : segment => l < s.1) live, pi', tau') /\
    sparse_ok n (filter (fun s : segment => l < s.1) live) pi' tau'.
Proof.
  revert live pi tau. induction fuel as [|fuel IH];
    intros live pi tau Hlen Hs0 Hok; [lia|].
  rewrite sweep_S.
  destruct (heap_top (s0 :: live)) as [top|] eqn:Htop.
  2: { by apply heap_top_None in Htop. }
  destruct (heap_top_least _ _ Htop) as [Hin Hleast].
  destruct (Z.leb_spec top.1 l) as [Hexp|Hlive].
  - assert (Hne : top ≠ s0) by (intros ->; lia).
    apply elem_of_cons in Hin as [?|Hin]; [done|].
    unfold heappop. rewrite Htop.
    replace (remove_one top (s0 :: live)) with (s0 :: remove_one top live)
      by (simpl; by destruct (decide (top = s0))).
    destruct top as [x [[c0 c1] p]].
    apply (sparse_ok_perm _ _ _ _ _ (remove_one_perm _ _ Hin)) in Hok.
    apply sparse_ok_evict in Hok as ([v0 Hv0] & [v1 Hv1] & [vp Hvp] & Hok).
    cbn [mbind result_bind fst snd].
    rewrite (delitem_Some _ _ _ Hv0). cbn [mbind result_bind].
    rewrite (delitem_Some _ _ _ Hv1). cbn [mbind result_bind].
    rewrite (delitem_Some _ _ _ Hvp). cbn [mbind result_bind].
    rewrite <- (remove_one_filter l (x, (c0, c1, p)) live) by done.
    apply IH; [|done|done].
    pose proof (remove_one_length _ _ Hin). lia.
  - exists pi, tau. apply Forall_cons in Hleast as [_ Hleast].
    rewrite filter_all; [done|].
    eapply Forall_impl; [exact Hleast|]. simpl. intros; lia.
Qed.

End SparseOk.

(** ** sparse_trees on a valid record sequence *)

Lemma filter_fmap {A B} (f : A -> B) (P : B -> Prop)
    `{!forall y, Decision (P y)} (l : list A) :
  filter P (f <$> l) = f <$> filter (fun x => P (f x)) l.
Proof.
  induction l as [|x l IH]; [done|].
  rewrite fmap_cons, !filter_cons, IH. by destruct (decide (P (f x))).
Qed.

Lemma filter_filter_implied {A} (P Q : A -> Prop) `{!forall y, Decision (P y)}
    `{!forall y, Decision (Q y)} (l : list A) :
  (forall x, Q x -> P x) -> filter Q (filter P l) = filter Q l.
Proof.
  intros HPQ. induction l as [|x l IH]; [done|].
  rewrite !filter_cons.
  destruct (decide (P x)) as [HP|HP].
  - rewrite filter_cons. by rewrite IH.
  - rewrite IH. destruct (decide (Q x)) as [HQ|HQ]; [|done].
    by destruct HP; apply HPQ.
Qed.

Lemma total_length_cons {A B} (y : Z * A * B) ys :
  total_length (y :: ys) = length_of y + total_length ys.
Proof. done. Qed.

Lemma total_length_app {A B} (ys1 ys2 : list (Z * A * B)) :
  total_length (ys1 ++ ys2) = total_length ys1 + total_length ys2.
Proof.
  induction ys1 as [|y ys1 IH]; [done|].
  rewrite <- app_comm_cons, !total_length_cons, IH. lia.
Qed.

Section SparseValid.
Context {F : Type} `{!Float F}.
Implicit Types (pi : gmap Z Z) (tau : gmap Z F) (live : list segment).
Implicit Types (recs done rest : list (record F)).

(** The records live at [x], when the records with [left <= x] are known. *)
Lemma live_at_app done rest x :
  Forall (fun r => r_left r <= x) done ->
  live_at (done ++ rest) x
  = filter (fun r => x < r_right r) done ++ live_at rest x.
Proof.
  intros Hdone. unfold live_at. rewrite filter_app. f_equal.
  induction Hdone as [|r done Hr _ IH]; [done|].
  rewrite !filter_cons, IH. unfold covers.
  destruct (decide (x < r_right r));
    destruct (decide ((r_left r <=? x) && (x <? r_right r) = true)) as [Hc|Hc];
    try done.
  - destruct Hc. apply andb_true_iff. split; lia.
  - apply andb_true_iff in Hc. lia.
Qed.

Lemma live_at_later rest x :
  Forall (fun r => x < r_left r) rest -> live_at rest x = [].
Proof.
  intros Hrest. unfold live_at.
  induction Hrest as [|r rest Hr _ IH]; [done|].
  rewrite filter_cons_False; [done|]. unfold covers.
  intros [Hc _]%andb_true_iff. lia.
Qed.

Lemma heap_after_links done x :
  live_links (heap_after done x)
  ≡ₚ link_of <$> filter (fun r => x < r_right r) done.
Proof.
  unfold heap_after, live_links. rewrite filter_fmap, <- list_fmap_compose.
  rewrite filter_reverse, reverse_Permutation. done.
Qed.

Lemma heap_after_snoc done rec x y :
  x <= y -> y < r_right rec ->
  segment_of rec :: filter (fun s : segment => y < s.1) (heap_after done x)
  = heap_after (done ++ [rec]) y.
Proof.
  intros Hxy Hy. unfold heap_after.
  rewrite reverse_snoc, fmap_cons, filter_cons_True by done.
  f_equal. apply filter_filter_implied. intros s. lia.
Qed.

Section Valid.
Variables (n m : Z) (recs : list (record F)).
Hypothesis Hvalid : valid_records n m recs = true.

Lemma heap_after_valid done rest x :
  recs = done ++ rest ->
  Forall (fun r => r_left r <= x) done ->
  0 <= x < m ->
  let E := live_links (heap_after done x) in
  NoDup (children_of E) /\ NoDup (parents E) /\
  Forall (fun p => n < p) (parents E) /\
  (Forall (fun r => x < r_left r) rest ->
   Z.of_nat (length (heap_after done x)) = n - 1).
Proof.
  intros Hrecs Hdone Hx E.
  destruct (valid_records_inv _ _ _ Hvalid) as (_ & _ & _ & _ & Htree).
  destruct (is_tree_flat _ _ (Htree x Hx)) as (Hlen & Hdp & Hnn & Hdc).
  rewrite Hrecs, (live_at_app _ _ _ Hdone), fmap_app in Hlen, Hdp, Hnn, Hdc.
  rewrite <- heap_after_links in Hlen, Hdp, Hnn, Hdc. fold E in Hdp, Hnn, Hdc.
  rewrite children_of_app in Hdc. apply NoDup_app in Hdc as [Hdc _].
  unfold parents in Hdp, Hnn. rewrite fmap_app in Hdp, Hnn.
  apply NoDup_app in Hdp as [Hdp _]. apply Forall_app in Hnn as [Hnn _].
  repeat split; try done.
  intros Hrest. rewrite (live_at_later _ _ Hrest) in Hlen.
  rewrite fmap_nil, app_nil_r in Hlen. unfold live_links in Hlen.
  by rewrite length_fmap in Hlen.
Qed.

(** The loop of [sparse_trees] from any point of a valid record sequence:
    it ends without an exception, the lengths it yields add up to what is
    left of the sequence, and each tree it yields has the [2n - 2] parent
    entries and the [2n - 1] time entries of a complete binary tree. *)
Lemma sparse_trees_loop_valid rest done last_l pi tau :
  recs = done ++ rest ->
  Forall (fun r => r_left r <= last_l) done ->
  StronglySorted Z.le (last_l :: (r_left <$> rest)) ->
  0 <= last_l < m ->
  sparse_ok n (heap_after done last_l) pi tau ->
  let g := sparse_trees_loop m rest last_l (heap_after done last_l) pi tau in
  g.2 = Ok () /\
  total_length g.1 = m - last_l /\
  Forall (fun y : sparse_tree F =>
            Z.of_nat (size y.2) = 2 * n - 1 /\
            Z.of_nat (size y.1.2) = 2 * n - 2) g.1.
Proof.
  destruct (valid_records_inv _ _ _ Hvalid) as (Hn & Hm & Hall & _ & _).
  revert done last_l pi tau.
  induction rest as [|rec rest IH]; intros done last_l pi tau
    Hrecs Hdone Hsorted Hlast Hok.
  - (* the last tree *)
    simpl. split; [done|]. split; [unfold total_length, length_of; simpl; lia|].
    constructor; [|done].
    destruct (heap_after_valid done [] last_l Hrecs Hdone Hlast)
      as (_ & _ & _ & Hlen).
    specialize (Hlen ltac:(constructor)).
    destruct (sparse_ok_sizes n _ _ _ ltac:(lia) Hok). simpl. lia.
  - cbv zeta. rewrite sparse_trees_loop_cons.
    apply StronglySorted_inv in Hsorted as [Hsorted Hle].
    rewrite fmap_cons in Hsorted. rewrite fmap_cons in Hle.
    apply Forall_cons in Hle as [Hle _].
    assert (Hrec : 0 <= r_left rec < r_right rec /\ r_right rec <= m).
    { rewrite Forall_forall in Hall. apply Hall. rewrite Hrecs.
      apply elem_of_app. right. left. }
    (* the body of the loop *)
    set (done' := done ++ [rec]).
    assert (Hrecs' : recs = done' ++ rest).
    { unfold done'. by rewrite <- app_assoc. }
    assert (Hdone' : Forall (fun r => r_left r <= r_left rec) done').
    { apply Forall_app. split; [|by repeat constructor].
      eapply Forall_impl; [exact Hdone|]. simpl. intros; lia. }
    destruct (heap_after_valid done' rest (r_left rec) Hrecs' Hdone'
                ltac:(lia)) as (Hdc & Hdp & Hnn & _).
    unfold done' in Hdc, Hdp, Hnn.
    rewrite <- (heap_after_snoc done rec last_l) in Hdc, Hdp, Hnn by lia.
    rewrite apply_record_sweep.
    destruct (sweep_ok n (S (length (heap_after done last_l))) (r_left rec)
                (segment_of rec) (heap_after done last_l) pi tau)
      as (pi' & tau' & -> & Hok'); [lia|simpl; lia|done|].
    assert (Hok'' : sparse_ok n (heap_after done' (r_left rec))
      (<[(r_children rec).2 := r_parent rec]>
         (<[(r_children rec).1 := r_parent rec]> pi'))
      (<[r_parent rec := r_time rec]> tau')).
    { unfold done'. rewrite <- (heap_after_snoc done rec last_l) by lia.
      unfold segment_of in *. destruct (r_children rec) as [c0 c1].
      apply sparse_ok_apply; [done|done|done|].
      rewrite live_links_cons, parents_cons in Hnn.
      by apply Forall_cons in Hnn as [? _]. }
    rewrite (heap_after_snoc done rec last_l (r_left rec)) by lia.
    fold done'.
    specialize (IH done' (r_left rec) _ _ Hrecs' Hdone' Hsorted ltac:(lia)
                  Hok'').
    cbv zeta in IH. destruct IH as (IH1 & IH2 & IH3).
    split; [done|].
    destruct (decide (last_l = r_left rec)) as [->|Hne]; [done|].
    split.
    + cbn [fst snd app]. rewrite total_length_cons, IH2.
      unfold length_of, uint32. cbn [fst]. rewrite Z.mod_small; lia.
    + constructor; [|done].
      (* the tree of the run that ends here *)
      destruct (heap_after_valid done (rec :: rest) last_l
                  Hrecs Hdone Hlast) as (_ & _ & _ & Hlen).
      lapply Hlen.
      2: { constructor; [lia|].
           apply StronglySorted_inv in Hsorted as [_ Hs].
           rewrite Forall_fmap in Hs. eapply Forall_impl; [exact Hs|].
           intros r' Hr'. simpl in Hr'. lia. }
      intros Hlen'.
      destruct (sparse_ok_sizes n _ _ _ ltac:(lia) Hok). simpl. lia.
Qed.

End Valid.

Lemma samples_dict_dom {V} n (v : V) :
  dom (samples_dict n v) = list_to_set (seqZ 1 n).
Proof.
  unfold samples_dict. rewrite dom_list_to_map_L.
  by rewrite <- list_fmap_compose, list_fmap_id.
Qed.

(** [sparse_trees] on a valid tree sequence. *)
Lemma sparse_trees_valid (ts : TreeSequence F) :
  valid_ts ts = true ->
  (sparse_trees ts).2 = Ok () /\
  total_length (sparse_trees ts).1 = _num_loci ts /\
  Forall (fun y : sparse_tree F =>
            Z.of_nat (size y.2) = 2 * _sample_size ts - 1 /\
            Z.of_nat (size y.1.2) = 2 * _sample_size ts - 2)
    (sparse_trees ts).1.
Proof.
  intros Hvalid. unfold valid_ts in Hvalid.
  destruct (valid_records_inv _ _ _ Hvalid) as (Hn & Hm & Hall & Hsorted & _).
  pose proof (sparse_trees_loop_valid (_sample_size ts) (_num_loci ts)
    (records ts) Hvalid (records ts) [] 0 ∅
    (samples_dict (_sample_size ts) fzero)) as Hloop.
  cbv zeta in Hloop. rewrite Z.sub_0_r in Hloop. apply Hloop; try done.
  - apply Sorted_StronglySorted; [apply _|].
    constructor; [done|].
    destruct (records ts) as [|rec recs]; constructor.
    apply Forall_cons in Hall as [Hrec _]. simpl. lia.
  - lia.
  - change (heap_after [] 0) with ([] : list segment).
    split; [constructor|constructor|constructor| |].
    + by rewrite dom_empty_L.
    + rewrite samples_dict_dom. simpl. set_solver.
Qed.

End SparseValid.

(** ** The ends of the records of a valid sequence *)

Lemma filter_filter_Forall {A} (P Q : A -> Prop) `{!forall y, Decision (P y)}
    `{!forall y, Decision (Q y)} (l : list A) :
  Forall (fun x => Q x -> P x) l -> filter Q (filter P l) = filter Q l.
Proof.
  induction 1 as [|x l HPQ _ IH]; [done|].
  rewrite !filter_cons.
  destruct (decide (P x)) as [HP|HP].
  - rewrite filter_cons. by rewrite IH.
  - rewrite IH. destruct (decide (Q x)) as [HQ|HQ]; [|done].
    by destruct HP; apply HPQ.
Qed.

Section RecordEnds.
Context {F : Type}.
Implicit Types (recs : list (record F)) (rec : record F).
Variables (n m : Z) (recs : list (record F)).
Hypothesis Hvalid : valid_records n m recs = true.

Lemma live_at_length x :
  0 <= x < m -> Z.of_nat (length (live_at recs x)) = n - 1.
Proof.
  intros Hx.
  destruct (valid_records_inv _ _ _ Hvalid) as (_ & _ & _ & _ & Htree).
  destruct (is_tree_flat _ _ (Htree x Hx)) as (Hlen & _).
  by rewrite length_fmap in Hlen.
Qed.

(** A record ends at the last locus, or where another record starts:
    otherwise the locus where it ends would have a record less than the
    locus before. *)
Lemma right_is_a_left rec :
  rec ∈ recs ->
  r_right rec = m \/ exists rec', rec' ∈ recs /\ r_left rec' = r_right rec.
Proof.
  intros Hin.
  destruct (valid_records_inv _ _ _ Hvalid) as (Hn & Hm & Hall & _ & _).
  assert (Hrec : 0 <= r_left rec < r_right rec /\ r_right rec <= m).
  { rewrite Forall_forall in Hall. by apply Hall. }
  destruct (decide (r_right rec = m)) as [?|Hne]; [by left|right].
  destruct (decide (Exists (fun r => r_left r = r_right rec) recs))
    as [Hex|Hnex].
  { apply Exists_exists in Hex. naive_solver. }
  exfalso. apply not_Exists_Forall in Hnex; [|intros r; apply _].
  set (x := r_right rec).
  pose proof (live_at_length x ltac:(lia)) as Hx.
  pose proof (live_at_length (x - 1) ltac:(lia)) as Hx1.
  assert (Hsub : live_at recs x
    = filter (fun r => covers x r = true) (live_at recs (x - 1))).
  { unfold live_at. symmetry. apply filter_filter_Forall.
    eapply Forall_impl; [exact Hnex|]. intros r Hr. simpl in Hr.
    unfold covers. rewrite !andb_true_iff. fold x in Hr. lia. }
  assert (Hlt : (length (live_at recs x) < length (live_at recs (x - 1)))%nat).
  { rewrite Hsub. apply (length_filter_lt _ _ rec).
    - apply list_elem_of_filter. split; [|done].
      unfold covers. apply andb_true_iff. unfold x. lia.
    - unfold covers. rewrite andb_true_iff. unfold x. lia. }
  lia.
Qed.

Lemma lefts_sorted :
  StronglySorted Z.le (r_left <$> recs).
Proof.
  destruct (valid_records_inv _ _ _ Hvalid) as (_ & _ & _ & Hsorted & _).
  apply Sorted_StronglySorted; [apply _|done].
Qed.

(** The last record ends at the last locus. *)
Lemma last_record_right rl : last recs = Some rl -> r_right rl = m.
Proof.
  intros Hlast. apply last_Some in Hlast as [front Hrecs].
  destruct (valid_records_inv _ _ _ Hvalid) as (_ & _ & Hall & _ & _).
  assert (Hin : rl ∈ recs) by (rewrite Hrecs; set_solver).
  destruct (right_is_a_left rl Hin) as [?|(rec' & Hin' & Hleft)]; [done|].
  exfalso.
  assert (Hrl : r_left rl < r_right rl).
  { rewrite Forall_forall in Hall. by apply Hall. }
  pose proof lefts_sorted as Hsorted.
  rewrite Hrecs, fmap_app in Hsorted.
  apply StronglySorted_app in Hsorted as (Hle & _ & _).
  rewrite Hrecs in Hin'. apply elem_of_app in Hin' as [Hin'|Hin'].
  - specialize (Hle (r_left rec') (r_left rl)).
    lapply Hle; [|by apply list_elem_of_fmap_2].
    intros Hle'. lapply Hle'; [lia|]. simpl. set_solver.
  - apply list_elem_of_singleton in Hin' as ->. lia.
Qed.

Lemma records_nonempty : recs ≠ [].
Proof.
  intros Hnil.
  destruct (valid_records_inv _ _ _ Hvalid) as (Hn & Hm & _).
  pose proof (live_at_length 0 ltac:(lia)) as Hlen.
  rewrite Hnil in Hlen. simpl in Hlen. lia.
Qed.

End RecordEnds.

(** ** The lengths yielded by _diffs *)

Section DiffsLengths.
Context {F : Type} `{!Float F}.
Implicit Types (used : gmap Z (list (edge F))) (rin : list (edge F)).

Lemma diffs_loop_total (rest : list (record F)) left used rin r :
  StronglySorted Z.le (left :: (r_left <$> rest)) ->
  Forall (fun rec => r_left rec <= r_right rec < 2 ^ 32) rest ->
  0 <= left <= r -> r < 2 ^ 32 ->
  total_length (diffs_loop rest left used rin (Some r)).1
  = default r (r_right <$> last rest) - left.
Proof.
  revert left used rin r. induction rest as [|rec rest IH];
    intros left used rin r Hsorted Hall Hleft Hr.
  { simpl. unfold total_length, length_of, uint32. simpl.
    rewrite Z.mod_small; lia. }
  apply StronglySorted_inv in Hsorted as [Hsorted Hle].
  rewrite fmap_cons in Hsorted. rewrite fmap_cons in Hle.
  apply Forall_cons in Hle as [Hle _].
  apply Forall_cons in Hall as [Hrec Hall].
  assert (Hlast : default r (r_right <$> last (rec :: rest))
                  = default (r_right rec) (r_right <$> last rest)).
  { destruct rest as [|rec' rest']; [done|]. rewrite last_cons_cons.
    by destruct (proj2 (last_is_Some (rec' :: rest'))) as [x ->]. }
  rewrite Hlast, diffs_loop_cons.
  destruct (decide (r_left rec = left)) as [<-|Hne].
  - apply IH; try done; lia.
  - cbn [fst]. rewrite total_length_cons, IH by (done || lia).
    unfold length_of, uint32. cbn [fst]. rewrite Z.mod_small; lia.
Qed.

(** [_diffs] on a valid tree sequence: the lengths add up to [num_loci]. *)
Lemma diffs_returns (ts : TreeSequence F) :
  records ts ≠ [] -> (_diffs ts).2 = Ok ().
Proof.
  unfold _diffs. destruct (records ts) as [|rec recs]; [done|]. intros _.
  rewrite diffs_loop_cons.
  destruct (decide (r_left rec = 0)) as [Heq|Hne].
  - apply diffs_loop_outcome.
  - cbv zeta. cbn [snd].
    apply (diffs_loop_outcome recs (r_left rec)
             (record_used (delete 0 ∅) rec) [edge_of rec] (r_right rec)).
Qed.

Lemma diffs_valid_total (ts : TreeSequence F) :
  valid_ts ts = true ->
  (_diffs ts).2 = Ok () /\ total_length (_diffs ts).1 = _num_loci ts.
Proof.
  intros Hvalid. unfold valid_ts in Hvalid.
  destruct (valid_records_inv _ _ _ Hvalid) as (Hn & Hm & Hall & _ & _).
  pose proof (records_nonempty _ _ _ Hvalid) as Hne.
  pose proof (lefts_sorted _ _ _ Hvalid) as Hsorted.
  pose proof (last_record_right _ _ _ Hvalid) as Hlast.
  destruct (proj2 (last_is_Some (records ts)) Hne) as [rl Hrl].
  split; [by apply diffs_returns|].
  rewrite <- (Hlast rl Hrl). unfold _diffs.
  destruct (records ts) as [|rec rest]; [done|].
  assert (H0 : StronglySorted Z.le (0 :: (r_left <$> rec :: rest))).
  { constructor; [done|]. rewrite Forall_fmap.
    eapply Forall_impl; [exact Hall|]. simpl. intros; lia. }
  assert (Hall' : Forall (fun rec => r_left rec <= r_right rec < 2 ^ 32)
                    (rec :: rest)).
  { eapply Forall_impl; [exact Hall|]. simpl. intros; lia. }
  rewrite diffs_loop_cons, <- (diffs_loop_cons rec rest 0 ∅ [] (Some 0)).
  rewrite (diffs_loop_total (rec :: rest) 0 ∅ [] 0 H0 Hall') by lia.
  rewrite Hrl. simpl. lia.
Qed.

End DiffsLengths.

(** ** The lengths yielded by _diffs_with_breaks *)

Lemma sorted_lookup_lt (b : list Z) (i j : nat) x y :
  StronglySorted Z.lt b ->
  b !! i = Some x -> b !! j = Some y -> (i < j)%nat -> x < y.
Proof.
  intros Hb. revert i j. induction Hb as [|z b Hb IH Hz]; intros i j Hi Hj Hij.
  { done. }
  destruct j as [|j]; [lia|]. destruct i as [|i].
  - simpl in Hi, Hj. injection Hi as ->. rewrite Forall_forall in Hz.
    apply Hz. by eapply list_elem_of_lookup_2.
  - simpl in Hi, Hj. apply (IH i j); [done|done|lia].
Qed.

Lemma sorted_lookup_inj (b : list Z) (i j : nat) x :
  StronglySorted Z.lt b -> b !! i = Some x -> b !! j = Some x -> i = j.
Proof.
  intros Hb Hi Hj. destruct (Nat.lt_trichotomy i j) as [Hlt|[?|Hlt]]; [|done|].
  - pose proof (sorted_lookup_lt b i j x x Hb Hi Hj Hlt). lia.
  - pose proof (sorted_lookup_lt b j i x x Hb Hj Hi Hlt). lia.
Qed.

Section Breaks.
Context {F : Type} `{!Float F}.
Implicit Types (used : gmap Z (list (edge F))) (rin : list (edge F)).
Variable b : list Z.
Hypothesis Hsorted : StronglySorted Z.lt b.
Hypothesis Hrange : Forall (fun x => 0 <= x < 2 ^ 32) b.

Lemma breaks_while_unfold (fuel : nat) (k : nat) (x : Z) :
  @breaks_while F fuel b k x =
  (bk ← lift (index b k);
   if decide (bk = x) then mret k
   else
     match fuel with
     | O => lift (Raise Diverges)
     | S fuel =>
         bk ← lift (index b (S k));
         bk1 ← lift (index b (S k - 1));
         yield (uint32 (bk - bk1), [], []);;
         breaks_while fuel b (S k) x
     end).
Proof. by destruct fuel. Qed.

Lemma breaks_while_end (fuel : nat) (k : nat) (x : Z) :
  b !! k = Some x -> @breaks_while F fuel b k x = ([], Ok k).
Proof.
  intros Hk. rewrite breaks_while_unfold. unfold index. rewrite Hk.
  rewrite gen_bind_lift. by destruct (decide (x = x)).
Qed.

Lemma breaks_while_step (fuel : nat) (k : nat) (x bk bk' : Z) :
  b !! k = Some bk -> bk ≠ x -> b !! S k = Some bk' ->
  @breaks_while F (S fuel) b k x =
  ((uint32 (bk' - bk), [], []) :: (@breaks_while F fuel b (S k) x).1,
   (@breaks_while F fuel b (S k) x).2).
Proof.
  intros Hk Hne Hk'. rewrite breaks_while_unfold. unfold index.
  rewrite Hk, gen_bind_lift. destruct (decide (bk = x)) as [?|_]; [done|].
  rewrite Hk', gen_bind_lift. simpl Nat.sub. rewrite Nat.sub_0_r, Hk.
  by rewrite gen_bind_lift, gen_bind_yield.
Qed.

(** The loop [while self._breakpoints[k] != x] when [x] is the breakpoint
    of index [j]: it ends at [k = j], and the lengths it yields add up to
    the distance from the breakpoint it started at. *)
Lemma breaks_while_spec (fuel : nat) (k j : nat) (x bk : Z) :
  b !! j = Some x -> b !! k = Some bk -> (k <= j)%nat -> (j - k <= fuel)%nat ->
  exists ys, @breaks_while F fuel b k x = (ys, Ok j) /\
             total_length ys = x - bk.
Proof.
  revert k bk. induction fuel as [|fuel IH]; intros k bk Hj Hk Hkj Hfuel.
  - assert (k = j) as -> by lia. rewrite Hj in Hk. injection Hk as <-.
    exists []. rewrite (breaks_while_end _ _ _ Hj). split; [done|].
    unfold total_length. simpl. lia.
  - destruct (decide (bk = x)) as [->|Hne].
    + assert (k = j) as -> by (by eapply sorted_lookup_inj).
      exists []. rewrite (breaks_while_end _ _ _ Hj). split; [done|].
      unfold total_length. simpl. lia.
    + assert (k ≠ j) by (intros ->; congruence).
      destruct (lookup_lt_is_Some_2 b (S k)) as [bk' Hk'].
      { apply lookup_lt_Some in Hj. lia. }
      destruct (IH (S k) bk' Hj Hk' ltac:(lia) ltac:(lia)) as (ys & Hys & Htot).
      rewrite (breaks_while_step fuel k x bk bk' Hk Hne Hk'), Hys.
      cbn [fst snd]. eexists. split; [done|]. rewrite total_length_cons, Htot.
      unfold length_of, uint32. cbn [fst].
      pose proof (sorted_lookup_lt b k (S k) bk bk' Hsorted Hk Hk' ltac:(lia)).
      rewrite Forall_forall in Hrange.
      pose proof (Hrange bk (list_elem_of_lookup_2 _ _ _ Hk)).
      pose proof (Hrange bk' (list_elem_of_lookup_2 _ _ _ Hk')).
      rewrite Z.mod_small; lia.
Qed.

Lemma diffs_with_breaks_loop_cons (k : nat) (x len : Z) out rin
    (ds : list (delta F)) :
  diffs_with_breaks_loop b ((len, out, rin) :: ds) k x =
  (bk ← lift (index b k);
   bk1 ← lift (index b (k - 1));
   yield (uint32 (bk - bk1), out, rin);;
   k ← breaks_while (length b) b k (x + len);
   diffs_with_breaks_loop b ds (S k) (x + len)).
Proof. done. Qed.

(** One item of [_diffs]: the lengths yielded for it add up to its length,
    and [k] ends after the breakpoint the item ends at. *)
Lemma diffs_with_breaks_loop_item (k : nat) (x x' : Z) out rin
    (ds : list (delta F)) :
  (1 <= k)%nat -> b !! (k - 1)%nat = Some x -> x < x' -> x' ∈ b ->
  exists (j : nat) ys,
    b !! j = Some x' /\ total_length ys = x' - x /\
    diffs_with_breaks_loop b ((x' - x, out, rin) :: ds) k x =
    (ys ++ (diffs_with_breaks_loop b ds (S j) x').1,
     (diffs_with_breaks_loop b ds (S j) x').2).
Proof.
  intros Hk Hx Hlt Hin.
  apply list_elem_of_lookup in Hin as [j Hj].
  assert (Hkj : (k - 1 < j)%nat).
  { destruct (decide (k - 1 < j)%nat) as [?|Hge]; [done|].
    destruct (decide (j = k - 1)%nat) as [->|?]; [simplify_eq; lia|].
    pose proof (sorted_lookup_lt b j (k - 1) x' x Hsorted Hj Hx ltac:(lia)).
    lia. }
  destruct (lookup_lt_is_Some_2 b k) as [bk Hbk].
  { apply lookup_lt_Some in Hj. lia. }
  destruct (breaks_while_spec (length b) k j x' bk Hj Hbk ltac:(lia))
    as (ys & Hys & Htot).
  { apply lookup_lt_Some in Hj. lia. }
  exists j, ((uint32 (bk - x), out, rin) :: ys). split; [done|]. split.
  - rewrite total_length_cons, Htot. unfold length_of, uint32. cbn [fst].
    pose proof (sorted_lookup_lt b (k - 1) k x bk Hsorted Hx Hbk ltac:(lia)).
    rewrite Forall_forall in Hrange.
    pose proof (Hrange bk (list_elem_of_lookup_2 _ _ _ Hbk)).
    pose proof (Hrange x (list_elem_of_lookup_2 _ _ _ Hx)).
    rewrite Z.mod_small; lia.
  - rewrite diffs_with_breaks_loop_cons.
    replace (x + (x' - x)) with x' by lia.
    unfold index. rewrite Hbk, gen_bind_lift, Hx, gen_bind_lift.
    rewrite gen_bind_yield, Hys. unfold mbind, gen_bind. simpl.
    done.
Qed.

(** The loop of [_diffs_with_breaks] over the items of [_diffs], from any
    point of the records: [x] is the [left] of the current run. *)
Lemma breaks_loop_total (rest : list (record F)) left used rin r (k : nat) :
  StronglySorted Z.le (left :: (r_left <$> rest)) ->
  Forall (fun rec => r_left rec < r_right rec) rest ->
  Forall (fun rec => r_left rec ∈ b) rest ->
  default r (r_right <$> last rest) ∈ b ->
  (1 <= k)%nat -> b !! (k - 1)%nat = Some left ->
  (rest = [] -> left < r) ->
  let g := diffs_with_breaks_loop b
             (diffs_loop rest left used rin (Some r)).1 k left in
  g.2 = Ok () /\
  total_length g.1 = default r (r_right <$> last rest) - left.
Proof.
  revert left used rin r k. induction rest as [|rec rest IH];
    intros left used rin r k Hle Hlr Hlefts Hlast Hk Hx Hnil.
  - cbv zeta. simpl in Hlast. specialize (Hnil eq_refl).
    change (diffs_loop [] left used rin (Some r)).1
      with [(uint32 (r - left), used_at used left, rin)].
    change (default r (r_right <$> last [])) with r.
    assert (Hu : uint32 (r - left) = r - left).
    { rewrite Forall_forall in Hrange.
      pose proof (Hrange r Hlast).
      pose proof (Hrange left (list_elem_of_lookup_2 _ _ _ Hx)).
      unfold uint32. rewrite Z.mod_small; lia. }
    rewrite Hu.
    destruct (diffs_with_breaks_loop_item k left r (used_at used left) rin []
                Hk Hx Hnil Hlast) as (j & ys & Hj & Htot & ->).
    simpl. rewrite app_nil_r. done.
  - apply StronglySorted_inv in Hle as [Hsorted' Hle].
    rewrite fmap_cons in Hsorted'. rewrite fmap_cons in Hle.
    apply Forall_cons in Hle as [Hle _].
    apply Forall_cons in Hlr as [Hrec Hlr].
    apply Forall_cons in Hlefts as [Hleft Hlefts].
    assert (Hlast' : default r (r_right <$> last (rec :: rest))
                     = default (r_right rec) (r_right <$> last rest)).
    { destruct rest as [|rec' rest']; [done|]. rewrite last_cons_cons.
      by destruct (proj2 (last_is_Some (rec' :: rest'))) as [z ->]. }
    rewrite Hlast' in Hlast |- *. cbv zeta. rewrite diffs_loop_cons.
    destruct (decide (r_left rec = left)) as [<-|Hne].
    + by apply IH.
    + cbn [fst].
      assert (Hu : uint32 (r_left rec - left) = r_left rec - left).
      { rewrite Forall_forall in Hrange.
        pose proof (Hrange _ Hleft).
        pose proof (Hrange left (list_elem_of_lookup_2 _ _ _ Hx)).
        unfold uint32. rewrite Z.mod_small; lia. }
      rewrite Hu.
      destruct (diffs_with_breaks_loop_item k left (r_left rec)
                  (used_at used left) rin
                  (diffs_loop rest (r_left rec)
                     (record_used (delete left used) rec) [edge_of rec]
                     (Some (r_right rec))).1 Hk Hx ltac:(lia) Hleft)
        as (j & ys & Hj & Htot & ->).
      destruct (IH (r_left rec) (record_used (delete left used) rec)
                  [edge_of rec] (r_right rec) (S j) Hsorted' Hlr Hlefts Hlast
                  ltac:(lia)) as [IH1 IH2].
      { by rewrite Nat.sub_1_r. }
      { done. }
      cbn [fst snd]. split; [done|].
      rewrite total_length_app, Htot, IH2. lia.
Qed.

End Breaks.

Section BreaksValid.
Context {F : Type} `{!Float F}.

Lemma valid_breakpoints_inv (ts : TreeSequence F) :
  valid_breakpoints ts = true ->
  _num_loci ts < 2 ^ 32 ->
  let b := _breakpoints ts in
  b !! 0%nat = Some 0 /\ _num_loci ts ∈ b /\
  StronglySorted Z.lt b /\ Forall (fun x => 0 <= x < 2 ^ 32) b /\
  Forall (fun rec => r_left rec ∈ b) (records ts).
Proof.
  intros Hv Hm b. unfold valid_breakpoints in Hv.
  rewrite !andb_true_iff in Hv. destruct Hv as [[[Hhd Hlast] Hsorted] Hlefts].
  fold b in Hhd, Hlast, Hsorted.
  apply bool_decide_eq_true in Hhd, Hlast, Hsorted.
  apply Sorted_StronglySorted in Hsorted; [|apply _].
  assert (Hin : _num_loci ts ∈ b).
  { apply last_Some in Hlast as [front ->]. set_solver. }
  split; [by rewrite <- head_lookup|]. split; [done|]. split; [done|].
  split.
  - apply Forall_forall. intros x Hx. split.
    + destruct b as [|z b']; [done|]. injection Hhd as ->.
      apply StronglySorted_inv in Hsorted as [_ Hall].
      apply elem_of_cons in Hx as [->|Hx]; [done|].
      rewrite Forall_forall in Hall. specialize (Hall x Hx). lia.
    + apply last_Some in Hlast as [front Hb]. rewrite Hb in Hsorted, Hx.
      apply StronglySorted_app in Hsorted as (Hlt & _ & _).
      apply elem_of_app in Hx as [Hx|Hx].
      * specialize (Hlt x (_num_loci ts) Hx ltac:(set_solver)). lia.
      * apply list_elem_of_singleton in Hx as ->. lia.
  - apply Forall_forall. intros rec Hrec.
    rewrite forallb_forall in Hlefts.
    specialize (Hlefts rec ltac:(by apply list_elem_of_In)).
    by apply bool_decide_eq_true in Hlefts.
Qed.

(** [_diffs_with_breaks] on a valid tree sequence with valid breakpoints:
    the lengths add up to [num_loci]. *)
Lemma diffs_with_breaks_valid_total (ts : TreeSequence F) :
  valid_ts ts = true -> valid_breakpoints ts = true ->
  (_diffs_with_breaks ts).2 = Ok () /\
  total_length (_diffs_with_breaks ts).1 = _num_loci ts.
Proof.
  intros Hvalid Hbreaks. unfold valid_ts in Hvalid.
  destruct (valid_records_inv _ _ _ Hvalid) as (Hn & Hm & Hall & _ & _).
  destruct (valid_breakpoints_inv ts Hbreaks ltac:(lia))
    as (Hb0 & Hbm & Hbs & Hbr & Hbl).
  pose proof (records_nonempty _ _ _ Hvalid) as Hne.
  pose proof (lefts_sorted _ _ _ Hvalid) as Hsorted.
  pose proof (last_record_right _ _ _ Hvalid) as Hlast.
  destruct (proj2 (last_is_Some (records ts)) Hne) as [rl Hrl].
  destruct (diffs_valid_total ts Hvalid) as [Hok _].
  unfold _diffs_with_breaks. rewrite Hok. unfold _diffs in *.
  destruct (records ts) as [|rec rest] eqn:Hrecs; [done|].
  rewrite diffs_loop_cons, <- (diffs_loop_cons rec rest 0 ∅ [] (Some 0)).
  pose proof (breaks_loop_total (_breakpoints ts) Hbs Hbr (rec :: rest) 0 ∅ []
                0 1) as Hloop.
  cbv zeta in Hloop. rewrite Hrl in Hloop. simpl default in Hloop.
  rewrite (Hlast rl Hrl), Z.sub_0_r in Hloop.
  destruct Hloop as [H1 H2]; try done.
  - constructor; [done|]. rewrite Forall_fmap.
    eapply Forall_impl; [exact Hall|]. simpl. intros; lia.
  - eapply Forall_impl; [exact Hall|]. simpl. intros; lia.
  - destruct (diffs_with_breaks_loop _ _ 1 0) as [ys res]. simpl in *.
    subst res. unfold mbind, gen_bind, lift. simpl.
    by rewrite app_nil_r.
Qed.

End BreaksValid.

(** ** The sum of the interval lengths *)

Section IntervalLengths.
Context {F : Type} `{!Float F}.

(** C1.  On a valid tree sequence each of the three generators ends without
    an exception, and the interval lengths it yields add up to [num_loci]:
    [sparse_trees], [_diffs], and, when the breakpoints are valid (they go
    from 0 to [num_loci] in increasing order and hold every [left]),
    [_diffs_with_breaks]. *)
Theorem interval_lengths_sum_to_num_loci (ts : TreeSequence F) :
  valid_ts ts = true ->
  ((sparse_trees ts).2 = Ok () /\
   total_length (sparse_trees ts).1 = _num_loci ts) /\
  ((_diffs ts).2 = Ok () /\
   total_length (_diffs ts).1 = _num_loci ts) /\
  (valid_breakpoints ts = true ->
   (_diffs_with_breaks ts).2 = Ok () /\
   total_length (_diffs_with_breaks ts).1 = _num_loci ts).
Proof.
  intros Hvalid. split; [|split].
  - destruct (sparse_trees_valid ts Hvalid) as (? & ? & _). done.
  - by apply diffs_valid_total.
  - intros Hbreaks. by apply diffs_with_breaks_valid_total.
Qed.

End IntervalLengths.

Lemma interval_lengths_sum_to_num_loci_witness :
  valid_ts two_trees = true /\ valid_breakpoints two_trees = true /\
  total_length (sparse_trees two_trees).1 = 5 /\
  total_length (_diffs two_trees).1 = 5 /\
  total_length (_diffs_with_breaks two_trees).1 = 5.
Proof.
  assert (Hvalid : valid_ts two_trees = true) by (vm_compute; reflexivity).
  assert (Hbreaks : valid_breakpoints two_trees = true)
    by (vm_compute; reflexivity).
  destruct (interval_lengths_sum_to_num_loci two_trees Hvalid)
    as ((_ & H1) & (_ & H2) & H3).
  destruct (H3 Hbreaks) as (_ & H3').
  repeat split; assumption.
Defined.

(** ** The node counts *)

Lemma for_each_inv {A S} (P : S -> Prop) (f : S -> A -> result S) l s s' :
  (forall s x s', f s x = Ok s' -> P s -> P s') ->
  for_each f l s = Ok s' -> P s -> P s'.
Proof.
  intros Hf. revert s. induction l as [|x l IH]; intros s Hl Hs.
  { by injection Hl as <-. }
  simpl in Hl. destruct (f s x) as [s1|e] eqn:Hx; [|done].
  simpl in Hl. eapply IH; [done|]. by eapply Hf.
Qed.

Lemma result_bind_Ok {A B} (r : result A) (k : A -> result B) b :
  r ≫= k = Ok b -> exists a, r = Ok a /\ k a = Ok b.
Proof. destruct r as [a|e]; [|done]. eauto. Qed.

Lemma assert_Ok (c : bool) u : assert c = Ok u -> c = true.
Proof. by destruct c. Qed.

Section NodeCounts.
Context {F : Type} `{!Float F}.

Lemma build_subtree_same_forest (self self' : NewickGenerator F) node :
  build_subtree self node = Ok self' -> same_forest self self'.
Proof.
  unfold build_subtree. intros Hb.
  destruct (_ : result string) as [s|e] in Hb; [|done].
  simpl in Hb. by injection Hb as <-.
Qed.

Lemma update_subtrees_same_forest (self self' : NewickGenerator F) :
  _update_subtrees self = Ok self' -> same_forest self self'.
Proof.
  unfold _update_subtrees. intros Hu.
  destruct (collect _ _ _ _) as [nodes|e]; [|done]. simpl in Hu.
  apply (for_each_inv (same_forest self) build_subtree (rev nodes) self self');
    [|exact Hu|done].
  intros s x s' Hb Hs. apply build_subtree_same_forest in Hb.
  unfold same_forest in *. naive_solver congruence.
Qed.

(** C3, the check of [NewickGenerator.next]: it returns only when [_time]
    has [2n - 1] entries and [_parent] and [_branch_length] have [2n - 2];
    with any other counts an assertion fails and nothing is yielded. *)
Lemma next_checks_counts (self self' : NewickGenerator F) d y :
  NewickGenerator_next self d = Ok (self', y) ->
  Z.of_nat (size (ng_time self')) = 2 * ng_sample_size self' - 1 /\
  Z.of_nat (size (ng_parent self')) = 2 * ng_sample_size self' - 2 /\
  Z.of_nat (size (ng_branch_length self')) = 2 * ng_sample_size self' - 2.
Proof.
  destruct d as [[len out] rin]. unfold NewickGenerator_next.
  intros Hn.
  apply result_bind_Ok in Hn as (s1 & _ & Hn).
  apply result_bind_Ok in Hn as (s2 & _ & Hn).
  apply result_bind_Ok in Hn as (s3 & _ & Hn).
  apply result_bind_Ok in Hn as (root & _ & Hn).
  apply result_bind_Ok in Hn as ([] & Htime%assert_Ok & Hn).
  apply result_bind_Ok in Hn as ([] & Hparent%assert_Ok & Hn).
  apply result_bind_Ok in Hn as ([] & Hbl%assert_Ok & Hn).
  apply result_bind_Ok in Hn as (s4 & Hu & Hn).
  apply result_bind_Ok in Hn as (ret & _ & Hn).
  injection Hn as <- <-.
  apply update_subtrees_same_forest in Hu.
  destruct Hu as (-> & _ & -> & -> & -> & _).
  apply bool_decide_eq_true in Htime, Hparent, Hbl. done.
Qed.

(** C3.  On a valid tree sequence [sparse_trees] ends without an exception
    and every tree it yields has [2n - 1] entries in its time map and
    [2n - 2] in its parent map; [NewickGenerator.next] checks these counts
    (and that of the branch lengths) at every interval, and returns nothing
    when they do not hold. *)
Theorem complete_trees_have_2n_1_nodes (ts : TreeSequence F) :
  valid_ts ts = true ->
  ((sparse_trees ts).2 = Ok () /\
   Forall (fun y : sparse_tree F =>
             Z.of_nat (size y.2) = 2 * _sample_size ts - 1 /\
             Z.of_nat (size y.1.2) = 2 * _sample_size ts - 2)
     (sparse_trees ts).1) /\
  (forall (self self' : NewickGenerator F) d y,
     NewickGenerator_next self d = Ok (self', y) ->
     Z.of_nat (size (ng_time self')) = 2 * ng_sample_size self' - 1 /\
     Z.of_nat (size (ng_parent self')) = 2 * ng_sample_size self' - 2 /\
     Z.of_nat (size (ng_branch_length self')) = 2 * ng_sample_size self' - 2).
Proof.
  intros Hvalid. split.
  - destruct (sparse_trees_valid ts Hvalid) as (? & _ & ?). done.
  - apply next_checks_counts.
Qed.

End NodeCounts.

Lemma complete_trees_have_2n_1_nodes_witness :
  valid_ts two_trees = true /\
  Forall (fun y : sparse_tree Z =>
            Z.of_nat (size y.2) = 5 /\ Z.of_nat (size y.1.2) = 4)
    (sparse_trees two_trees).1.
Proof.
  assert (Hvalid : valid_ts two_trees = true) by (vm_compute; reflexivity).
  split; [exact Hvalid|].
  exact (proj2 (proj1 (complete_trees_have_2n_1_nodes two_trees Hvalid))).
Defined.

(** ** Trees *)

Lemma nodes_root t : exists rest, nodes t = root_of t :: rest.
Proof. destruct t; simpl; eauto. Qed.

Lemma root_in_nodes t : root_of t ∈ nodes t.
Proof. destruct t; simpl; left. Qed.

Lemma nodes_perm t : nodes t ≡ₚ leaves t ++ inner t.
Proof.
  induction t as [u|p l IHl r IHr]; simpl; [done|].
  rewrite IHl, IHr. rewrite <- Permutation_middle. constructor.
  rewrite <- !app_assoc. apply Permutation_app_head.
  rewrite !app_assoc. apply Permutation_app_tail, Permutation_app_comm.
Qed.

Lemma leaves_in_nodes t x : x ∈ leaves t -> x ∈ nodes t.
Proof. rewrite nodes_perm. set_solver. Qed.

Lemma inner_in_nodes t x : x ∈ inner t -> x ∈ nodes t.
Proof. rewrite nodes_perm. set_solver. Qed.

Lemma parents_links_of t : parents (links_of t) = inner t.
Proof.
  induction t as [u|p l IHl r IHr]; [done|].
  cbn [links_of inner]. rewrite parents_cons. unfold parents in *.
  by rewrite fmap_app, IHl, IHr.
Qed.

(** The children of the links of a tree are its nodes but the root. *)
Lemma children_links_of t : root_of t :: children_of (links_of t) ≡ₚ nodes t.
Proof.
  induction t as [u|p l IHl r IHr]; [done|].
  cbn [links_of nodes root_of].
  rewrite children_of_cons, children_of_app. cbn [fst snd].
  rewrite <- IHl, <- IHr. constructor.
  rewrite <- !app_comm_cons. constructor.
  by rewrite Permutation_middle.
Qed.

Lemma leaves_length t : length (leaves t) = S (length (inner t)).
Proof.
  induction t as [u|p l IHl r IHr]; simpl; [done|].
  rewrite !length_app, IHl, IHr. lia.
Qed.

Lemma height_inner t : (height t <= length (inner t))%nat.
Proof.
  induction t as [u|p l IHl r IHr]; simpl; [done|].
  rewrite length_app. lia.
Qed.

Lemma tree_for_perm n E E' t : E ≡ₚ E' -> tree_for n E t -> tree_for n E' t.
Proof. intros HE [Hl ? ? ?]. split; try done. by rewrite <- HE. Qed.

(** What a tree over the samples gives for its links. *)
Lemma tree_for_flat n E t :
  0 <= n -> tree_for n E t ->
  Z.of_nat (length E) = n - 1 /\ NoDup (parents E) /\
  Forall (fun p => n < p) (parents E) /\ NoDup (children_of E) /\
  (root_of t ∉ children_of E) /\
  (forall x, x ∈ nodes t <-> (1 <= x <= n \/ x ∈ parents E)) /\
  (forall x, x ∈ children_of E -> x ∈ nodes t).
Proof.
  intros Hn [Hl Hnd Hlv Hin].
  assert (Hnl : NoDup (leaves t) /\ NoDup (inner t)).
  { rewrite nodes_perm in Hnd. apply NoDup_app in Hnd. tauto. }
  destruct Hnl as [Hnl Hni].
  assert (Hleaves : leaves t ≡ₚ seqZ 1 n).
  { apply NoDup_Permutation; [done|apply NoDup_seqZ|].
    intros j. rewrite Hlv, elem_of_seqZ. lia. }
  pose proof (children_links_of t) as Hch.
  assert (HchE : root_of t :: children_of E ≡ₚ nodes t).
  { by rewrite Hl. }
  rewrite <- HchE in Hnd.
  apply NoDup_cons in Hnd as [Hroot Hndc].
  assert (HpE : parents E ≡ₚ inner t).
  { by rewrite Hl, parents_links_of. }
  split.
  { apply Permutation_length in Hleaves, HpE.
    rewrite leaves_length, length_seqZ in Hleaves.
    unfold parents in HpE. rewrite length_fmap in HpE. lia. }
  split; [by rewrite HpE|]. split; [by rewrite HpE|].
  split; [done|]. split; [done|]. split.
  - intros x. rewrite nodes_perm, elem_of_app, Hlv, HpE. done.
  - intros x Hx. rewrite <- HchE. by right.
Qed.

(** ** The tree of a set of links *)

Lemma tree_below_spec fuel C n v t :
  tree_below fuel C n v = Some t ->
  root_of t = v /\ tree_in C t /\ Forall (fun u => 1 <= u <= n) (leaves t).
Proof.
  revert v t. induction fuel as [|fuel IH]; intros v t; [done|].
  cbn [tree_below]. destruct (C !! v) as [[a b]|] eqn:HC.
  - intros Ht. apply bind_Some in Ht as (l & Hl & Ht).
    apply bind_Some in Ht as (r & Hr & Ht). injection Ht as <-.
    apply IH in Hl as (<- & Hl1 & Hl2). apply IH in Hr as (<- & Hr1 & Hr2).
    simpl. split; [done|]. split; [done|]. by apply Forall_app.
  - destruct ((1 <=? v) && (v <=? n)) eqn:Hv; [|done].
    intros [= <-]. simpl. split; [done|]. split; [done|].
    apply andb_true_iff in Hv. constructor; [lia|constructor].
Qed.

Lemma tree_in_links (E : list link) t :
  tree_in (children_dict E) t -> forall e, e ∈ links_of t -> e ∈ E.
Proof.
  induction t as [u|p l IHl r IHr]; simpl; [set_solver|].
  intros (Hp & Hl & Hr) e. rewrite elem_of_cons, elem_of_app.
  intros [->|[He|He]]; [|by apply IHl|by apply IHr].
  unfold children_dict in Hp. apply elem_of_list_to_map_2 in Hp.
  apply list_elem_of_fmap in Hp as ([ch q] & Heq & Hin). simpl in Heq.
  by injection Heq as <- <-.
Qed.

Lemma tree_of_sound n E t : tree_of n E = Some t -> tree_for n E t.
Proof.
  intros Ht.
  apply tree_of_Some in Ht
    as ((root & _ & Hb) & Hlen & Hndp & Hpn & Hndc & Hnd & Hlv & Hin).
  apply tree_below_spec in Hb as (_ & Htin & Hleaves).
  assert (Hni : NoDup (inner t)).
  { rewrite nodes_perm in Hnd. apply NoDup_app in Hnd. tauto. }
  assert (Hnl : NoDup (links_of t)).
  { apply (NoDup_fmap_1 snd). fold (parents (links_of t)).
    by rewrite parents_links_of. }
  assert (Hsub : links_of t ⊆+ E).
  { apply NoDup_submseteq; [done|]. by apply tree_in_links. }
  assert (Hsub' : parents E ⊆+ inner t).
  { apply NoDup_submseteq; [done|]. by apply Forall_forall. }
  assert (Hperm : links_of t ≡ₚ E).
  { apply submseteq_length_Permutation; [done|].
    apply submseteq_length in Hsub'.
    rewrite <- parents_links_of in Hsub'. unfold parents in Hsub'.
    by rewrite !length_fmap in Hsub'. }
  split; [done|done| |].
  - intros j. split.
    + rewrite Forall_forall in Hleaves. apply Hleaves.
    + intros Hj. rewrite Forall_forall in Hlv. apply Hlv.
      apply elem_of_seqZ. lia.
  - rewrite <- parents_links_of, Hperm. done.
Qed.

Lemma is_tree_sound n E : is_tree n E = true -> exists t, tree_for n E t.
Proof.
  intros Ht. apply is_tree_Some in Ht as [t Ht].
  exists t. by apply tree_of_sound.
Qed.

(** ** The diffs of a valid sequence form a valid stream *)

Lemma filter_iff_Forall {A} (P Q : A -> Prop) `{!forall y, Decision (P y)}
    `{!forall y, Decision (Q y)} (l : list A) :
  Forall (fun x => P x <-> Q x) l -> filter P l = filter Q l.
Proof.
  induction 1 as [|x l HPQ _ IH]; [done|].
  rewrite !filter_cons, IH.
  destruct (decide (P x)), (decide (Q x)); tauto.
Qed.

Lemma filter_split {A} (P Q R : A -> Prop) `{!forall y, Decision (P y)}
    `{!forall y, Decision (Q y)} `{!forall y, Decision (R y)} (l : list A) :
  Forall (fun x => (P x <-> Q x \/ R x) /\ ~ (Q x /\ R x)) l ->
  filter P l ≡ₚ filter Q l ++ filter R l.
Proof.
  induction 1 as [|x l [HP HQR] _ IH]; [done|].
  rewrite !filter_cons.
  destruct (decide (P x)), (decide (Q x)), (decide (R x)); try tauto.
  - simpl. by constructor.
  - rewrite IH. apply Permutation_middle.
Qed.

Lemma filter_none {A} (P : A -> Prop) `{!forall y, Decision (P y)} (l : list A) :
  Forall (fun x => ~ P x) l -> filter P l = [].
Proof.
  induction 1 as [|x l Hx _ IH]; [done|].
  by rewrite filter_cons_False.
Qed.

Section DiffsStream.
Context {F : Type} `{!Float F}.
Implicit Types (used : gmap Z (list (edge F))) (rin : list (edge F)).
Variables (n m : Z) (recs : list (record F)).
Hypothesis Hvalid : valid_records n m recs = true.

Lemma fst_edge_of (l : list (record F)) :
  fst <$> (edge_of <$> l) = link_of <$> l.
Proof. rewrite <- list_fmap_compose. done. Qed.

(** The yield that closes the run of the records with left [L]. *)
Lemma diffs_yield done rest L used rin E :
  recs = done ++ rest ->
  Forall (fun rec => r_left rec <= L) done ->
  Forall (fun rec => L < r_left rec) rest ->
  0 <= L < m ->
  rin = edge_of <$> filter (fun r => r_left r = L) done ->
  used_at used L = edge_of <$> filter (fun r => r_right r = L) done ->
  E ≡ₚ edge_of <$> filter (fun r => r_left r < L /\ L <= r_right r) done ->
  exists K t,
    E ≡ₚ used_at used L ++ K /\
    edge_of <$> filter (fun r => L < r_right r) done ≡ₚ K ++ rin /\
    tree_for n (fst <$> (edge_of <$> filter (fun r => L < r_right r) done)) t.
Proof.
  intros Hrecs Hdone Hrest HL -> Hused HE.
  destruct (valid_records_inv _ _ _ Hvalid) as (Hn & Hm & Hall & _ & Htree).
  assert (Hvd : Forall (fun r => 0 <= r_left r < r_right r /\ r_right r <= m)
                  done).
  { rewrite Hrecs in Hall. by apply Forall_app in Hall as [? _]. }
  exists (edge_of <$> filter (fun r => r_left r < L /\ L < r_right r) done).
  destruct (is_tree_sound _ _ (Htree L HL)) as [t Ht].
  exists t. split; [|split].
  - rewrite HE, Hused, <- fmap_app. apply fmap_Permutation.
    apply filter_split. eapply Forall_impl; [exact Hvd|].
    intros r Hr. simpl in *. lia.
  - rewrite <- fmap_app. apply fmap_Permutation.
    apply filter_split.
    rewrite Forall_forall in Hvd, Hdone. apply Forall_forall.
    intros r Hr. specialize (Hvd r Hr). specialize (Hdone r Hr).
    simpl in *. lia.
  - rewrite fst_edge_of. rewrite Hrecs, live_at_app in Ht by done.
    rewrite live_at_later, app_nil_r in Ht; [done|].
    eapply Forall_impl; [exact Hrest|]. intros r Hr. simpl in *. lia.
Qed.

(** The records that go on after the run at [L] are the ones live before
    the next left. *)
Lemma diffs_next_run done rec rest L :
  recs = done ++ rec :: rest ->
  Forall (fun rec => r_left rec <= L) done ->
  L < r_left rec ->
  filter (fun r => L < r_right r) done
  = filter (fun r => r_left r < r_left rec /\ r_left rec <= r_right r) done.
Proof.
  intros Hrecs Hdone Hlt.
  pose proof (lefts_sorted _ _ _ Hvalid) as Hsorted.
  rewrite Hrecs, fmap_app in Hsorted.
  apply StronglySorted_app in Hsorted as (Hle & _ & Hsr).
  rewrite fmap_cons in Hsr. apply StronglySorted_inv in Hsr as [_ Hsr].
  destruct (valid_records_inv _ _ _ Hvalid) as (_ & _ & Hall & _ & _).
  assert (Hrec : r_left rec < r_right rec /\ r_right rec <= m).
  { rewrite Forall_forall in Hall. specialize (Hall rec).
    lapply Hall; [lia|]. rewrite Hrecs. set_solver. }
  apply filter_iff_Forall. apply Forall_forall. intros r Hr.
  rewrite Forall_forall in Hdone. pose proof (Hdone r Hr) as Hd.
  simpl in Hd. split; [|lia]. intros Hright. split; [lia|].
  destruct (right_is_a_left _ _ _ Hvalid r) as [?|(r' & Hr' & Hleft)].
  { rewrite Hrecs. set_solver. }
  { lia. }
  rewrite Hrecs in Hr'. apply elem_of_app in Hr' as [Hr'|Hr'].
  - specialize (Hdone r' Hr'). simpl in Hdone. lia.
  - apply elem_of_cons in Hr' as [->|Hr']; [lia|].
    rewrite Forall_forall in Hsr.
    specialize (Hsr (r_left r')). lapply Hsr; [lia|].
    by apply list_elem_of_fmap_2.
Qed.

Lemma used_at_record_used used (done : list (record F)) rec l :
  l <= r_right rec ->
  (forall k, l <= k ->
     used_at used k = edge_of <$> filter (fun r => r_right r = k) done) ->
  forall k, l <= k ->
    used_at (record_used used rec) k
    = edge_of <$> filter (fun r => r_right r = k) (done ++ [rec]).
Proof.
  intros Hl Hused k Hk. unfold record_used, used_at at 1.
  rewrite filter_app, fmap_app, <- (Hused k Hk).
  destruct (decide (r_right rec = k)) as [Heq|Hne].
  - rewrite Heq, lookup_insert_eq. cbn [default].
    rewrite (filter_cons_True _ rec) by done. done.
  - rewrite lookup_insert_ne by done.
    rewrite filter_cons_False by done. by rewrite app_nil_r.
Qed.

Lemma diffs_loop_stream rest : forall done L used rin r E,
  recs = done ++ rest ->
  Forall (fun rec => r_left rec <= L) done ->
  Forall (fun rec => L <= r_left rec) rest ->
  0 <= L < m ->
  rin = edge_of <$> filter (fun r => r_left r = L) done ->
  (forall k, L <= k ->
     used_at used k = edge_of <$> filter (fun r => r_right r = k) done) ->
  E ≡ₚ edge_of <$> filter (fun r => r_left r < L /\ L <= r_right r) done ->
  diff_stream n E (diffs_loop rest L used rin r).1.
Proof.
  induction rest as [|rec rest IH];
    intros done L used rin r E Hrecs Hdone Hrest HL Hrin Hused HE.
  - destruct r as [r|]; [|constructor]. simpl.
    destruct (diffs_yield done [] L used rin E) as (K & t & HK & HE' & Ht);
      try done.
    { by apply Hused. }
    econstructor; [exact HK|exact HE'|exact Ht|constructor].
  - destruct (valid_records_inv _ _ _ Hvalid) as (_ & _ & Hall & _ & _).
    assert (Hrec : 0 <= r_left rec < r_right rec /\ r_right rec <= m).
    { rewrite Forall_forall in Hall. apply Hall. rewrite Hrecs. set_solver. }
    pose proof (lefts_sorted _ _ _ Hvalid) as Hsorted.
    rewrite Hrecs, fmap_app in Hsorted.
    apply StronglySorted_app in Hsorted as (_ & _ & Hsr).
    rewrite fmap_cons in Hsr. apply StronglySorted_inv in Hsr as [_ Hsr].
    rewrite Forall_fmap in Hsr.
    assert (Hrecs' : recs = (done ++ [rec]) ++ rest).
    { by rewrite <- app_assoc. }
    apply Forall_cons in Hrest as [HLrec Hrest].
    rewrite diffs_loop_cons.
    destruct (decide (r_left rec = L)) as [Heq|Hne].
    + apply (IH (done ++ [rec])); try done.
      * apply Forall_app. split; [by rewrite Heq|].
        constructor; [lia|constructor].
      * by rewrite Heq.
      * rewrite Hrin, Heq, filter_app, fmap_app.
        by rewrite (filter_cons_True _ rec) by done.
      * rewrite Heq. apply (used_at_record_used _ _ _ L); [lia|done].
      * rewrite Heq, filter_app.
        rewrite (filter_cons_False _ rec) by lia.
        by rewrite app_nil_r.
    + cbn [fst].
      assert (Hlt : Forall (fun r0 => L < r_left r0) (rec :: rest)).
      { constructor; [lia|]. eapply Forall_impl; [exact Hsr|].
        intros r0 Hr0. simpl in Hr0. lia. }
      destruct (diffs_yield done (rec :: rest) L used rin E)
        as (K & t & HK & HE' & Ht); try done.
      { by apply Hused. }
      assert (Hdone' : Forall (fun r0 => r_left r0 <= r_left rec) done).
      { eapply Forall_impl; [exact Hdone|]. intros r0 Hr0. simpl in Hr0. lia. }
      econstructor; [exact HK|exact HE'|exact Ht|].
      apply (IH (done ++ [rec])); try done.
      * apply Forall_app. split; [done|]. constructor; [lia|constructor].
      * lia.
      * rewrite filter_app, fmap_app.
        rewrite (filter_cons_True _ rec) by done.
        replace (filter (fun r0 => r_left r0 = r_left rec) done)
          with ([] : list (record F)); [done|].
        symmetry. apply filter_none.
        eapply Forall_impl; [exact Hdone|]. intros r0 Hr0. simpl in *. lia.
      * intros k Hk.
        apply (used_at_record_used _ _ _ (r_left rec)); [lia| |done].
        intros k' Hk'. rewrite <- Hused by lia. unfold used_at.
        by rewrite lookup_delete_ne by lia.
      * rewrite filter_app. rewrite (filter_cons_False _ rec) by lia.
        rewrite app_nil_r.
        by rewrite <- (diffs_next_run done rec rest L Hrecs Hdone) by lia.
Qed.

Lemma diffs_stream_valid_loop r :
  diff_stream n [] (diffs_loop recs 0 ∅ [] r).1.
Proof.
  destruct (valid_records_inv _ _ _ Hvalid) as (_ & Hm & Hall & _ & _).
  apply (diffs_loop_stream recs []); try done.
  - eapply Forall_impl; [exact Hall|]. intros r0 Hr0. simpl in *. lia.
  - lia.
Qed.

End DiffsStream.

Section BreaksStream.
Context {F : Type} `{!Float F}.
Variable b : list Z.

Lemma breaks_while_empties fuel : forall k x,
  Forall (fun y : delta F => y.1.2 = [] /\ y.2 = [])
    (@breaks_while F fuel b k x).1.
Proof.
  induction fuel as [|fuel IH]; intros k x; rewrite breaks_while_unfold;
    rewrite gen_bind_lift; destruct (index b k) as [bk|e]; try by constructor.
  - destruct (decide (bk = x)); by constructor.
  - destruct (decide (bk = x)); [by constructor|].
    rewrite gen_bind_lift. destruct (index b (S k)) as [bk'|e];
      [|by constructor].
    rewrite gen_bind_lift. destruct (index b (S k - 1)) as [bk1|e];
      [|by constructor].
    rewrite gen_bind_yield. constructor; [done|]. apply IH.
Qed.

Lemma diff_stream_empties n (E : list (edge F)) t empties ds :
  tree_for n (fst <$> E) t ->
  Forall (fun y : delta F => y.1.2 = [] /\ y.2 = []) empties ->
  diff_stream n E ds -> diff_stream n E (empties ++ ds).
Proof.
  intros Ht Hempties Hds.
  induction Hempties as [|[[len out] rin] empties [Hout Hrin] _ IH]; [done|].
  simpl in Hout, Hrin. subst out rin.
  apply (stream_step n E E E t); [done|by rewrite app_nil_r|done|done].
Qed.

Lemma gen_bind_fst {Y A B} (g : gen Y A) (k : A -> gen Y B) :
  (g ≫= k).1 = g.1 ++ match g.2 with Ok a => (k a).1 | Raise _ => [] end.
Proof.
  unfold mbind, gen_bind. destruct g as [ys [a|e]]; simpl.
  - by destruct (k a).
  - by rewrite app_nil_r.
Qed.

Lemma diffs_with_breaks_stream n (E : list (edge F)) ds :
  diff_stream n E ds ->
  forall k x, diff_stream n E (diffs_with_breaks_loop b ds k x).1.
Proof.
  induction 1 as [E|E K E' t len out rin ds HK HE' Ht Hds IH]; intros k x.
  { constructor. }
  rewrite diffs_with_breaks_loop_cons.
  rewrite gen_bind_lift. destruct (index b k) as [bk|e]; [|constructor].
  rewrite gen_bind_lift. destruct (index b (k - 1)) as [bk1|e]; [|constructor].
  rewrite gen_bind_yield. cbn [fst].
  apply (stream_step n E K E' t); try done.
  rewrite gen_bind_fst.
  apply (diff_stream_empties n E' t); [done|apply breaks_while_empties|].
  destruct (breaks_while _ _ _ _).2 as [j|e]; [apply IH|constructor].
Qed.

End BreaksStream.

(** The diffs of a valid tree sequence are a valid stream, with and without
    the breakpoints. *)
Lemma diffs_valid_stream {F} `{!Float F} (ts : TreeSequence F) all_breaks :
  valid_ts ts = true ->
  diff_stream (_sample_size ts) [] (diffs ts all_breaks).1.
Proof.
  intros Hvalid.
  assert (Hd : diff_stream (_sample_size ts) [] (_diffs ts).1).
  { by apply (diffs_stream_valid_loop _ (_num_loci ts)). }
  destruct all_breaks; [|done]. unfold diffs, _diffs_with_breaks.
  rewrite gen_bind_fst.
  replace (match _ with Ok a => _ | Raise _ => [] end)
    with ([] : list (delta F)).
  - rewrite app_nil_r. by apply diffs_with_breaks_stream.
  - destruct (diffs_with_breaks_loop _ _ _ _).2; [|done].
    by destruct (_diffs ts).2.
Qed.

(** ** The loops over the records *)

Lemma for_each_Ok {A S} (I : list A -> S -> Prop) (f : S -> A -> result S)
    l s :
  (forall x l' s, I (x :: l') s -> exists s', f s x = Ok s' /\ I l' s') ->
  I l s -> exists s', for_each f l s = Ok s' /\ I [] s'.
Proof.
  intros Hf. revert s. induction l as [|x l IH]; intros s Hs.
  { by exists s. }
  destruct (Hf x l s Hs) as (s1 & Hx & Hs1).
  destruct (IH s1 Hs1) as (s' & Hl & Hs').
  exists s'. split; [|done]. simpl. by rewrite Hx.
Qed.

Lemma getitem_dom {V} (d : gmap Z V) k :
  k ∈ dom d -> exists v, getitem d k = Ok v /\ d !! k = Some v.
Proof.
  intros [v Hv]%elem_of_dom. exists v. unfold getitem. by rewrite Hv.
Qed.

Lemma delitem_dom {V} (d : gmap Z V) k :
  k ∈ dom d -> delitem d k = Ok (delete k d).
Proof. intros [v Hv]%elem_of_dom. by eapply delitem_Some. Qed.

Lemma flat_perm n L L' : L ≡ₚ L' -> flat n L -> flat n L'.
Proof. intros HL (? & ? & ?). unfold flat. by rewrite <- HL. Qed.

Lemma flat_nil n : flat n [].
Proof. split; [constructor|]. split; constructor. Qed.

Lemma flat_cons_inv n e L :
  flat n (e :: L) ->
  flat n L /\ (e.2 ∉ parents L) /\ n < e.2 /\ e.1.1 ≠ e.1.2 /\
  (e.1.1 ∉ children_of L) /\ (e.1.2 ∉ children_of L).
Proof.
  intros (Hp & Hc & Hn). rewrite parents_cons in Hp, Hn.
  rewrite children_of_cons in Hc.
  apply NoDup_cons in Hp as [Hp1 Hp]. apply Forall_cons in Hn as [Hn1 Hn].
  apply NoDup_cons in Hc as [Hc1 Hc]. apply NoDup_cons in Hc as [Hc2 Hc].
  repeat split; try done; set_solver.
Qed.

Lemma flat_app_inv n L1 L2 : flat n (L1 ++ L2) -> flat n L1 /\ flat n L2.
Proof.
  intros (Hp & Hc & Hn). unfold parents in *.
  rewrite fmap_app in Hp, Hn. rewrite children_of_app in Hc.
  apply NoDup_app in Hp as (? & _ & ?). apply NoDup_app in Hc as (? & _ & ?).
  apply Forall_app in Hn as [? ?]. by repeat split.
Qed.

Lemma tree_for_is_flat n E t : 0 <= n -> tree_for n E t -> flat n E.
Proof.
  intros Hn Ht.
  destruct (tree_for_flat n E t Hn Ht) as (_ & ? & ? & ? & _). by repeat split.
Qed.

Lemma forest_doms_perm {VC VT VB} n (C : gmap Z VC) (T : gmap Z VT)
    (B : gmap Z VB) EC EC' EB EB' :
  EC ≡ₚ EC' -> EB ≡ₚ EB' ->
  forest_doms n C T B EC EB -> forest_doms n C T B EC' EB'.
Proof.
  intros HC HB [? ? ?]. split.
  - by rewrite <- HC.
  - by rewrite <- HC.
  - by rewrite <- HB.
Qed.

Section HaplotypeForest.
Context {F G : Type} `{!Float F} `{!Rng F G}.
Implicit Types (self : HaplotypeGenerator F G) (e : edge F).

Lemma hg_same_matrix_refl self : hg_same_matrix self self.
Proof. by repeat split. Qed.

Lemma hg_same_matrix_trans self1 self2 self3 :
  hg_same_matrix self1 self2 -> hg_same_matrix self2 self3 ->
  hg_same_matrix self1 self3.
Proof.
  intros (? & ? & ? & ? & ? & ?) (? & ? & ? & ? & ? & ?).
  repeat split; congruence.
Qed.

Lemma retire_edge_ok self e L :
  flat (hg_sample_size self) (e.1 :: L) ->
  hg_forest self (e.1 :: L) (e.1 :: L) ->
  exists self', retire_edge self e = Ok self' /\
    hg_forest self' L L /\ hg_same_matrix self self'.
Proof.
  destruct e as [[[c1 c2] p] t].
  destruct self as [seed rng nl n rate ns maxs total B C T H].
  intros Hflat [HC HT HB].
  cbn [hg_sample_size hg_children hg_time hg_branch_length fst snd] in *.
  apply flat_cons_inv in Hflat as (_ & Hp & Hn & Hc12 & Hc1 & Hc2).
  rewrite parents_cons in HC, HT.
  rewrite children_of_cons in HB. cbn [fst snd] in *.
  unfold retire_edge.
  cbn [hg_sample_size hg_children hg_time hg_branch_length
       hg_total_branch_length fst snd].
  rewrite (delitem_dom C) by set_solver.
  rewrite (delitem_dom T) by set_solver.
  cbn [mbind result_bind for_each fst snd].
  destruct (getitem_dom B c1) as (b1 & -> & _);
    [set_solver|].
  cbn [mbind result_bind for_each fst snd].
  rewrite (delitem_dom B) by set_solver.
  cbn [mbind result_bind for_each fst snd].
  destruct (getitem_dom (delete c1 B) c2) as (b2 & -> & _).
  { rewrite dom_delete_L. set_solver. }
  cbn [mbind result_bind for_each fst snd].
  rewrite (delitem_dom (delete c1 B)).
  2:{ rewrite dom_delete_L. set_solver. }
  cbn [mbind result_bind for_each fst snd].
  eexists. split; [done|]. split; [|by repeat split].
  assert (Hps : p ∉ seqZ 1 n).
  { rewrite elem_of_seqZ. lia. }
  split; simpl; rewrite ?dom_delete_L.
  - rewrite HC. set_solver.
  - rewrite HT. set_solver.
  - rewrite HB. set_solver.
Qed.

Lemma add_edge_ok self e EC EB :
  hg_forest self EC EB ->
  exists self', add_edge self e = Ok self' /\
    hg_forest self' (e.1 :: EC) EB /\ hg_same_matrix self self' /\
    hg_time self' !! e.1.2 = Some e.2.
Proof.
  destruct e as [[[c1 c2] p] t].
  destruct self as [seed rng nl n rate ns maxs total B C T H].
  intros [HC HT HB].
  cbn [hg_sample_size hg_children hg_time hg_branch_length fst snd] in *.
  eexists. split; [done|]. split; [|split; [by repeat split|]].
  - split; cbn [hg_sample_size hg_children hg_time hg_branch_length];
      rewrite ?parents_cons, ?dom_insert_L; cbn [fst snd].
    + rewrite HC. set_solver.
    + rewrite HT. set_solver.
    + done.
  - cbn [hg_time fst snd]. by rewrite lookup_insert_eq.
Qed.

Lemma add_branch_lengths_ok self e EC EB :
  hg_forest self EC EB ->
  e.1.1.1 ∈ dom (hg_time self) -> e.1.1.2 ∈ dom (hg_time self) ->
  exists self', add_branch_lengths self e = Ok self' /\
    hg_forest self' EC (e.1 :: EB) /\ hg_same_matrix self self' /\
    hg_time self' = hg_time self.
Proof.
  destruct e as [[[c1 c2] p] t].
  destruct self as [seed rng nl n rate ns maxs total B C T H].
  intros [HC HT HB] H1 H2.
  cbn [hg_sample_size hg_children hg_time hg_branch_length fst snd] in *.
  unfold add_branch_lengths. cbn [for_each fst snd hg_time].
  destruct (getitem_dom T c1 H1) as (t1 & -> & _).
  cbn [mbind result_bind hg_time].
  destruct (getitem_dom T c2 H2) as (t2 & -> & _).
  cbn [mbind result_bind hg_time].
  eexists. split; [done|]. split; [|split; [by repeat split|done]].
  split; cbn [hg_sample_size hg_children hg_time hg_branch_length
              hg_total_branch_length]; try done.
  rewrite children_of_cons, !dom_insert_L. cbn [fst snd].
  rewrite HB. set_solver.
Qed.

Lemma retire_loop_ok (out : list (edge F)) : forall self K,
  flat (hg_sample_size self) ((fst <$> out) ++ K) ->
  hg_forest self ((fst <$> out) ++ K) ((fst <$> out) ++ K) ->
  exists self', for_each retire_edge out self = Ok self' /\
    hg_forest self' K K /\ hg_same_matrix self self'.
Proof.
  induction out as [|e out IH]; intros self K Hflat Hf.
  { exists self. split; [done|]. split; [done|apply hg_same_matrix_refl]. }
  rewrite fmap_cons, <- app_comm_cons in Hflat, Hf.
  destruct (retire_edge_ok self e _ Hflat Hf) as (self1 & He & Hf1 & Hm1).
  pose proof Hm1 as (Hn & _).
  apply flat_cons_inv in Hflat as (Hflat & _).
  destruct (IH self1 K) as (self' & Hl & Hf' & Hm'); [by rewrite Hn|done|].
  exists self'. split; [|split; [done|by eapply hg_same_matrix_trans]].
  cbn [for_each]. by rewrite He.
Qed.

Lemma add_loop_ok (rin : list (edge F)) : forall self EC EB,
  hg_forest self EC EB ->
  exists self', for_each add_edge rin self = Ok self' /\
    hg_forest self' (EC ++ (fst <$> rin)) EB /\ hg_same_matrix self self'.
Proof.
  induction rin as [|e rin IH]; intros self EC EB Hf.
  { exists self. rewrite app_nil_r.
    split; [done|]. split; [done|apply hg_same_matrix_refl]. }
  destruct (add_edge_ok self e _ _ Hf) as (self1 & He & Hf1 & Hm1 & _).
  destruct (IH self1 _ _ Hf1) as (self' & Hl & Hf' & Hm').
  exists self'. split; [|split; [|by eapply hg_same_matrix_trans]].
  - cbn [for_each]. by rewrite He.
  - eapply forest_doms_perm; [|done|exact Hf'].
    rewrite fmap_cons. by rewrite <- Permutation_middle.
Qed.

Lemma add_branch_lengths_loop_ok (rin : list (edge F)) : forall self EC EB,
  hg_forest self EC EB ->
  (forall x, x ∈ children_of (fst <$> rin) -> x ∈ dom (hg_time self)) ->
  exists self', for_each add_branch_lengths rin self = Ok self' /\
    hg_forest self' EC (EB ++ (fst <$> rin)) /\ hg_same_matrix self self'.
Proof.
  induction rin as [|e rin IH]; intros self EC EB Hf Hch.
  { exists self. rewrite app_nil_r.
    split; [done|]. split; [done|apply hg_same_matrix_refl]. }
  rewrite fmap_cons, children_of_cons in Hch.
  destruct (add_branch_lengths_ok self e _ _ Hf)
    as (self1 & He & Hf1 & Hm1 & HT); [set_solver|set_solver|].
  destruct (IH self1 _ _ Hf1) as (self' & Hl & Hf' & Hm').
  { intros x Hx. rewrite HT. set_solver. }
  exists self'. split; [|split; [|by eapply hg_same_matrix_trans]].
  - cbn [for_each]. by rewrite He.
  - eapply forest_doms_perm; [done| |exact Hf'].
    rewrite fmap_cons. by rewrite <- Permutation_middle.
Qed.

(** The three loops of [_generate_haplotypes] on an item of a valid
    stream. *)
Lemma hg_update_ok self (E K E' out rin : list (edge F)) t :
  let n := hg_sample_size self in
  0 <= n -> flat n (fst <$> E) ->
  hg_forest self (fst <$> E) (fst <$> E) ->
  E ≡ₚ out ++ K -> E' ≡ₚ K ++ rin -> tree_for n (fst <$> E') t ->
  exists self1 self2 self3,
    for_each retire_edge out self = Ok self1 /\
    for_each add_edge rin self1 = Ok self2 /\
    for_each add_branch_lengths rin self2 = Ok self3 /\
    hg_forest self3 (fst <$> E') (fst <$> E') /\
    hg_same_matrix self self3.
Proof.
  intros n Hn Hflat Hf HE HE' Ht.
  assert (HEl : fst <$> E ≡ₚ (fst <$> out) ++ (fst <$> K)).
  { by rewrite HE, fmap_app. }
  assert (HEl' : (fst <$> K) ++ (fst <$> rin) ≡ₚ fst <$> E').
  { by rewrite HE', fmap_app. }
  destruct (retire_loop_ok out self (fst <$> K)) as (self1 & H1 & Hf1 & Hm1).
  { by eapply flat_perm. }
  { by eapply forest_doms_perm. }
  destruct (add_loop_ok rin self1 _ _ Hf1) as (self2 & H2 & Hf2 & Hm2).
  pose proof (hg_same_matrix_trans _ _ _ Hm1 Hm2) as Hm12.
  pose proof Hm12 as (Hn2 & _).
  destruct (tree_for_flat n _ t Hn Ht) as (_ & _ & _ & _ & _ & Hnodes & Hch).
  destruct (add_branch_lengths_loop_ok rin self2 _ _ Hf2)
    as (self3 & H3 & Hf3 & Hm3).
  { intros x Hx. destruct Hf2 as [_ HT _]. rewrite HT, Hn2. fold n.
    rewrite HEl'. rewrite elem_of_union, !elem_of_list_to_set, elem_of_seqZ.
    assert (Hx' : x ∈ children_of (fst <$> E')).
    { rewrite <- HEl', children_of_app. set_solver. }
    apply Hch, Hnodes in Hx'. destruct Hx'; [left; lia|by right]. }
  exists self1, self2, self3. repeat (split; [done|]).
  split; [|by eapply hg_same_matrix_trans].
  eapply forest_doms_perm; [exact HEl'|exact HEl'|]. exact Hf3.
Qed.

(** *** No mutation rate, no mutations *)

Section ZeroRate.
Variable zero : F -> Prop.
Hypothesis zero_mul_l : forall x y, zero x -> zero (fmul x y).
Hypothesis zero_mul_r : forall x y, zero y -> zero (fmul x y).
Hypothesis zero_div : forall x y, zero x -> zero (fdiv x y).
Hypothesis zero_poisson : forall (g : G) mu, zero mu -> (poisson g mu).1 = 0.

Lemma generate_step_zero self branches probabilities (E K E' out rin : list (edge F))
    t len :
  let n := hg_sample_size self in
  zero (hg_scaled_mutation_rate self) ->
  0 <= n -> flat n (fst <$> E) ->
  hg_forest self (fst <$> E) (fst <$> E) ->
  E ≡ₚ out ++ K -> E' ≡ₚ K ++ rin -> tree_for n (fst <$> E') t ->
  exists self',
    generate_step (self, branches, probabilities) (len, out, rin)
    = Ok (self', branches, probabilities) /\
    hg_forest self' (fst <$> E') (fst <$> E') /\
    hg_same_matrix self self'.
Proof.
  intros n Hz Hn Hflat Hf HE HE' Ht.
  destruct (hg_update_ok self E K E' out rin t Hn Hflat Hf HE HE' Ht)
    as (self1 & self2 & self3 & H1 & H2 & H3 & Hf3 & Hm3).
  unfold generate_step. rewrite H1. cbn [mbind result_bind].
  rewrite H2. cbn [mbind result_bind]. rewrite H3. cbn [mbind result_bind].
  pose proof Hm3 as (Hn3 & Hl3 & Hr3 & Hs3 & Hx3 & Hh3).
  match goal with |- context [poisson ?g ?mu] =>
    pose proof (zero_poisson g mu) as Hp;
    destruct (poisson g mu) as [num rng'] end.
  cbn [fst] in Hp. rewrite Hp.
  2:{ apply zero_div, zero_mul_l, zero_mul_r. by rewrite Hr3. }
  rewrite decide_False by lia.
  eexists. split; [done|]. split.
  - destruct Hf3 as [? ? ?]. by split.
  - by repeat split.
Qed.

Lemma generate_loop_zero n (E : list (edge F)) ds :
  diff_stream n E ds ->
  forall self branches probabilities,
  hg_sample_size self = n ->
  zero (hg_scaled_mutation_rate self) ->
  0 <= n -> flat n (fst <$> E) ->
  hg_forest self (fst <$> E) (fst <$> E) ->
  exists self',
    for_each generate_step ds (self, branches, probabilities)
    = Ok (self', branches, probabilities) /\
    hg_same_matrix self self'.
Proof.
  induction 1 as [E|E K E' t len out rin ds HK HE' Ht Hds IH];
    intros self branches probabilities Hself Hz Hn Hflat Hf.
  { exists self. split; [done|apply hg_same_matrix_refl]. }
  subst n.
  destruct (generate_step_zero self branches probabilities E K E' out rin t
              len Hz Hn Hflat Hf HK HE' Ht) as (self1 & H1 & Hf1 & Hm1).
  pose proof Hm1 as (Hn1 & _ & Hr1 & _).
  destruct (IH self1 branches probabilities) as (self' & Hl & Hm'); try done.
  { by rewrite Hr1. }
  { by eapply tree_for_is_flat. }
  exists self'. split; [|by eapply hg_same_matrix_trans].
  cbn [for_each]. by rewrite H1.
Qed.

Lemma zeros_rows rows cols :
  Forall (fun row => row = replicate (Z.to_nat cols) "0"%char)
    (zeros rows cols).
Proof. unfold zeros. by apply Forall_replicate. Qed.

Lemma zero_rate_generator (ts : TreeSequence F) rate random_seed randint
    entropy :
  valid_ts ts = true -> zero rate ->
  exists g,
    HaplotypeGenerator_init ts rate random_seed randint entropy = Ok g /\
    hg_num_segregating_sites g = 0 /\
    hg_haplotype g = zeros (_sample_size ts) (_num_loci ts).
Proof.
  intros Hvalid Hz.
  pose proof (diffs_valid_stream ts false Hvalid) as Hds.
  destruct (diffs_valid_total ts Hvalid) as [Hend _].
  destruct (valid_records_inv _ _ _ Hvalid) as (Hn & _).
  unfold HaplotypeGenerator_init, _generate_haplotypes.
  set (self := HaplotypeGenerator_fields ts rate random_seed randint entropy).
  destruct (generate_loop_zero _ _ _ Hds self
              (replicate (Z.to_nat (2 * hg_sample_size self - 2)) 0)
              (replicate (Z.to_nat (2 * hg_sample_size self - 2)) fzero))
    as (g & Hg & Hm); try done.
  { lia. }
  { apply flat_nil. }
  { split; cbn.
    - by rewrite dom_empty_L.
    - rewrite samples_dict_dom. set_solver.
    - by rewrite dom_empty_L. }
  exists g. rewrite Hg. cbn [mbind result_bind diffs].
  rewrite Hend. cbn [mbind result_bind fst].
  destruct Hm as (_ & _ & _ & Hs & _ & Hh). by rewrite Hs, Hh.
Qed.

End ZeroRate.
End HaplotypeForest.

(** C6. For a valid tree sequence, a [HaplotypeGenerator] built with a
    mutation rate that is zero is built without an exception, reports no
    segregating site, yields an empty row for every sample from
    [haplotypes] and the empty string from [haplotype_strings], and every
    cell of its matrix is ["0"].  The arithmetic enters through what it
    does with zero: a product with a zero factor and a quotient of zero
    are zero, and a Poisson draw with mean zero is [0]. *)
Theorem zero_rate_gives_no_segregating_sites {F G} `{!Float F} `{!Rng F G}
    (zero : F -> Prop) (ts : TreeSequence F) (rate : F)
    (random_seed : option Z) (randint entropy : Z) :
  (forall x y, zero x -> zero (fmul x y)) ->
  (forall x y, zero y -> zero (fmul x y)) ->
  (forall x y, zero x -> zero (fdiv x y)) ->
  (forall (g : G) mu, zero mu -> (poisson g mu).1 = 0) ->
  valid_ts ts = true -> zero rate ->
  exists g,
    HaplotypeGenerator_init ts rate random_seed randint entropy = Ok g /\
    get_num_segregating_sites g = 0 /\
    Z.of_nat (length (haplotypes g)) = _sample_size ts /\
    Forall (fun row => row = []) (haplotypes g) /\
    Forall (fun s => s = EmptyString) (haplotype_strings g) /\
    Forall (Forall (fun x => x = "0"%char)) (hg_haplotype g).
Proof.
  intros H1 H2 H3 H4 Hvalid Hz.
  destruct (zero_rate_generator zero H1 H2 H3 H4 ts rate random_seed randint
              entropy Hvalid Hz) as (g & Hg & Hs & Hh).
  destruct (valid_records_inv _ _ _ Hvalid) as (Hn & _).
  exists g. split; [done|]. split; [done|].
  unfold haplotype_strings, haplotypes. rewrite Hs, Hh. unfold zeros.
  split; [|split; [|split]].
  - rewrite length_fmap, length_replicate. lia.
  - apply Forall_fmap, Forall_replicate. done.
  - rewrite <- list_fmap_compose. apply Forall_fmap, Forall_replicate. done.
  - apply Forall_replicate, Forall_replicate. done.
Qed.

Lemma zero_rate_gives_no_segregating_sites_witness :
  valid_ts two_trees = true /\
  exists g,
    HaplotypeGenerator_init two_trees 0 (Some 1) 7 11 = Ok g /\
    get_num_segregating_sites g = 0 /\
    Z.of_nat (length (haplotypes g)) = _sample_size two_trees /\
    Forall (fun row => row = []) (haplotypes g) /\
    Forall (fun s => s = EmptyString) (haplotype_strings g) /\
    Forall (Forall (fun x => x = "0"%char)) (hg_haplotype g).
Proof.
  split; [by vm_compute|].
  apply (zero_rate_gives_no_segregating_sites (fun x : Z => x = 0)).
  - intros x y ->. reflexivity.
  - intros x y ->. apply Z.mul_0_r.
  - intros x y ->. reflexivity.
  - intros g mu ->. reflexivity.
  - by vm_compute.
  - reflexivity.
Defined.

(** ** The mutations of the haplotype matrix *)

Lemma mark_rows_length us j H : length (mark_rows us j H) = length H.
Proof. unfold mark_rows. by rewrite length_imap. Qed.

Lemma mark_rows_lookup us j H i :
  mark_rows us j H !! i
  = (fun row => if decide (Z.of_nat i + 1 ∈ us) then <[j := "1"%char]> row
                else row) <$> H !! i.
Proof. unfold mark_rows. by rewrite list_lookup_imap. Qed.

Lemma mark_rows_cols us j H (k : Z) :
  Forall (fun row => Z.of_nat (length row) = k) H ->
  Forall (fun row => Z.of_nat (length row) = k) (mark_rows us j H).
Proof.
  rewrite !Forall_lookup. intros HH i row. rewrite mark_rows_lookup.
  destruct (H !! i) as [row0|] eqn:Hi; [|done]. intros [= <-].
  specialize (HH i row0 Hi). simpl in HH.
  destruct (decide _); [|done]. by rewrite length_insert.
Qed.

Lemma mark_rows_app us1 us2 j H :
  mark_rows us1 j (mark_rows us2 j H) = mark_rows (us1 ++ us2) j H.
Proof.
  apply list_eq. intros i. rewrite !mark_rows_lookup.
  destruct (H !! i) as [row|]; [|done]. simpl. f_equal.
  destruct (decide (Z.of_nat i + 1 ∈ us1)) as [H1|H1];
    destruct (decide (Z.of_nat i + 1 ∈ us2)) as [H2|H2];
    destruct (decide (Z.of_nat i + 1 ∈ us1 ++ us2)) as [H3|H3];
    try done; try (exfalso; set_solver).
  by rewrite list_insert_insert_eq.
Qed.

Lemma setitem2_mark H (u ns k : Z) :
  1 <= u <= Z.of_nat (length H) -> 0 <= ns < k ->
  Forall (fun row => Z.of_nat (length row) = k) H ->
  setitem2 H (u - 1) ns "1"%char = Ok (mark_rows [u] (Z.to_nat ns) H).
Proof.
  intros Hu Hns Hcols. unfold setitem2, axis_index.
  replace ((0 <=? u - 1) && (u - 1 <? Z.of_nat (length H))) with true.
  2:{ symmetry. apply andb_true_iff. split; lia. }
  cbn [mbind result_bind].
  destruct (lookup_lt_is_Some_2 H (Z.to_nat (u - 1))) as [row Hrow]; [lia|].
  rewrite Hrow.
  rewrite Forall_lookup in Hcols. specialize (Hcols _ _ Hrow).
  simpl in Hcols. rewrite Hcols.
  replace ((0 <=? ns) && (ns <? k)) with true.
  2:{ symmetry. apply andb_true_iff. split; lia. }
  cbn [mbind result_bind]. f_equal.
  apply list_eq. intros i. rewrite mark_rows_lookup.
  destruct (decide (i = Z.to_nat (u - 1))) as [->|Hne].
  - rewrite list_lookup_insert_eq by (by eapply lookup_lt_Some).
    rewrite Hrow. simpl. rewrite decide_True; [done|].
    apply list_elem_of_singleton. lia.
  - rewrite list_lookup_insert_ne by done.
    destruct (H !! i) as [row'|]; [|done]. simpl.
    rewrite decide_False; [done|]. rewrite list_elem_of_singleton. lia.
Qed.

Lemma nodes_length t : length (nodes t) = (2 * length (inner t) + 1)%nat.
Proof.
  pose proof (nodes_perm t) as Hp. apply Permutation_length in Hp.
  rewrite length_app, leaves_length in Hp. lia.
Qed.

Lemma tree_in_inner_dom C t x : tree_in C t -> x ∈ inner t -> x ∈ dom C.
Proof.
  induction t as [u|p l IHl r IHr]; simpl; [set_solver|].
  intros (Hp & Hl & Hr). rewrite elem_of_cons, elem_of_app.
  intros [->|[Hx|Hx]]; [|by apply IHl|by apply IHr].
  apply elem_of_dom. eauto.
Qed.

Lemma inner_bound C t :
  tree_in C t -> NoDup (inner t) -> (length (inner t) <= size C)%nat.
Proof.
  intros Ht Hnd. rewrite <- size_dom.
  rewrite <- (size_list_to_set (C := gset Z) (inner t)) by done.
  apply subseteq_size. intros x Hx. rewrite elem_of_list_to_set in Hx.
  by eapply tree_in_inner_dom.
Qed.

Section Mutations.
Context {F G : Type} `{!Float F} `{!Rng F G}.
Implicit Types (self : HaplotypeGenerator F G) (H : list (list ascii)).

(** The loop over the stack, when a tree is on the top of it: the tree is
    gone from the stack and its leaves are marked. *)
Lemma mark_leaves_tree self t : forall stack fuel H,
  tree_in (hg_children self) t ->
  Forall (fun u => 1 <= u <= hg_sample_size self) (leaves t) ->
  Forall (fun p => hg_sample_size self < p) (inner t) ->
  Z.of_nat (length H) = hg_sample_size self ->
  0 <= hg_num_segregating_sites self < hg_max_segregating_sites self ->
  Forall (fun row => Z.of_nat (length row) = hg_max_segregating_sites self)
    H ->
  mark_leaves (length (nodes t) + fuel) self (root_of t :: stack) H
  = mark_leaves fuel self stack
      (mark_rows (leaves t) (Z.to_nat (hg_num_segregating_sites self)) H).
Proof.
  induction t as [u|p l IHl r IHr];
    intros stack fuel H Ht Hlv Hin Hrows Hns Hcols.
  - cbn [nodes leaves root_of length Nat.add mark_leaves].
    apply Forall_cons in Hlv as [Hu _]. rewrite decide_True by lia.
    rewrite (setitem2_mark H u _ (hg_max_segregating_sites self)); [done| |done|done].
    lia.
  - cbn [nodes leaves inner root_of tree_in] in *.
    destruct Ht as (Hp & Htl & Htr).
    apply Forall_app in Hlv as [Hlvl Hlvr].
    apply Forall_cons in Hin as [Hpn Hin].
    apply Forall_app in Hin as [Hinl Hinr].
    cbn [length Nat.add mark_leaves]. rewrite decide_False by lia.
    unfold getitem. rewrite Hp. cbn [mbind result_bind fst snd].
    rewrite length_app.
    replace (length (nodes l) + length (nodes r) + fuel)%nat
      with (length (nodes r) + (length (nodes l) + fuel))%nat by lia.
    rewrite IHr by done.
    rewrite IHl; try done.
    + by rewrite mark_rows_app.
    + by rewrite mark_rows_length.
    + by apply mark_rows_cols.
Qed.

Lemma mark_leaves_nil fuel self H : mark_leaves fuel self [] H = Ok H.
Proof. by destruct fuel. Qed.

Lemma cell_in_range self i j :
  hg_matrix_ok self ->
  0 <= i < hg_sample_size self -> 0 <= j < hg_max_segregating_sites self ->
  is_Some (cell self i j).
Proof.
  intros [_ Hrows Hcols _] Hi Hj. unfold cell.
  destruct (lookup_lt_is_Some_2 (hg_haplotype self) (Z.to_nat i))
    as [row Hrow]; [lia|].
  rewrite Hrow. cbn [mbind option_bind].
  rewrite Forall_lookup in Hcols. specialize (Hcols _ _ Hrow).
  simpl in Hcols. apply lookup_lt_is_Some_2. lia.
Qed.

Lemma hg_fresh_cell self i j x :
  hg_matrix_ok self ->
  hg_num_segregating_sites self <= j -> cell self i j = Some x ->
  x = "0"%char.
Proof.
  intros [Hs _ _ Hfresh] Hj. unfold cell.
  destruct (hg_haplotype self !! Z.to_nat i) as [row|] eqn:Hrow; [|done].
  cbn [mbind option_bind]. intros Hx.
  rewrite Forall_lookup in Hfresh. specialize (Hfresh _ _ Hrow).
  simpl in Hfresh. rewrite Forall_lookup in Hfresh.
  apply (Hfresh (Z.to_nat j - Z.to_nat (hg_num_segregating_sites self))%nat).
  rewrite lookup_drop. rewrite <- Hx. f_equal. lia.
Qed.

Lemma cell_set_haplotype self ns maxs H i j :
  cell (set_haplotype self ns maxs H) i j
  = H !! Z.to_nat i ≫= fun row => row !! Z.to_nat j.
Proof. done. Qed.

Lemma cell_mark_rows_other us c H (i j : nat) :
  j ≠ c \/ Z.of_nat i + 1 ∉ us ->
  (mark_rows us c H !! i ≫= fun row => row !! j)
  = (H !! i ≫= fun row => row !! j).
Proof.
  intros Hor. rewrite mark_rows_lookup.
  destruct (H !! i) as [row|]; [|done]. cbn [fmap option_fmap option_map
    mbind option_bind].
  destruct (decide _) as [Hin|Hin]; [|done].
  destruct Hor as [Hne|Hnin]; [|done].
  by rewrite list_lookup_insert_ne.
Qed.

Lemma cell_mark_rows_marked us c H (i : nat) row :
  Z.of_nat i + 1 ∈ us -> H !! i = Some row -> (c < length row)%nat ->
  (mark_rows us c H !! i ≫= fun row => row !! c) = Some "1"%char.
Proof.
  intros Hin Hrow Hc. rewrite mark_rows_lookup, Hrow.
  cbn [fmap option_fmap option_map mbind option_bind].
  rewrite decide_True by done. by rewrite list_lookup_insert_eq.
Qed.

Lemma subtree_at_ext self self' v t :
  hg_children self' = hg_children self ->
  hg_sample_size self' = hg_sample_size self ->
  subtree_at self v t -> subtree_at self' v t.
Proof. intros HC Hn [? ? ? ? ?]. split; rewrite ?HC, ?Hn; done. Qed.

(** One mutation, on the branch above [v]. *)
Lemma apply_rare_mutation_ok self v t :
  hg_matrix_ok self ->
  hg_num_segregating_sites self < hg_max_segregating_sites self ->
  subtree_at self v t ->
  apply_rare_mutation self v
  = Ok (set_haplotype self (hg_num_segregating_sites self + 1)
          (hg_max_segregating_sites self)
          (mark_rows (leaves t) (Z.to_nat (hg_num_segregating_sites self))
             (hg_haplotype self))).
Proof.
  intros [Hs Hrows Hcols _] Hlt [Hroot Ht Hlv Hin Hnd].
  unfold apply_rare_mutation.
  assert (Hfuel : (length (nodes t) <= 2 * size (hg_children self) + 1)%nat).
  { rewrite nodes_length.
    assert (Hni : NoDup (inner t)).
    { rewrite nodes_perm in Hnd. apply NoDup_app in Hnd. tauto. }
    pose proof (inner_bound _ _ Ht Hni). lia. }
  replace (2 * size (hg_children self) + 1)%nat
    with (length (nodes t)
          + (2 * size (hg_children self) + 1 - length (nodes t)))%nat by lia.
  rewrite <- Hroot, mark_leaves_tree; try done; [|lia].
  by rewrite mark_leaves_nil.
Qed.

Lemma rare_mutations_ok branches : forall trees self,
  hg_matrix_ok self ->
  hg_num_segregating_sites self + Z.of_nat (length branches)
    <= hg_max_segregating_sites self ->
  Forall2 (subtree_at self) branches trees ->
  exists self',
    _apply_rare_mutations self branches = Ok self' /\
    hg_matrix_ok self' /\
    hg_num_segregating_sites self'
      = hg_num_segregating_sites self + Z.of_nat (length branches) /\
    hg_max_segregating_sites self' = hg_max_segregating_sites self /\
    (forall (k : nat) t, trees !! k = Some t ->
     forall u, 1 <= u <= hg_sample_size self ->
       cell self' (u - 1) (hg_num_segregating_sites self + Z.of_nat k)
       = Some (if decide (u ∈ leaves t) then "1" else "0")%char) /\
    (forall i j, 0 <= j < hg_num_segregating_sites self ->
       cell self' i j = cell self i j).
Proof.
  induction branches as [|v branches IH]; intros trees self Hok Hlen Htrees.
  { apply Forall2_nil_inv_l in Htrees as ->. exists self.
    split; [done|]. split; [done|]. split; [simpl; lia|]. split; [done|].
    split; [done|done]. }
  apply Forall2_cons_inv_l in Htrees as (t & trees' & Ht & Htrees & ->).
  cbn [length] in Hlen.
  pose proof Hok as [Hs Hrows Hcols Hfresh].
  pose proof (fun i j x => hg_fresh_cell self i j x Hok) as Hfreshc.
  unfold _apply_rare_mutations. cbn [for_each].
  rewrite (apply_rare_mutation_ok self v t) by (done || lia).
  cbn [mbind result_bind].
  set (ns := hg_num_segregating_sites self) in *.
  set (H1 := mark_rows (leaves t) (Z.to_nat ns) (hg_haplotype self)).
  set (self1 := set_haplotype self (ns + 1) (hg_max_segregating_sites self)
                  H1).
  assert (Hok1 : hg_matrix_ok self1).
  { split.
    - cbn. fold ns. lia.
    - cbn. unfold H1. by rewrite mark_rows_length.
    - cbn. unfold H1. by apply mark_rows_cols.
    - cbn. unfold H1. apply Forall_lookup. intros i row.
      rewrite mark_rows_lookup.
      destruct (hg_haplotype self !! i) as [row0|] eqn:Hrow0; [|done].
      intros [= <-]. rewrite Forall_lookup in Hfresh.
      specialize (Hfresh _ _ Hrow0). simpl in Hfresh. fold ns in Hfresh.
      assert (Hd : Forall (fun x => x = "0"%char)
                     (drop (Z.to_nat (ns + 1)) row0)).
      { replace (Z.to_nat (ns + 1)) with (Z.to_nat ns + 1)%nat by lia.
        rewrite <- drop_drop. by apply Forall_drop. }
      destruct (decide _); [|done].
      rewrite drop_insert_lt by (fold ns in Hs; lia). done. }
  destruct (IH trees' self1 Hok1) as (self' & Hl & Hok' & Hns' & Hmax' & Hcells & Hold).
  { cbn. lia. }
  { eapply Forall2_impl; [exact Htrees|].
    intros v' t'. by apply subtree_at_ext. }
  exists self'. split; [exact Hl|]. split; [done|].
  split; [rewrite Hns'; cbn; lia|]. split; [by rewrite Hmax'|].
  split.
  - intros [|k] t' Hk u Hu.
    + cbn in Hk. injection Hk as <-.
      rewrite Z.add_0_r, Hold by (cbn; lia).
      unfold self1. rewrite cell_set_haplotype. unfold H1.
      destruct (cell_in_range self (u - 1) ns Hok) as [x Hx]; [lia|lia|].
      pose proof (Hfreshc (u - 1) ns x ltac:(fold ns; lia) Hx) as ->.
      unfold cell in Hx.
      destruct (hg_haplotype self !! Z.to_nat (u - 1)) as [row|] eqn:Hrow;
        [|done].
      cbn [mbind option_bind] in Hx.
      destruct (decide (u ∈ leaves t)) as [Hin|Hnin].
      * eapply cell_mark_rows_marked; [|done|by eapply lookup_lt_Some].
        replace (Z.of_nat (Z.to_nat (u - 1)) + 1) with u by lia. done.
      * rewrite cell_mark_rows_other.
        { by rewrite Hrow. }
        right. by replace (Z.of_nat (Z.to_nat (u - 1)) + 1) with u by lia.
    + cbn in Hk. specialize (Hcells k t' Hk u Hu). cbn in Hcells.
      replace (ns + Z.of_nat (S k)) with (ns + 1 + Z.of_nat k) by lia.
      done.
  - intros i j Hj. rewrite Hold by (cbn; lia).
    unfold self1. rewrite cell_set_haplotype. unfold H1.
    rewrite cell_mark_rows_other by lia. done.
Qed.

(** The matrix after it has grown. *)
Lemma grow_ok self maxs :
  hg_matrix_ok self -> hg_max_segregating_sites self <= maxs ->
  let self' :=
    set_haplotype self (hg_num_segregating_sites self) maxs
      ((fun row => row ++
          replicate (Z.to_nat (maxs - hg_max_segregating_sites self))
            "0"%char) <$> hg_haplotype self) in
  hg_matrix_ok self' /\
  forall i j, 0 <= j < hg_max_segregating_sites self ->
    cell self' i j = cell self i j.
Proof.
  intros [Hs Hrows Hcols Hfresh] Hmax self'. split; [split|].
  - cbn. lia.
  - cbn. by rewrite length_fmap.
  - cbn. apply Forall_fmap. eapply Forall_impl; [exact Hcols|].
    intros row Hrow. simpl in *. rewrite length_app, length_replicate. lia.
  - cbn. apply Forall_fmap. eapply Forall_impl; [exact Hfresh|].
    intros row Hrow. simpl in *. rewrite drop_app. apply Forall_app.
    split; [done|]. apply Forall_drop, Forall_replicate. done.
  - intros i j Hj. unfold self'. rewrite cell_set_haplotype. unfold cell.
    rewrite list_lookup_fmap.
    destruct (hg_haplotype self !! Z.to_nat i) as [row|] eqn:Hrow; [|done].
    cbn [fmap option_fmap option_map mbind option_bind].
    rewrite Forall_lookup in Hcols. specialize (Hcols _ _ Hrow).
    simpl in Hcols. apply lookup_app_l. lia.
Qed.

Lemma apply_mutations_ok self branches trees :
  hg_matrix_ok self ->
  Forall2 (subtree_at self) branches trees ->
  exists self',
    _apply_mutations self branches = Ok self' /\
    hg_matrix_ok self' /\
    hg_num_segregating_sites self'
      = hg_num_segregating_sites self + Z.of_nat (length branches) /\
    (forall (k : nat) t, trees !! k = Some t ->
     forall u, 1 <= u <= hg_sample_size self ->
       cell self' (u - 1) (hg_num_segregating_sites self + Z.of_nat k)
       = Some (if decide (u ∈ leaves t) then "1" else "0")%char) /\
    (forall i j, 0 <= j < hg_num_segregating_sites self ->
       cell self' i j = cell self i j).
Proof.
  intros Hok Htrees. pose proof Hok as [Hs _ _ _].
  unfold _apply_mutations.
  destruct (decide (_ >= _)) as [Hge|Hlt].
  - set (maxs := Z.max _ _).
    destruct (grow_ok self maxs Hok) as [Hokg Hcellg]; [unfold maxs; lia|].
    destruct (rare_mutations_ok branches trees _ Hokg)
      as (self' & Hr & Hok' & Hns & _ & Hcells & Hold).
    { cbn. unfold maxs. lia. }
    { eapply Forall2_impl; [exact Htrees|].
      intros v t. by apply subtree_at_ext. }
    exists self'. split; [exact Hr|]. split; [done|]. split; [exact Hns|].
    split; [exact Hcells|].
    intros i j Hj. rewrite Hold by (cbn; lia). apply Hcellg. lia.
  - destruct (rare_mutations_ok branches trees _ Hok)
      as (self' & Hr & Hok' & Hns & _ & Hcells & Hold); [lia|done|].
    exists self'. split; [exact Hr|]. split; [done|]. split; [exact Hns|].
    split; [exact Hcells|exact Hold].
Qed.

End Mutations.

(** C5. The mutations that [_apply_mutations] puts on the branches above
    the nodes [branches], in a generator whose matrix is in order and
    where [trees] are the trees below these nodes: the call returns, the
    [k]th mutation has the column [num_segregating_sites + k] for itself,
    in this column the row of a sample holds ["1"] when the sample is a
    leaf of the tree below the [k]th node and ["0"] otherwise, and the
    columns of the mutations before the call are as they were. *)
Theorem mutation_marks_the_leaves_below {F G} `{!Float F} `{!Rng F G}
    (self : HaplotypeGenerator F G) (branches : list Z) (trees : list tree) :
  hg_matrix_ok self ->
  Forall2 (subtree_at self) branches trees ->
  exists self',
    _apply_mutations self branches = Ok self' /\
    hg_matrix_ok self' /\
    hg_num_segregating_sites self'
      = hg_num_segregating_sites self + Z.of_nat (length branches) /\
    (forall (k : nat) t, trees !! k = Some t ->
     forall u, 1 <= u <= hg_sample_size self ->
       cell self' (u - 1) (hg_num_segregating_sites self + Z.of_nat k)
       = Some (if decide (u ∈ leaves t) then "1" else "0")%char) /\
    (forall i j, 0 <= j < hg_num_segregating_sites self ->
       cell self' i j = cell self i j).
Proof. apply apply_mutations_ok. Qed.

Lemma mutation_marks_the_leaves_below_witness :
  hg_matrix_ok one_site /\
  Forall2 (subtree_at one_site) [4; 3] [Node 4 (Leaf 1) (Leaf 2); Leaf 3] /\
  exists self',
    _apply_mutations one_site [4; 3] = Ok self' /\
    hg_matrix_ok self' /\
    hg_num_segregating_sites self' = 1 + 2 /\
    (forall (k : nat) t,
       [Node 4 (Leaf 1) (Leaf 2); Leaf 3] !! k = Some t ->
     forall u, 1 <= u <= 3 ->
       cell self' (u - 1) (1 + Z.of_nat k)
       = Some (if decide (u ∈ leaves t) then "1" else "0")%char) /\
    (forall i j, 0 <= j < 1 -> cell self' i j = cell one_site i j).
Proof.
  assert (H1 : hg_matrix_ok one_site).
  { split.
    - vm_compute. split; discriminate.
    - reflexivity.
    - repeat constructor.
    - repeat constructor. }
  assert (H2 : Forall2 (subtree_at one_site) [4; 3]
                 [Node 4 (Leaf 1) (Leaf 2); Leaf 3]).
  { constructor; [|constructor; [|constructor]]; split;
      try reflexivity; try (by vm_compute);
      try (repeat constructor; cbn; lia);
      cbn; repeat (apply NoDup_cons; split; [set_solver|]);
      apply NoDup_nil_2. }
  split; [exact H1|]. split; [exact H2|].
  exact (mutation_marks_the_leaves_below one_site [4; 3] _ H1 H2).
Defined.

(** ** The cache of the NewickGenerator *)

Section NewickCache.
Context {F : Type} `{!Float F}.
Implicit Types (P : gmap Z Z) (S : gmap Z string) (C : gmap Z (Z * Z))
  (B : gmap Z string) (T : gmap Z F).

Lemma propogate_loop_unfold fuel P S k :
  propogate_loop fuel P S k =
  match S !! k with
  | Some _ =>
      match fuel with
      | O => Raise Diverges
      | Datatypes.S fuel =>
          propogate_loop fuel P (delete k S)
            (match P !! k with Some p => p | None => k end)
      end
  | None => Ok S
  end.
Proof. by destruct fuel. Qed.

(** The loop ends when it has deleted the entries from [k] up to the first
    node without one; the cache is closed then, when before it was so but
    for the way into [k]. *)
Lemma propogate_loop_spec fuel P : forall S k,
  (size S <= fuel)%nat ->
  (forall x p, P !! x = Some p -> x ∉ dom S -> p ∉ dom S \/ p = k) ->
  exists S', propogate_loop fuel P S k = Ok S' /\ S' ⊆ S /\
    (k ∉ dom S') /\ cache_closed P S'.
Proof.
  induction fuel as [|fuel IH]; intros S k Hsize Hcl;
    rewrite propogate_loop_unfold; destruct (S !! k) as [s|] eqn:Hk.
  - assert (S = ∅) as -> by (apply map_size_empty_inv; lia).
    by rewrite lookup_empty in Hk.
  - exists S. split; [done|]. split; [done|].
    apply not_elem_of_dom in Hk. split; [done|].
    intros x p Hx Hnx. destruct (Hcl x p Hx Hnx) as [?| ->]; done.
  - destruct (IH (delete k S)
               (match P !! k with Some p => p | None => k end))
      as (S' & Hl & Hsub & Hk' & Hcl').
    { rewrite map_size_delete_Some by eauto. lia. }
    { intros x p Hx. rewrite dom_delete_L, not_elem_of_difference.
      rewrite elem_of_singleton. intros [Hnx| ->].
      - destruct (Hcl x p Hx Hnx) as [Hp| ->]; left; set_solver.
      - rewrite Hx. by right. }
    exists S'. split; [done|].
    assert (Hsub' : S' ⊆ S).
    { etrans; [exact Hsub|]. apply delete_subseteq. }
    split; [done|]. split; [|done].
    intros Hin. apply elem_of_dom in Hin as [s' Hs'].
    eapply lookup_weaken in Hs'; [|exact Hsub].
    by rewrite lookup_delete_eq in Hs'.
  - exists S. split; [done|]. split; [done|].
    apply not_elem_of_dom in Hk. split; [done|].
    intros x p Hx Hnx. destruct (Hcl x p Hx Hnx) as [?| ->]; done.
Qed.

Lemma propogate_ok n prec C B T P S root j :
  cache_closed P S ->
  exists S',
    _propogate_subtree_loss (NG n prec C B T P S root) j
    = Ok (NG n prec C B T P S' root) /\
    S' ⊆ S /\ (j ∉ dom S') /\ cache_closed P S'.
Proof.
  intros Hcl.
  destruct (propogate_loop_spec (size S) P S j) as (S' & Hl & HS');
    [done|intros x p Hx Hnx; left; by eapply Hcl|].
  exists S'. split; [|done].
  unfold _propogate_subtree_loss. cbn. by rewrite Hl.
Qed.

Lemma cache_closed_delete P S j :
  cache_closed P S -> cache_closed (delete j P) S.
Proof.
  intros Hcl x p Hx. apply lookup_delete_Some in Hx as [_ Hx]. by eapply Hcl.
Qed.

Lemma cache_closed_insert P S j p :
  cache_closed P S -> p ∉ dom S -> cache_closed (<[j := p]> P) S.
Proof.
  intros Hcl Hp x q Hx. apply lookup_insert_Some in Hx as [[-> ->]|[_ Hx]].
  - done.
  - by eapply Hcl.
Qed.

Lemma subseteq_dom_not (S S' : gmap Z string) x :
  S' ⊆ S -> x ∉ dom S -> x ∉ dom S'.
Proof. intros Hsub Hx Hx'. apply Hx. by eapply subseteq_dom. Qed.

Lemma child_pairs_cons (e : link) L :
  child_pairs (e :: L) = (e.1.1, e.2) :: (e.1.2, e.2) :: child_pairs L.
Proof. done. Qed.

Lemma child_pairs_app L1 L2 :
  child_pairs (L1 ++ L2) = child_pairs L1 ++ child_pairs L2.
Proof. unfold child_pairs. by rewrite bind_app. Qed.

Lemma child_pairs_elem c p L :
  (c, p) ∈ child_pairs L <->
  exists ch, (ch, p) ∈ L /\ (c = ch.1 \/ c = ch.2).
Proof.
  unfold child_pairs. rewrite list_elem_of_bind. split.
  - intros ([[a b] q] & Hin & He). cbn [fst snd] in Hin.
    exists (a, b). cbn [fst snd].
    apply elem_of_cons in Hin as [[= -> ->]|Hin]; [by eauto|].
    apply list_elem_of_singleton in Hin as [= -> ->]. by eauto.
  - intros ([a b] & He & Hc). cbn [fst snd] in Hc.
    exists ((a, b), p). split; [|done]. cbn [fst snd].
    destruct Hc as [-> | ->]; set_solver.
Qed.

Lemma child_pairs_child c p L :
  (c, p) ∈ child_pairs L -> c ∈ children_of L /\ p ∈ parents L.
Proof.
  intros ([a b] & He & Hc)%child_pairs_elem. cbn [fst snd] in Hc. split.
  - unfold children_of. apply list_elem_of_bind. exists ((a, b), p).
    split; [|done]. cbn [fst snd]. destruct Hc as [-> | ->]; set_solver.
  - unfold parents. apply list_elem_of_fmap. by exists ((a, b), p).
Qed.

Global Instance child_pairs_perm : Proper ((≡ₚ) ==> (≡ₚ)) child_pairs.
Proof. intros L1 L2 HL. unfold child_pairs. by rewrite HL. Qed.

Lemma ng_forest_perm (self : NewickGenerator F) EC EC' EB EB' :
  EC ≡ₚ EC' -> EB ≡ₚ EB' -> ng_forest self EC EB -> ng_forest self EC' EB'.
Proof.
  intros HC HB [H1 H2 H3 H4]. split.
  - intros p ch. by rewrite <- HC.
  - intros c p. by rewrite <- HC.
  - by rewrite <- HC.
  - by rewrite <- HB.
Qed.

Lemma remove_child_ok n prec C B T P S root j :
  cache_closed P S -> j ∈ dom P -> j ∈ dom B ->
  exists S',
    remove_child (NG n prec C B T P S root) j
    = Ok (NG n prec C (delete j B) T (delete j P) S' root) /\
    S' ⊆ S /\ (j ∉ dom S') /\ cache_closed (delete j P) S' /\
    (forall p, P !! j = Some p -> p ∉ dom S').
Proof.
  intros Hcl HP HB.
  destruct (propogate_ok n prec C B T P S root j Hcl)
    as (S' & Hp & Hsub & Hj & Hcl').
  exists S'. unfold remove_child. rewrite Hp. cbn.
  rewrite (delitem_dom P) by done. cbn.
  rewrite (delitem_dom B) by done. cbn.
  split; [done|]. split; [done|]. split; [done|].
  split; [by apply cache_closed_delete|].
  intros p Hjp. by eapply Hcl'.
Qed.

Lemma remove_record_ok n prec C B T P S root (e : edge F) L :
  flat n (e.1 :: L) ->
  ng_forest (NG n prec C B T P S root) (e.1 :: L) (e.1 :: L) ->
  cache_closed P S ->
  exists C' B' T' P' S',
    remove_record (NG n prec C B T P S root) e
    = Ok (NG n prec C' B' T' P' S' root) /\
    ng_forest (NG n prec C' B' T' P' S' root) L L /\
    cache_closed P' S' /\ S' ⊆ S /\
    (forall x, x ∈ [e.1.1.1; e.1.1.2; e.1.2] -> x ∉ dom S') /\
    (forall x, x ∉ [e.1.1.1; e.1.1.2] -> B' !! x = B !! x).
Proof.
  destruct e as [[[c1 c2] p] t]. cbn [fst snd].
  intros Hflat [HC HP HT HB] Hcl.
  cbn [ng_sample_size ng_children ng_time ng_branch_length ng_parent] in *.
  apply flat_cons_inv in Hflat as (Hflat & Hp & Hn & Hc12 & Hc1 & Hc2).
  cbn [fst snd] in *.
  assert (HCp : C !! p = Some (c1, c2)) by (apply HC; left).
  assert (HP1 : P !! c1 = Some p).
  { apply HP. rewrite child_pairs_cons. left. }
  assert (HP2 : P !! c2 = Some p).
  { apply HP. rewrite child_pairs_cons. right. left. }
  unfold remove_record.
  rewrite (delitem_dom C) by (by apply elem_of_dom; eauto).
  rewrite (delitem_dom T).
  2:{ rewrite HT, parents_cons. set_solver. }
  cbn [mbind result_bind for_each fst snd].
  cbn [ng_sample_size ng_precision ng_children ng_time ng_branch_length
       ng_parent ng_subtree ng_root].
  destruct (remove_child_ok n prec (delete p C) B (delete p T) P S root c1)
    as (S1 & -> & Hsub1 & Hc1S & Hcl1 & Hp1); [done| | |].
  { apply elem_of_dom. eauto. }
  { rewrite HB, children_of_cons. set_solver. }
  cbn [mbind result_bind].
  destruct (remove_child_ok n prec (delete p C) (delete c1 B) (delete p T)
              (delete c1 P) S1 root c2)
    as (S2 & -> & Hsub2 & Hc2S & Hcl2 & Hp2); [done| | |].
  { apply elem_of_dom. rewrite lookup_delete_ne by done. eauto. }
  { rewrite dom_delete_L, HB, children_of_cons. set_solver. }
  cbn [mbind result_bind].
  eexists _, _, _, _, _. split; [done|].
  split; [|split; [done|split; [by etrans|split]]].
  - split; cbn [ng_sample_size ng_children ng_time ng_branch_length
                ng_parent].
    + intros q ch. rewrite lookup_delete_Some, HC, elem_of_cons. split.
      * intros [Hne [[= _ Hq]|Hin]]; done.
      * intros Hin. split; [|by right].
        intros <-. apply Hp. unfold parents.
        apply list_elem_of_fmap. by exists (ch, p).
    + intros c q. rewrite !lookup_delete_Some, HP, child_pairs_cons.
      rewrite !elem_of_cons. split.
      * intros (Hn2 & Hn1 & [[= ? ?]|[[= ? ?]|Hin]]); done.
      * intros Hin. pose proof (child_pairs_child _ _ _ Hin) as [Hc _].
        repeat split; [by intros <-|by intros <-|by right; right].
    + rewrite dom_delete_L, HT, parents_cons. cbn [fst snd].
      assert (p ∉ seqZ 1 n) by (rewrite elem_of_seqZ; lia).
      set_solver.
    + rewrite !dom_delete_L, HB, children_of_cons. cbn [fst snd].
      set_solver.
  - intros x. rewrite !elem_of_cons, elem_of_nil.
    intros [-> |[-> |[-> |[]]]].
    + by eapply subseteq_dom_not.
    + done.
    + apply Hp2. by rewrite lookup_delete_ne.
  - intros x. rewrite !elem_of_cons, elem_of_nil. intros Hx.
    rewrite !lookup_delete_ne; [done| |]; intros <-; tauto.
Qed.

Lemma remove_loop_ok (out : list (edge F)) : forall n prec C B T P S root K,
  flat n ((fst <$> out) ++ K) ->
  ng_forest (NG n prec C B T P S root) ((fst <$> out) ++ K)
    ((fst <$> out) ++ K) ->
  cache_closed P S ->
  exists C' B' T' P' S',
    for_each remove_record out (NG n prec C B T P S root)
    = Ok (NG n prec C' B' T' P' S' root) /\
    ng_forest (NG n prec C' B' T' P' S' root) K K /\
    cache_closed P' S' /\ S' ⊆ S /\
    (forall x, x ∈ children_of (fst <$> out) ++ parents (fst <$> out) ->
       x ∉ dom S') /\
    (forall x, x ∉ children_of (fst <$> out) -> B' !! x = B !! x).
Proof.
  induction out as [|e out IH]; intros n prec C B T P S root K Hflat Hf Hcl.
  { exists C, B, T, P, S. split; [done|]. split; [done|]. split; [done|].
    split; [done|]. split; [|done]. intros x Hx. by apply elem_of_nil in Hx. }
  rewrite fmap_cons, <- app_comm_cons in Hflat, Hf.
  destruct (remove_record_ok n prec C B T P S root e _ Hflat Hf Hcl)
    as (C1 & B1 & T1 & P1 & S1 & He & Hf1 & Hcl1 & Hsub1 & Hx1 & HB1).
  apply flat_cons_inv in Hflat as (Hflat & _).
  destruct (IH n prec C1 B1 T1 P1 S1 root K Hflat Hf1 Hcl1)
    as (C' & B' & T' & P' & S' & Hl & Hf' & Hcl' & Hsub' & Hx' & HB').
  exists C', B', T', P', S'. split.
  { cbn [for_each]. by rewrite He. }
  split; [done|]. split; [done|]. split; [by etrans|]. split.
  - intros x. rewrite fmap_cons, children_of_cons, parents_cons.
    intros Hx.
    destruct (decide (x ∈ [e.1.1.1; e.1.1.2; e.1.2])) as [Hin|Hnin].
    + eapply subseteq_dom_not; [exact Hsub'|]. by apply Hx1.
    + apply Hx'. set_solver.
  - intros x. rewrite fmap_cons, children_of_cons. intros Hx.
    rewrite HB' by set_solver. apply HB1. set_solver.
Qed.

Lemma insert_child_ok n prec C B T P S root p j :
  cache_closed P S -> p ∉ dom S ->
  exists S',
    insert_child p (NG n prec C B T P S root) j
    = Ok (NG n prec C B T (<[j := p]> P) S' root) /\
    S' ⊆ S /\ (j ∉ dom S') /\ cache_closed (<[j := p]> P) S'.
Proof.
  intros Hcl Hp. unfold insert_child. cbn.
  apply propogate_ok. by apply cache_closed_insert.
Qed.

Lemma insert_record_ok n prec C B T P S root (e : edge F) L EB :
  flat n (e.1 :: L) ->
  ng_forest (NG n prec C B T P S root) L EB ->
  cache_closed P S -> e.1.2 ∉ dom S ->
  exists C' T' P' S',
    insert_record (NG n prec C B T P S root) e
    = Ok (NG n prec C' B T' P' S' root) /\
    ng_forest (NG n prec C' B T' P' S' root) (e.1 :: L) EB /\
    cache_closed P' S' /\ S' ⊆ S /\
    (forall x, x ∈ [e.1.1.1; e.1.1.2; e.1.2] -> x ∉ dom S').
Proof.
  destruct e as [[[c1 c2] p] t]. cbn [fst snd].
  intros Hflat [HC HP HT HB] Hcl HpS.
  cbn [ng_sample_size ng_children ng_time ng_branch_length ng_parent] in *.
  apply flat_cons_inv in Hflat as (Hflat & Hp & Hn & Hc12 & Hc1 & Hc2).
  cbn [fst snd] in *.
  unfold insert_record. cbn [for_each fst snd].
  cbn [ng_sample_size ng_precision ng_children ng_time ng_branch_length
       ng_parent ng_subtree ng_root].
  destruct (insert_child_ok n prec (<[p := (c1, c2)]> C) B T P S root p c1)
    as (S1 & -> & Hsub1 & Hc1S & Hcl1); [done|done|].
  cbn [mbind result_bind].
  destruct (insert_child_ok n prec (<[p := (c1, c2)]> C) B T
              (<[c1 := p]> P) S1 root p c2)
    as (S2 & -> & Hsub2 & Hc2S & Hcl2);
    [done|by eapply subseteq_dom_not|].
  cbn [mbind result_bind].
  cbn [ng_sample_size ng_precision ng_children ng_time ng_branch_length
       ng_parent ng_subtree ng_root].
  eexists _, _, _, _. split; [done|].
  split; [|split; [done|split; [by etrans|]]].
  - split; cbn [ng_sample_size ng_children ng_time ng_branch_length
                ng_parent].
    + intros q ch. rewrite lookup_insert_Some, HC, elem_of_cons. split.
      * intros [[<- <-]|[_ Hin]]; [by left|by right].
      * intros [[= -> ->]|Hin]; [by left|]. right. split; [|done].
        intros <-. apply Hp. unfold parents.
        apply list_elem_of_fmap. by exists (ch, p).
    + intros c q. rewrite !lookup_insert_Some, HP, child_pairs_cons.
      rewrite !elem_of_cons. split.
      * intros [[<- <-]|[Hn2 [[<- <-]|[Hn1 Hin]]]]; eauto.
      * intros [[= -> ->]|[[= -> ->]|Hin]].
        { right. split; [done|]. by left. }
        { by left. }
        pose proof (child_pairs_child _ _ _ Hin) as [Hc _].
        right. split; [by intros <-|]. right. split; [by intros <-|done].
    + rewrite dom_insert_L, HT, parents_cons. cbn [fst snd]. set_solver.
    + done.
  - intros x. rewrite !elem_of_cons, elem_of_nil.
    intros [-> |[-> |[-> |[]]]].
    + by eapply subseteq_dom_not.
    + done.
    + eapply subseteq_dom_not; [by etrans|done].
Qed.

Lemma insert_loop_ok (rin : list (edge F)) : forall n prec C B T P S root L EB,
  flat n ((fst <$> rin) ++ L) ->
  ng_forest (NG n prec C B T P S root) L EB ->
  cache_closed P S ->
  (forall x, x ∈ parents (fst <$> rin) -> x ∉ dom S) ->
  exists C' T' P' S',
    for_each insert_record rin (NG n prec C B T P S root)
    = Ok (NG n prec C' B T' P' S' root) /\
    ng_forest (NG n prec C' B T' P' S' root) ((fst <$> rin) ++ L) EB /\
    cache_closed P' S' /\ S' ⊆ S /\
    (forall x, x ∈ children_of (fst <$> rin) ++ parents (fst <$> rin) ->
       x ∉ dom S').
Proof.
  induction rin as [|e rin IH];
    intros n prec C B T P S root L EB Hflat Hf Hcl Hpar.
  { exists C, T, P, S. split; [done|]. split; [done|]. split; [done|].
    split; [done|]. intros x Hx. by apply elem_of_nil in Hx. }
  rewrite fmap_cons in Hflat, Hpar.
  assert (Hperm : (e.1 :: (fst <$> rin)) ++ L ≡ₚ (fst <$> rin) ++ e.1 :: L).
  { by rewrite <- Permutation_middle. }
  assert (Hflat' : flat n ((fst <$> rin) ++ e.1 :: L)).
  { by eapply flat_perm. }
  destruct (insert_record_ok n prec C B T P S root e L EB)
    as (C1 & T1 & P1 & S1 & He & Hf1 & Hcl1 & Hsub1 & Hx1); try done.
  { by apply flat_app_inv in Hflat' as [_ ?]. }
  { apply Hpar. rewrite parents_cons. left. }
  destruct (IH n prec C1 B T1 P1 S1 root (e.1 :: L) EB Hflat' Hf1 Hcl1)
    as (C' & T' & P' & S' & Hl & Hf' & Hcl' & Hsub' & Hx').
  { intros x Hx. eapply subseteq_dom_not; [exact Hsub1|].
    apply Hpar. rewrite parents_cons. by right. }
  exists C', T', P', S'. split.
  { cbn [for_each]. by rewrite He. }
  split; [|split; [done|split; [by etrans|]]].
  - eapply ng_forest_perm; [|done|exact Hf']. by rewrite fmap_cons, Hperm.
  - intros x. rewrite fmap_cons, children_of_cons, parents_cons.
    intros Hx.
    destruct (decide (x ∈ [e.1.1.1; e.1.1.2; e.1.2])) as [Hin|Hnin].
    + eapply subseteq_dom_not; [exact Hsub'|]. by apply Hx1.
    + apply Hx'. set_solver.
Qed.

Lemma set_branch_lengths_ok n prec C B T P S root (e : edge F) :
  e.1.1.1 ∈ dom T -> e.1.1.2 ∈ dom T ->
  exists B',
    set_branch_lengths (NG n prec C B T P S root) e
    = Ok (NG n prec C B' T P S root) /\
    dom B' = dom B ∪ {[e.1.1.1; e.1.1.2]} /\
    (forall x, x ∉ [e.1.1.1; e.1.1.2] -> B' !! x = B !! x).
Proof.
  destruct e as [[[c1 c2] p] t]. cbn [fst snd]. intros H1 H2.
  unfold set_branch_lengths. cbn [for_each fst snd ng_time ng_precision].
  destruct (getitem_dom T c1 H1) as (t1 & -> & _).
  cbn [mbind result_bind ng_time ng_precision].
  destruct (getitem_dom T c2 H2) as (t2 & -> & _).
  cbn [mbind result_bind].
  cbn [ng_sample_size ng_precision ng_children ng_time ng_branch_length
       ng_parent ng_subtree ng_root].
  eexists. split; [done|]. split.
  - rewrite !dom_insert_L. set_solver.
  - intros x. rewrite !elem_of_cons, elem_of_nil. intros Hx.
    rewrite !lookup_insert_ne; [done| |]; intros <-; tauto.
Qed.

Lemma set_branch_lengths_loop_ok (rin : list (edge F)) :
  forall n prec C B T P S root,
  (forall x, x ∈ children_of (fst <$> rin) -> x ∈ dom T) ->
  exists B',
    for_each set_branch_lengths rin (NG n prec C B T P S root)
    = Ok (NG n prec C B' T P S root) /\
    dom B' = dom B ∪ list_to_set (children_of (fst <$> rin)) /\
    (forall x, x ∉ children_of (fst <$> rin) -> B' !! x = B !! x).
Proof.
  induction rin as [|e rin IH]; intros n prec C B T P S root Hch.
  { exists B. split; [done|]. split; [|done]. cbn. set_solver. }
  rewrite fmap_cons, children_of_cons in Hch.
  destruct (set_branch_lengths_ok n prec C B T P S root e)
    as (B1 & He & Hd1 & HB1); [set_solver|set_solver|].
  destruct (IH n prec C B1 T P S root) as (B' & Hl & Hd' & HB');
    [set_solver|].
  exists B'. split.
  { cbn [for_each]. by rewrite He. }
  rewrite fmap_cons, children_of_cons. split.
  - rewrite Hd', Hd1. set_solver.
  - intros x Hx. rewrite HB' by set_solver. apply HB1. set_solver.
Qed.

Lemma option_eq_Some {A} (x y : option A) :
  (forall a, x = Some a <-> y = Some a) -> x = y.
Proof.
  intros Hxy. destruct x as [a|], y as [b|]; try done.
  - by apply Hxy.
  - by destruct (proj1 (Hxy a) eq_refl).
  - by destruct (proj2 (Hxy b) eq_refl).
Qed.

(** The three loops of [next] on an item of a valid stream: the forest is
    the one of the new tree, and what is left of the cache are strings of
    nodes that no record of the item has touched. *)
Lemma ng_update_ok n prec C B T P S root (E K E' out rin : list (edge F)) t :
  0 <= n ->
  flat n (fst <$> E) ->
  ng_forest (NG n prec C B T P S root) (fst <$> E) (fst <$> E) ->
  cache_closed P S ->
  (forall v, v ∈ dom S -> 1 <= v <= n \/ v ∈ parents (fst <$> E)) ->
  E ≡ₚ out ++ K -> E' ≡ₚ K ++ rin -> tree_for n (fst <$> E') t ->
  exists s1 s2 C' B' T' P' S',
    for_each remove_record out (NG n prec C B T P S root) = Ok s1 /\
    for_each insert_record rin s1 = Ok s2 /\
    for_each set_branch_lengths rin s2
    = Ok (NG n prec C' B' T' P' S' root) /\
    ng_forest (NG n prec C' B' T' P' S' root) (fst <$> E') (fst <$> E') /\
    cache_closed P' S' /\ S' ⊆ S /\
    (forall v, v ∈ dom S' ->
       (1 <= v <= n \/ v ∈ parents (fst <$> E')) /\
       C' !! v = C !! v /\ B' !! v = B !! v /\ P' !! v = P !! v).
Proof.
  intros Hn Hflat Hf Hcl Hnodes HE HE' Ht.
  assert (HEl : fst <$> E ≡ₚ (fst <$> out) ++ (fst <$> K)).
  { by rewrite HE, fmap_app. }
  assert (HEl' : (fst <$> rin) ++ (fst <$> K) ≡ₚ fst <$> E').
  { by rewrite HE', fmap_app, Permutation_app_comm. }
  pose proof (tree_for_is_flat n _ t Hn Ht) as Hflat'.
  destruct (tree_for_flat n _ t Hn Ht) as (_ & _ & _ & _ & _ & Hnt & Hcht).
  destruct (remove_loop_ok out n prec C B T P S root (fst <$> K))
    as (C1 & B1 & T1 & P1 & S1 & H1 & Hf1 & Hcl1 & Hsub1 & Hx1 & HB1).
  { by eapply flat_perm. }
  { by eapply ng_forest_perm. }
  { done. }
  assert (HflatR : flat n ((fst <$> rin) ++ (fst <$> K))).
  { eapply flat_perm; [symmetry; exact HEl'|done]. }
  destruct (insert_loop_ok rin n prec C1 B1 T1 P1 S1 root (fst <$> K)
              (fst <$> K) HflatR Hf1 Hcl1)
    as (C2 & T2 & P2 & S2 & H2 & Hf2 & Hcl2 & Hsub2 & Hx2).
  { intros x Hx HxS.
    pose proof (subseteq_dom _ _ Hsub1 x HxS) as HxS0.
    destruct HflatR as (Hndp & _ & Hgt).
    unfold parents in Hndp, Hgt. rewrite fmap_app in Hndp, Hgt.
    apply NoDup_app in Hndp as (_ & Hdisj & _).
    apply Forall_app in Hgt as [Hgt _]. rewrite Forall_forall in Hgt.
    specialize (Hgt x Hx). simpl in Hgt.
    destruct (Hnodes x HxS0) as [?|Hp]; [lia|].
    rewrite HEl in Hp. unfold parents in Hp. rewrite fmap_app in Hp.
    apply elem_of_app in Hp as [Hp|Hp].
    - apply (Hx1 x); [|done]. apply elem_of_app. by right.
    - by apply (Hdisj x). }
  pose proof Hf2 as [HC2 HP2 HT2 HB2].
  cbn [ng_sample_size ng_children ng_time ng_branch_length ng_parent]
    in HC2, HP2, HT2, HB2.
  destruct (set_branch_lengths_loop_ok rin n prec C2 B1 T2 P2 S2 root)
    as (B' & H3 & Hd3 & HB3).
  { intros x Hx. rewrite HT2, HEl'.
    rewrite elem_of_union, !elem_of_list_to_set, elem_of_seqZ.
    assert (Hx' : x ∈ children_of (fst <$> E')).
    { rewrite <- HEl', children_of_app. set_solver. }
    apply Hcht, Hnt in Hx'. destruct Hx'; [left; lia|by right]. }
  eexists _, _, C2, B', T2, P2, S2.
  split; [exact H1|]. split; [exact H2|]. split; [exact H3|].
  assert (Hf' : ng_forest (NG n prec C2 B' T2 P2 S2 root) (fst <$> E')
                  (fst <$> E')).
  { eapply ng_forest_perm; [exact HEl'|exact HEl'|].
    split; cbn [ng_sample_size ng_children ng_time ng_branch_length
                ng_parent]; try done.
    rewrite Hd3, HB2, children_of_app. set_solver. }
  split; [done|]. split; [done|]. split; [by etrans|].
  intros v Hv.
  pose proof (subseteq_dom _ _ Hsub2 v Hv) as Hv1.
  pose proof (subseteq_dom _ _ Hsub1 v Hv1) as Hv0.
  assert (Hvo : v ∉ children_of (fst <$> out) ++ parents (fst <$> out)).
  { intros Hin. by apply (Hx1 v). }
  assert (Hvi : v ∉ children_of (fst <$> rin) ++ parents (fst <$> rin)).
  { intros Hin. by apply (Hx2 v). }
  rewrite not_elem_of_app in Hvo, Hvi.
  destruct Hvo as [Hvoc Hvop]. destruct Hvi as [Hvic Hvip].
  destruct Hf as [HC HP HT HB].
  cbn [ng_sample_size ng_children ng_time ng_branch_length ng_parent]
    in HC, HP, HT, HB.
  split; [|split; [|split]].
  - destruct (Hnodes v Hv0) as [?|Hp]; [by left|right].
    rewrite <- HEl'. rewrite HEl in Hp. unfold parents in *.
    rewrite fmap_app in Hp. rewrite fmap_app. set_solver.
  - apply option_eq_Some. intros ch. rewrite HC2, HC, HEl.
    rewrite !elem_of_app. split.
    + intros [Hin|Hin]; [|by right]. exfalso. apply Hvip.
      unfold parents. apply list_elem_of_fmap. by exists (ch, v).
    + intros [Hin|Hin]; [|by right]. exfalso. apply Hvop.
      unfold parents. apply list_elem_of_fmap. by exists (ch, v).
  - rewrite HB3 by done. by apply HB1.
  - apply option_eq_Some. intros q. rewrite HP2, HP, HEl.
    rewrite !child_pairs_app, !elem_of_app. split.
    + intros [Hin|Hin]; [|by right]. exfalso. apply Hvic.
      by apply child_pairs_child in Hin as [? _].
    + intros [Hin|Hin]; [|by right]. exfalso. apply Hvoc.
      by apply child_pairs_child in Hin as [? _].
Qed.

End NewickCache.

(** * Further properties of the code *)

(** ** _propogate_subtree_loss *)

Section PropogateLoss.
Context {F : Type} `{!Float F}.

Lemma propogate_loop_total fuel (P : gmap Z Z) : forall (S : gmap Z string) k,
  (size S <= fuel)%nat ->
  exists S', propogate_loop fuel P S k = Ok S' /\ S' ⊆ S /\
    (k ∉ dom S') /\ (k ∉ dom S -> S' = S).
Proof.
  induction fuel as [|fuel IH]; intros S k Hsize;
    rewrite propogate_loop_unfold; destruct (S !! k) as [s|] eqn:Hk.
  - assert (S = ∅) as -> by (apply map_size_empty_inv; lia).
    by rewrite lookup_empty in Hk.
  - exists S. apply not_elem_of_dom in Hk. done.
  - destruct (IH (delete k S)
               (match P !! k with Some p => p | None => k end))
      as (S' & Hl & Hsub & _ & _).
    { rewrite map_size_delete_Some by eauto. lia. }
    exists S'. split; [done|]. split; [|split].
    + etrans; [exact Hsub|]. apply delete_subseteq.
    + intros Hin. apply elem_of_dom in Hin as [s' Hs'].
      eapply lookup_weaken in Hs'; [|exact Hsub].
      by rewrite lookup_delete_eq in Hs'.
    + intros Hnk. destruct Hnk. apply elem_of_dom. eauto.
  - exists S. apply not_elem_of_dom in Hk. done.
Qed.

(** X1. [_propogate_subtree_loss] always returns: its loop deletes an
    entry of [_subtree] in every iteration.  It changes nothing but
    [_subtree], where it only deletes; the node it is called for has no
    string afterwards, and nothing is deleted when the node had none.
    When, before the call, no node without a string had a parent with one,
    this holds after the call as well. *)
Theorem propogate_subtree_loss_invalidates (self : NewickGenerator F)
    (node : Z) :
  exists self',
    _propogate_subtree_loss self node = Ok self' /\
    same_forest self self' /\
    ng_precision self' = ng_precision self /\
    ng_subtree self' ⊆ ng_subtree self /\
    (node ∉ dom (ng_subtree self')) /\
    (node ∉ dom (ng_subtree self) -> ng_subtree self' = ng_subtree self) /\
    (cache_closed (ng_parent self) (ng_subtree self) ->
     cache_closed (ng_parent self') (ng_subtree self')).
Proof.
  destruct self as [n prec C B T P S root].
  destruct (propogate_loop_total (size S) P S node) as (S' & Hl & Hsub & Hn & Hsame);
    [done|].
  exists (NG n prec C B T P S' root).
  split; [unfold _propogate_subtree_loss; cbn; by rewrite Hl|].
  split; [by repeat split|]. split; [done|]. split; [done|].
  split; [done|]. split; [done|].
  cbn. intros Hcl.
  destruct (propogate_ok n prec C B T P S root node Hcl)
    as (S'' & Hp & _ & _ & Hcl'').
  unfold _propogate_subtree_loss in Hp. cbn in Hp. rewrite Hl in Hp.
  cbn in Hp. by injection Hp as <-.
Qed.

End PropogateLoss.

(** ** diffs *)

(** X2. The items that [diffs] yields for a valid tree sequence, with or
    without the breakpoints, form a valid stream from the empty forest:
    the [records_out] of an item are edges of the tree before it, and the
    edges that stay together with its [records_in] are the edges of a
    binary tree over the samples [1 .. sample_size] with distinct nodes.
    Without the breakpoints the generator ends without an exception. *)
Theorem diffs_form_a_valid_stream {F} `{!Float F} (ts : TreeSequence F)
    (all_breaks : bool) :
  valid_ts ts = true ->
  diff_stream (_sample_size ts) [] (diffs ts all_breaks).1 /\
  (diffs ts false).2 = Ok ().
Proof.
  intros Hvalid. split; [by apply diffs_valid_stream|].
  by destruct (diffs_valid_total ts Hvalid).
Qed.

Lemma diffs_form_a_valid_stream_witness :
  valid_ts two_trees = true /\
  diff_stream 3 [] (diffs two_trees true).1 /\
  (diffs two_trees false).2 = Ok ().
Proof.
  assert (Hvalid : valid_ts two_trees = true) by (vm_compute; reflexivity).
  split; [exact Hvalid|].
  exact (diffs_form_a_valid_stream two_trees true Hvalid).
Defined.

(** The edges that [_diffs] puts in, item after item. *)
Lemma diffs_loop_records_in {F} (recs : list (record F)) left used rin r :
  concat (snd <$> (diffs_loop recs left used rin (Some r)).1)
  = rin ++ (edge_of <$> recs).
Proof.
  revert left used rin r. induction recs as [|rec recs IH];
    intros left used rin r.
  { cbn. by rewrite !app_nil_r. }
  rewrite diffs_loop_cons.
  destruct (decide (r_left rec = left)) as [Heq|Hne].
  - rewrite IH, fmap_cons, <- app_assoc. done.
  - cbn [fst]. rewrite fmap_cons. cbn [concat snd]. rewrite IH. done.
Qed.

(** X3. [_diffs] puts every record in exactly once, and in the order of
    the records: the [records_in] of its items, one after the other, are
    the [(children, parent, time)] of the records. *)
Theorem diffs_puts_every_record_in_once {F} (ts : TreeSequence F) :
  records ts ≠ [] ->
  concat (snd <$> (_diffs ts).1) = edge_of <$> records ts.
Proof.
  unfold _diffs. destruct (records ts) as [|rec recs]; [done|]. intros _.
  rewrite diffs_loop_cons, <- (diffs_loop_cons rec recs 0 ∅ [] (Some 0)).
  by rewrite diffs_loop_records_in.
Qed.

Lemma diffs_puts_every_record_in_once_witness :
  records two_trees ≠ [] /\
  concat (snd <$> (_diffs two_trees).1) = edge_of <$> records two_trees.
Proof.
  assert (Hne : records two_trees ≠ []) by (vm_compute; discriminate).
  split; [exact Hne|].
  exact (diffs_puts_every_record_in_once two_trees Hne).
Defined.

(** ** sparse_trees and _diffs *)

Section SameIntervals.
Context {F : Type} `{!Float F}.

Lemma default_last_cons {A B} (f : A -> B) (d : B) (x : A) (l : list A) :
  default d (f <$> last (x :: l)) = default (f x) (f <$> last l).
Proof.
  destruct l as [|y l]; [done|]. rewrite last_cons_cons.
  destruct (last_is_Some (y :: l)) as [_ [z Hz]]; [done|]. by rewrite Hz.
Qed.

Lemma sparse_diffs_lengths m (recs : list (record F)) :
  forall last_l live pi tau used rin r,
  (sparse_trees_loop m recs last_l live pi tau).2 = Ok () ->
  m - default last_l (r_left <$> last recs)
  = uint32 (default r (r_right <$> last recs)
            - default last_l (r_left <$> last recs)) ->
  length_of <$> (sparse_trees_loop m recs last_l live pi tau).1
  = length_of <$> (diffs_loop recs last_l used rin (Some r)).1.
Proof.
  induction recs as [|rec recs IH]; intros last_l live pi tau used rin r.
  { cbn. intros _ Hm. unfold length_of. cbn. by rewrite Hm. }
  rewrite !default_last_cons, sparse_trees_loop_cons, diffs_loop_cons.
  destruct (apply_record rec live pi tau) as [[[live' pi'] tau']|e];
    [|done].
  cbv zeta. cbn [fst snd]. intros Hok Hm.
  specialize (IH (r_left rec) live' pi' tau').
  destruct (decide (last_l = r_left rec)) as [Heq|Hne].
  - rewrite decide_True by done. cbn [app]. by apply IH.
  - rewrite decide_False by congruence. cbn [app fst].
    rewrite !fmap_cons. f_equal. by apply IH.
Qed.

(** X4. On a valid tree sequence [sparse_trees] and [_diffs] cut the
    sequence at the same places: both end without an exception, and the
    interval lengths they yield are the same, item by item. *)
Theorem sparse_trees_and_diffs_cut_alike (ts : TreeSequence F) :
  valid_ts ts = true ->
  (sparse_trees ts).2 = Ok () /\ (_diffs ts).2 = Ok () /\
  length_of <$> (sparse_trees ts).1 = length_of <$> (_diffs ts).1.
Proof.
  intros Hvalid.
  destruct (sparse_trees_valid ts Hvalid) as (Hs & _ & _).
  destruct (diffs_valid_total ts Hvalid) as (Hd & _).
  split; [done|]. split; [done|].
  unfold valid_ts in Hvalid.
  destruct (valid_records_inv _ _ _ Hvalid) as (Hn & Hm & Hall & _ & _).
  pose proof (records_nonempty _ _ _ Hvalid) as Hne.
  pose proof (last_record_right _ _ _ Hvalid) as Hlast.
  destruct (proj2 (last_is_Some (records ts)) Hne) as [rl Hrl].
  assert (Hin : rl ∈ records ts).
  { apply last_Some in Hrl as [front ->]. set_solver. }
  rewrite Forall_forall in Hall. specialize (Hall rl Hin).
  specialize (Hlast rl Hrl).
  unfold sparse_trees, _diffs, get_num_loci in *.
  destruct (records ts) as [|rec recs]; [done|].
  rewrite (diffs_loop_cons rec recs 0 ∅ [] None).
  rewrite <- (diffs_loop_cons rec recs 0 ∅ [] (Some 0)).
  apply sparse_diffs_lengths; [done|].
  rewrite Hrl. cbn [fmap option_fmap option_map default].
  unfold uint32, id. rewrite Z.mod_small by lia. lia.
Qed.

End SameIntervals.

Lemma sparse_trees_and_diffs_cut_alike_witness :
  valid_ts two_trees = true /\
  (sparse_trees two_trees).2 = Ok () /\ (_diffs two_trees).2 = Ok () /\
  length_of <$> (sparse_trees two_trees).1
  = length_of <$> (_diffs two_trees).1.
Proof.
  assert (Hvalid : valid_ts two_trees = true) by (vm_compute; reflexivity).
  split; [exact Hvalid|].
  exact (sparse_trees_and_diffs_cut_alike two_trees Hvalid).
Defined.

(** ** haplotypes and haplotype_strings *)

Lemma string_of_list_ascii_length (l : list ascii) :
  String.length (string_of_list_ascii l) = length l.
Proof. induction l as [|c l IH]; [done|]. cbn. by rewrite IH. Qed.

(** X5. In a generator whose matrix is in order, [haplotypes] yields one
    row for every sample and every row has [num_segregating_sites]
    characters, and so has every string of [haplotype_strings]. *)
Theorem haplotypes_have_one_character_per_site {F G} `{!Float F} `{!Rng F G}
    (self : HaplotypeGenerator F G) :
  hg_matrix_ok self ->
  Z.of_nat (length (haplotypes self)) = hg_sample_size self /\
  Forall (fun row => Z.of_nat (length row) = get_num_segregating_sites self)
    (haplotypes self) /\
  Z.of_nat (length (haplotype_strings self)) = hg_sample_size self /\
  Forall (fun s => Z.of_nat (String.length s)
                   = get_num_segregating_sites self)
    (haplotype_strings self).
Proof.
  intros [Hs Hrows Hcols _].
  assert (Hlen : Forall (fun row => Z.of_nat (length row)
                                    = get_num_segregating_sites self)
                   (haplotypes self)).
  { unfold haplotypes, get_num_segregating_sites. apply Forall_fmap.
    eapply Forall_impl; [exact Hcols|]. intros row Hrow. simpl in *.
    rewrite length_take. lia. }
  assert (Hn : Z.of_nat (length (haplotypes self)) = hg_sample_size self).
  { unfold haplotypes. by rewrite length_fmap. }
  split; [done|]. split; [done|]. unfold haplotype_strings.
  split; [by rewrite length_fmap|].
  apply Forall_fmap. eapply Forall_impl; [exact Hlen|].
  intros row Hrow. simpl in *. by rewrite string_of_list_ascii_length.
Qed.

Lemma haplotypes_have_one_character_per_site_witness :
  hg_matrix_ok one_site /\
  Z.of_nat (length (haplotypes one_site)) = 3 /\
  Forall (fun row => Z.of_nat (length row) = 1) (haplotypes one_site) /\
  Z.of_nat (length (haplotype_strings one_site)) = 3 /\
  Forall (fun s => Z.of_nat (String.length s) = 1)
    (haplotype_strings one_site).
Proof.
  assert (H1 : hg_matrix_ok one_site).
  { split.
    - vm_compute. split; discriminate.
    - reflexivity.
    - repeat constructor.
    - repeat constructor. }
  split; [exact H1|].
  exact (haplotypes_have_one_character_per_site one_site H1).
Defined.

(** ** _diffs_with_breaks *)

Lemma gaps_lookup (b : list Z) (i : nat) x y :
  b !! i = Some x -> b !! S i = Some y -> gaps b !! i = Some (y - x).
Proof.
  intros Hx Hy. unfold gaps. rewrite lookup_zip_with, Hx. cbn.
  rewrite lookup_drop. cbn. by rewrite Hy.
Qed.

Lemma gaps_length (b : list Z) : length (gaps b) = (length b - 1)%nat.
Proof. unfold gaps. rewrite length_zip_with, length_drop. lia. Qed.

Lemma take_drop_S {A} (l : list A) (k n : nat) x :
  l !! k = Some x -> take (S n) (drop k l) = x :: take n (drop (S k) l).
Proof. intros Hk. by rewrite (drop_S l x k Hk). Qed.

Section BreaksLengths.
Context {F : Type} `{!Float F}.
Implicit Types (used : gmap Z (list (edge F))) (rin : list (edge F)).
Variable b : list Z.
Hypothesis Hsorted : StronglySorted Z.lt b.
Hypothesis Hrange : Forall (fun x => 0 <= x < 2 ^ 32) b.

Lemma gap_uint32 (i j : nat) x y :
  b !! i = Some x -> b !! j = Some y -> (i < j)%nat -> uint32 (y - x) = y - x.
Proof.
  intros Hi Hj Hij.
  pose proof (sorted_lookup_lt b i j x y Hsorted Hi Hj Hij).
  rewrite Forall_forall in Hrange.
  pose proof (Hrange x (list_elem_of_lookup_2 _ _ _ Hi)).
  pose proof (Hrange y (list_elem_of_lookup_2 _ _ _ Hj)).
  unfold uint32. rewrite Z.mod_small; lia.
Qed.

Lemma breaks_while_gaps (fuel : nat) (k j : nat) (x : Z) :
  b !! j = Some x -> (k <= j)%nat -> (j - k <= fuel)%nat ->
  exists ys, @breaks_while F fuel b k x = (ys, Ok j) /\
             length_of <$> ys = take (j - k) (drop k (gaps b)).
Proof.
  revert k. induction fuel as [|fuel IH]; intros k Hj Hkj Hfuel.
  - assert (k = j) as -> by lia.
    exists []. rewrite (breaks_while_end _ _ _ _ Hj). split; [done|].
    by rewrite Nat.sub_diag.
  - destruct (lookup_lt_is_Some_2 b k) as [bk Hk].
    { apply lookup_lt_Some in Hj. lia. }
    destruct (decide (bk = x)) as [->|Hne].
    + assert (k = j) as -> by (by eapply sorted_lookup_inj).
      exists []. rewrite (breaks_while_end _ _ _ _ Hj). split; [done|].
      by rewrite Nat.sub_diag.
    + assert (k ≠ j) by (intros ->; congruence).
      destruct (lookup_lt_is_Some_2 b (S k)) as [bk' Hk'].
      { apply lookup_lt_Some in Hj. lia. }
      destruct (IH (S k) Hj ltac:(lia) ltac:(lia)) as (ys & Hys & Hlen).
      rewrite (breaks_while_step _ fuel k x bk bk' Hk Hne Hk'), Hys.
      cbn [fst snd]. eexists. split; [done|].
      rewrite fmap_cons, Hlen. unfold length_of at 1. cbn [fst].
      rewrite (gap_uint32 k (S k) bk bk' Hk Hk') by lia.
      replace (j - k)%nat with (S (j - S k)) by lia.
      by rewrite (take_drop_S _ _ _ _ (gaps_lookup b k bk bk' Hk Hk')).
Qed.

Lemma diffs_with_breaks_item_gaps (k j : nat) (x x' : Z) out rin
    (ds : list (delta F)) :
  (1 <= k)%nat -> b !! (k - 1)%nat = Some x -> x < x' -> b !! j = Some x' ->
  (k - 1 < j)%nat /\
  exists ys,
    length_of <$> ys = take (j - (k - 1)) (drop (k - 1) (gaps b)) /\
    diffs_with_breaks_loop b ((x' - x, out, rin) :: ds) k x =
    (ys ++ (diffs_with_breaks_loop b ds (S j) x').1,
     (diffs_with_breaks_loop b ds (S j) x').2).
Proof.
  intros Hk Hx Hlt Hj.
  assert (Hkj : (k - 1 < j)%nat).
  { destruct (decide (k - 1 < j)%nat) as [?|Hge]; [done|].
    destruct (decide (j = k - 1)%nat) as [->|?]; [simplify_eq; lia|].
    pose proof (sorted_lookup_lt b j (k - 1) x' x Hsorted Hj Hx ltac:(lia)).
    lia. }
  split; [done|].
  destruct (lookup_lt_is_Some_2 b k) as [bk Hbk].
  { apply lookup_lt_Some in Hj. lia. }
  destruct (breaks_while_gaps (length b) k j x' Hj ltac:(lia))
    as (ys & Hys & Hlen).
  { apply lookup_lt_Some in Hj. lia. }
  exists ((uint32 (bk - x), out, rin) :: ys). split.
  - rewrite fmap_cons, Hlen. unfold length_of at 1. cbn [fst].
    rewrite (gap_uint32 (k - 1) k x bk Hx Hbk) by lia.
    replace (j - (k - 1))%nat with (S (j - k)) by lia.
    assert (Hg : gaps b !! (k - 1)%nat = Some (bk - x)).
    { apply gaps_lookup; [done|]. by replace (S (k - 1)) with k by lia. }
    rewrite (take_drop_S _ _ _ _ Hg).
    by replace (S (k - 1)) with k by lia.
  - rewrite diffs_with_breaks_loop_cons.
    replace (x + (x' - x)) with x' by lia.
    unfold index. rewrite Hbk, gen_bind_lift, Hx, gen_bind_lift.
    rewrite gen_bind_yield, Hys. unfold mbind, gen_bind. simpl.
    done.
Qed.

Lemma breaks_loop_gaps (rest : list (record F)) left used rin r (k : nat) :
  StronglySorted Z.le (left :: (r_left <$> rest)) ->
  Forall (fun rec => r_left rec < r_right rec) rest ->
  Forall (fun rec => r_left rec ∈ b) rest ->
  default r (r_right <$> last rest) ∈ b ->
  (1 <= k)%nat -> b !! (k - 1)%nat = Some left ->
  (rest = [] -> left < r) ->
  let g := diffs_with_breaks_loop b
             (diffs_loop rest left used rin (Some r)).1 k left in
  exists J : nat,
    b !! J = Some (default r (r_right <$> last rest)) /\
    (k - 1 <= J)%nat /\
    length_of <$> g.1 = take (J - (k - 1)) (drop (k - 1) (gaps b)).
Proof.
  revert left used rin r k. induction rest as [|rec rest IH];
    intros left used rin r k Hle Hlr Hlefts Hlast Hk Hx Hnil.
  - cbv zeta. simpl in Hlast. specialize (Hnil eq_refl).
    change (diffs_loop [] left used rin (Some r)).1
      with [(uint32 (r - left), used_at used left, rin)].
    change (default r (r_right <$> last [])) with r.
    apply list_elem_of_lookup in Hlast as [j Hj].
    destruct (diffs_with_breaks_item_gaps k j left r (used_at used left) rin
                [] Hk Hx Hnil Hj) as (Hkj & ys & Hlen & Heq).
    rewrite (gap_uint32 (k - 1) j left r Hx Hj Hkj), Heq.
    exists j. split; [done|]. split; [lia|].
    cbn [fst diffs_with_breaks_loop mret gen_ret]. by rewrite app_nil_r.
  - apply StronglySorted_inv in Hle as [Hsorted' Hle].
    rewrite fmap_cons in Hsorted'. rewrite fmap_cons in Hle.
    apply Forall_cons in Hle as [Hle _].
    apply Forall_cons in Hlr as [Hrec Hlr].
    apply Forall_cons in Hlefts as [Hleft Hlefts].
    rewrite default_last_cons in Hlast. rewrite default_last_cons.
    cbv zeta. rewrite diffs_loop_cons.
    destruct (decide (r_left rec = left)) as [<-|Hne].
    + by apply IH.
    + cbn [fst].
      apply list_elem_of_lookup in Hleft as [j Hj].
      destruct (diffs_with_breaks_item_gaps k j left (r_left rec)
                  (used_at used left) rin
                  (diffs_loop rest (r_left rec)
                     (record_used (delete left used) rec) [edge_of rec]
                     (Some (r_right rec))).1 Hk Hx ltac:(lia) Hj)
        as (Hkj & ys & Hlen & Heq).
      rewrite (gap_uint32 (k - 1) j left (r_left rec) Hx Hj Hkj), Heq.
      destruct (IH (r_left rec) (record_used (delete left used) rec)
                  [edge_of rec] (r_right rec) (S j) Hsorted' Hlr Hlefts Hlast
                  ltac:(lia)) as (J & HJ & HjJ & HlenJ).
      { by rewrite Nat.sub_1_r. }
      { done. }
      exists J. split; [done|]. cbn in HjJ. split; [lia|].
      cbn [fst]. rewrite fmap_app, Hlen, HlenJ.
      replace (S j - 1)%nat with (k - 1 + (j - (k - 1)))%nat by lia.
      rewrite <- drop_drop.
      rewrite take_take_drop. f_equal. lia.
Qed.

End BreaksLengths.

(** X6. On a valid tree sequence whose breakpoints are valid (they go
    from [0] to [num_loci] in increasing order and every [left] is one of
    them), [_diffs_with_breaks] ends without an exception and yields one
    item for every pair of consecutive breakpoints, in order, with the
    distance between the two as its length. *)
Theorem diffs_with_breaks_yields_every_gap {F} `{!Float F}
    (ts : TreeSequence F) :
  valid_ts ts = true -> valid_breakpoints ts = true ->
  (_diffs_with_breaks ts).2 = Ok () /\
  length_of <$> (_diffs_with_breaks ts).1 = gaps (_breakpoints ts).
Proof.
  intros Hvalid Hbreaks.
  destruct (diffs_with_breaks_valid_total ts Hvalid Hbreaks) as [Hend _].
  split; [done|]. unfold valid_ts in Hvalid.
  destruct (valid_records_inv _ _ _ Hvalid) as (Hn & Hm & Hall & _ & _).
  destruct (valid_breakpoints_inv ts Hbreaks ltac:(lia))
    as (Hb0 & Hbm & Hbs & Hbr & Hbl).
  pose proof (records_nonempty _ _ _ Hvalid) as Hne.
  pose proof (lefts_sorted _ _ _ Hvalid) as Hsorted.
  pose proof (last_record_right _ _ _ Hvalid) as Hlast.
  destruct (proj2 (last_is_Some (records ts)) Hne) as [rl Hrl].
  assert (Hblast : last (_breakpoints ts) = Some (_num_loci ts)).
  { unfold valid_breakpoints in Hbreaks. rewrite !andb_true_iff in Hbreaks.
    destruct Hbreaks as [[[_ Hl] _] _]. by apply bool_decide_eq_true in Hl. }
  unfold _diffs_with_breaks. rewrite gen_bind_fst.
  replace (match _ with Ok a => _ | Raise _ => [] end)
    with ([] : list (delta F)).
  2:{ destruct (diffs_with_breaks_loop _ _ _ _).2; [|done].
      by destruct (_diffs ts).2. }
  rewrite app_nil_r. unfold _diffs.
  destruct (records ts) as [|rec rest] eqn:Hrecs; [done|].
  rewrite diffs_loop_cons, <- (diffs_loop_cons rec rest 0 ∅ [] (Some 0)).
  destruct (breaks_loop_gaps (_breakpoints ts) Hbs Hbr (rec :: rest) 0 ∅ []
              0 1) as (J & HJ & _ & Hlen); try done.
  - constructor; [done|]. rewrite Forall_fmap.
    eapply Forall_impl; [exact Hall|]. simpl. intros; lia.
  - eapply Forall_impl; [exact Hall|]. simpl. intros; lia.
  - rewrite Hrl. cbn. by rewrite (Hlast rl Hrl).
  - rewrite Hlen. rewrite Hrl in HJ. cbn in HJ. rewrite (Hlast rl Hrl) in HJ.
    cbn. rewrite drop_0, Nat.sub_0_r.
    apply take_ge. rewrite gaps_length.
    assert (J = length (_breakpoints ts) - 1)%nat as ->; [|lia].
    rewrite last_lookup in Hblast.
    eapply sorted_lookup_inj; [exact Hbs|exact HJ|].
    by replace (length (_breakpoints ts) - 1)%nat
      with (Nat.pred (length (_breakpoints ts))) by lia.
Qed.

Lemma diffs_with_breaks_yields_every_gap_witness :
  valid_ts two_trees = true /\ valid_breakpoints two_trees = true /\
  (_diffs_with_breaks two_trees).2 = Ok () /\
  length_of <$> (_diffs_with_breaks two_trees).1 = [2; 1; 2].
Proof.
  assert (Hvalid : valid_ts two_trees = true) by (vm_compute; reflexivity).
  assert (Hbreaks : valid_breakpoints two_trees = true)
    by (vm_compute; reflexivity).
  split; [exact Hvalid|]. split; [exact Hbreaks|].
  exact (diffs_with_breaks_yields_every_gap two_trees Hvalid Hbreaks).
Defined.

Section BreaksOutcome.
Context {F : Type} `{!Float F}.
Variable b : list Z.

Lemma breaks_while_outcome (fuel k : nat) (x : Z) :
  (length b <= k + fuel)%nat ->
  (exists j, (@breaks_while F fuel b k x).2 = Ok j) \/
  (@breaks_while F fuel b k x).2 = Raise IndexError.
Proof.
  revert k. induction fuel as [|fuel IH]; intros k Hlen;
    rewrite breaks_while_unfold, gen_bind_lift; unfold index;
    destruct (b !! k) as [bk|] eqn:Hk.
  - apply lookup_lt_Some in Hk. lia.
  - right; reflexivity.
  - destruct (decide (bk = x)); [left; by eexists|].
    rewrite gen_bind_lift.
    destruct (b !! S k) as [bk'|]; [|right; reflexivity].
    rewrite gen_bind_lift.
    destruct (b !! (S k - 1)%nat) as [bk1|]; [|right; reflexivity].
    rewrite gen_bind_yield. cbn [snd]. apply IH. lia.
  - right; reflexivity.
Qed.

Lemma gen_bind_snd {Y A B} (g : gen Y A) (k : A -> gen Y B) :
  (g ≫= k).2 = match g.2 with Ok a => (k a).2 | Raise e => Raise e end.
Proof.
  unfold mbind, gen_bind. destruct g as [ys [a|e]]; [|done]. cbn.
  by destruct (k a).
Qed.

Lemma diffs_with_breaks_loop_outcome (ds : list (delta F)) : forall k x,
  (diffs_with_breaks_loop b ds k x).2 = Ok () \/
  (diffs_with_breaks_loop b ds k x).2 = Raise IndexError.
Proof.
  induction ds as [|[[len out] rin] ds IH]; intros k x; [by left|].
  rewrite diffs_with_breaks_loop_cons, gen_bind_lift.
  destruct (index b k) as [bk|e] eqn:Hk.
  2:{ right. unfold index in Hk. destruct (b !! k); [done|].
      by injection Hk as <-. }
  rewrite gen_bind_lift.
  destruct (index b (k - 1)) as [bk1|e] eqn:Hk1.
  2:{ right. unfold index in Hk1. destruct (b !! (k - 1)%nat); [done|].
      by injection Hk1 as <-. }
  rewrite gen_bind_yield. cbn [snd]. rewrite gen_bind_snd.
  destruct (breaks_while_outcome (length b) k (x + len)) as [[j ->]| ->];
    [lia| |by right].
  apply IH.
Qed.

End BreaksOutcome.

(** X7. The ways [_diffs_with_breaks] can end, for any tree sequence:
    without records it yields nothing and the unbound [r] of [_diffs]
    raises [UnboundLocalError]; with records it either ends or a
    breakpoint index runs off the array and [IndexError] is raised, and
    the loop [while self._breakpoints[k] != x] never goes on for ever. *)
Theorem diffs_with_breaks_outcomes {F} `{!Float F} (ts : TreeSequence F) :
  (records ts = [] ->
   _diffs_with_breaks ts = ([], Raise UnboundLocalError)) /\
  (records ts ≠ [] ->
   (_diffs_with_breaks ts).2 = Ok () \/
   (_diffs_with_breaks ts).2 = Raise IndexError).
Proof.
  split.
  - intros Hnil. unfold _diffs_with_breaks, _diffs. rewrite Hnil. done.
  - intros Hne. unfold _diffs_with_breaks. rewrite gen_bind_snd.
    rewrite (diffs_returns ts Hne).
    destruct (diffs_with_breaks_loop_outcome (_breakpoints ts)
                (_diffs ts).1 1 0) as [-> | ->]; [by left|by right].
Qed.

Lemma diffs_with_breaks_outcomes_witness :
  (@_diffs_with_breaks Z (TS [0; 5] [] [] [] [] [] 3 5)
   = ([], Raise UnboundLocalError)) /\
  (@_diffs_with_breaks Z (TS [0] [0] [5] [(1, 2)] [3] [1] 2 5)).2
  = Raise IndexError.
Proof.
  split.
  - apply (proj1 (diffs_with_breaks_outcomes (TS [0; 5] [] [] [] [] [] 3 5))).
    reflexivity.
  - by vm_compute.
Defined.

(** ** The tree in the dictionaries of the NewickGenerator *)

Lemma find_root_unfold fuel (P : gmap Z Z) root :
  find_root fuel P root =
  match P !! root with
  | Some p =>
      match fuel with
      | O => Raise Diverges
      | S fuel => find_root fuel P p
      end
  | None => Ok root
  end.
Proof. by destruct fuel. Qed.

(** From a node of a tree the loop goes up to the root of the tree in at
    most as many steps as the tree is high. *)
Lemma find_root_tree (P : gmap Z Z) t x :
  parents_in P t -> x ∈ nodes t ->
  exists d, (d <= height t)%nat /\
    forall fuel, find_root (d + fuel) P x = find_root fuel P (root_of t).
Proof.
  induction t as [u|p l IHl r IHr]; cbn [parents_in nodes height root_of].
  - intros _ Hx. apply list_elem_of_singleton in Hx as ->.
    exists 0%nat. split; [lia|done].
  - intros (Hl & Hr & Hpl & Hpr). rewrite elem_of_cons, elem_of_app.
    intros [->|[Hx|Hx]].
    + exists 0%nat. split; [lia|done].
    + destruct (IHl Hpl Hx) as (d & Hd & Hf). exists (S d). split; [lia|].
      intros fuel. replace (S d + fuel)%nat with (d + S fuel)%nat by lia.
      rewrite Hf, find_root_unfold, Hl. done.
    + destruct (IHr Hpr Hx) as (d & Hd & Hf). exists (S d). split; [lia|].
      intros fuel. replace (S d + fuel)%nat with (d + S fuel)%nat by lia.
      rewrite Hf, find_root_unfold, Hr. done.
Qed.

Lemma links_of_elem t ch p :
  (ch, p) ∈ links_of t ->
  exists l r, ch = (root_of l, root_of r) /\ p ∈ inner t.
Proof.
  induction t as [u|q l IHl r IHr]; cbn [links_of inner].
  - intros Hin. by apply elem_of_nil in Hin.
  - rewrite elem_of_cons, elem_of_app. intros [[= -> ->]|[Hin|Hin]].
    + exists l, r. split; [done|]. left.
    + destruct (IHl Hin) as (l' & r' & ? & ?). exists l', r'.
      split; [done|]. right. apply elem_of_app. by left.
    + destruct (IHr Hin) as (l' & r' & ? & ?). exists l', r'.
      split; [done|]. right. apply elem_of_app. by right.
Qed.

Section NewickTree.
Context {F : Type} `{!Float F}.
Variables (self : NewickGenerator F) (E : list link) (t : tree).
Hypothesis Hn : 0 <= ng_sample_size self.
Hypothesis Hforest : ng_forest self E E.
Hypothesis Htree : tree_for (ng_sample_size self) E t.

Lemma ng_tree_in_sub t' :
  (forall e, e ∈ links_of t' -> e ∈ E) ->
  (forall u, u ∈ leaves t' -> 1 <= u <= ng_sample_size self) ->
  tree_in (ng_children self) t'.
Proof.
  destruct Hforest as [HC _ _ _].
  destruct (tree_for_flat _ _ _ Hn Htree) as (_ & _ & Hgt & _).
  induction t' as [u|p l IHl r IHr]; cbn [links_of leaves tree_in];
    intros Hl Hlv.
  - destruct (ng_children self !! u) as [ch|] eqn:Hu; [|done].
    apply HC in Hu. rewrite Forall_forall in Hgt.
    specialize (Hgt u). lapply Hgt.
    + specialize (Hlv u ltac:(left)). lia.
    + unfold parents. apply list_elem_of_fmap. by exists (ch, u).
  - split; [apply HC, Hl; left|]. split.
    + apply IHl; [intros e He; apply Hl|intros u Hu; apply Hlv]; set_solver.
    + apply IHr; [intros e He; apply Hl|intros u Hu; apply Hlv]; set_solver.
Qed.

Lemma ng_tree_in : tree_in (ng_children self) t.
Proof.
  destruct Htree as [Hl _ Hlv _].
  apply ng_tree_in_sub.
  - intros e He. by rewrite Hl.
  - intros u Hu. by apply Hlv.
Qed.

Lemma ng_parents_in_sub t' :
  (forall e, e ∈ links_of t' -> e ∈ E) -> parents_in (ng_parent self) t'.
Proof.
  destruct Hforest as [_ HP _ _].
  induction t' as [u|p l IHl r IHr]; cbn [links_of parents_in];
    intros Hl; [done|].
  assert (He : ((root_of l, root_of r), p) ∈ E) by (apply Hl; left).
  split; [|split; [|split]].
  - apply HP, child_pairs_elem. exists (root_of l, root_of r).
    split; [done|]. by left.
  - apply HP, child_pairs_elem. exists (root_of l, root_of r).
    split; [done|]. by right.
  - apply IHl. intros e Hin. apply Hl. set_solver.
  - apply IHr. intros e Hin. apply Hl. set_solver.
Qed.

Lemma ng_parents_in : parents_in (ng_parent self) t.
Proof.
  destruct Htree as [Hl _ _ _]. apply ng_parents_in_sub.
  intros e He. by rewrite Hl.
Qed.

(** A node of the tree has a parent unless it is the root. *)
Lemma ng_parent_dom x :
  x ∈ nodes t -> (ng_parent self !! x = None <-> x = root_of t).
Proof.
  destruct Hforest as [_ HP _ _].
  destruct (tree_for_flat _ _ _ Hn Htree)
    as (_ & _ & _ & _ & Hroot & _ & _).
  destruct Htree as [Hl _ _ _].
  pose proof (children_links_of t) as Hch. rewrite <- Hl in Hch.
  intros Hx. rewrite <- Hch in Hx. split.
  - intros Hnone. apply elem_of_cons in Hx as [?|Hx]; [done|]. exfalso.
    unfold children_of in Hx. apply list_elem_of_bind in Hx as (e & Hx & He).
    assert (Hp : (x, e.2) ∈ child_pairs E).
    { apply child_pairs_elem. exists e.1. split; [by destruct e|].
      set_solver. }
    apply HP in Hp. congruence.
  - intros ->. destruct (ng_parent self !! root_of t) as [p|] eqn:Hp; [|done].
    exfalso. apply HP, child_pairs_child in Hp as [Hc _]. done.
Qed.

Lemma ng_find_root :
  1 <= ng_sample_size self ->
  find_root (size (ng_parent self)) (ng_parent self) 1 = Ok (root_of t).
Proof.
  intros Hn1.
  assert (H1 : 1 ∈ nodes t).
  { apply leaves_in_nodes. destruct Htree as [_ _ Hlv _]. apply Hlv. lia. }
  destruct (find_root_tree _ _ 1 ng_parents_in H1) as (d & Hd & Hf).
  assert (Hsize : (d <= size (ng_parent self))%nat).
  { pose proof (height_inner t).
    assert (Hsub : (length (inner t) <= size (ng_parent self))%nat).
    { rewrite <- size_dom.
      destruct (tree_for_flat _ _ _ Hn Htree)
        as (Hlen & _ & _ & Hndc & _ & _ & _).
      destruct Hforest as [_ HP _ _].
      assert (Hdom : list_to_set (children_of E) ⊆ dom (ng_parent self)).
      { intros x. rewrite elem_of_list_to_set. unfold children_of.
        intros (e & Hx & He)%list_elem_of_bind.
        apply elem_of_dom. exists e.2. apply HP, child_pairs_elem.
        exists e.1. split; [by destruct e|]. set_solver. }
      apply subseteq_size in Hdom.
      rewrite size_list_to_set in Hdom by done.
      rewrite children_of_length in Hdom.
      destruct Htree as [Hl _ _ _].
      assert (length (inner t) = length E).
      { rewrite <- parents_links_of, <- Hl. unfold parents.
        by rewrite length_fmap. }
      lia. }
    lia. }
  replace (size (ng_parent self))
    with (d + (size (ng_parent self) - d))%nat by lia.
  rewrite Hf, find_root_unfold.
  by rewrite (proj2 (ng_parent_dom _ (root_in_nodes t)) eq_refl).
Qed.

End NewickTree.

Section NewickSizes.
Context {F : Type} `{!Float F}.
Variables (self : NewickGenerator F) (E : list link) (t : tree).
Hypothesis Hn : 0 <= ng_sample_size self.
Hypothesis Hforest : ng_forest self E E.
Hypothesis Htree : tree_for (ng_sample_size self) E t.

Lemma ng_parent_keys : dom (ng_parent self) = list_to_set (children_of E).
Proof.
  destruct Hforest as [_ HP _ _]. apply set_eq. intros x.
  rewrite elem_of_dom, elem_of_list_to_set. split.
  - intros [p Hp]. by apply HP, child_pairs_child in Hp as [? _].
  - unfold children_of. intros (e & Hx & He)%list_elem_of_bind.
    exists e.2. apply HP, child_pairs_elem.
    exists e.1. split; [by destruct e|]. set_solver.
Qed.

(** The three counts that [next] asserts. *)
Lemma ng_sizes :
  Z.of_nat (size (ng_time self)) = 2 * ng_sample_size self - 1 /\
  Z.of_nat (size (ng_parent self)) = 2 * ng_sample_size self - 2 /\
  Z.of_nat (size (ng_branch_length self)) = 2 * ng_sample_size self - 2.
Proof.
  destruct (tree_for_flat _ _ _ Hn Htree)
    as (Hlen & Hndp & Hgt & Hndc & _ & _ & _).
  pose proof ng_parent_keys as HP.
  destruct Hforest as [_ _ HT HB].
  rewrite <- !size_dom, HT, HP, HB.
  rewrite size_union.
  2:{ intros x. rewrite !elem_of_list_to_set, elem_of_seqZ.
      intros Hx Hp. rewrite Forall_forall in Hgt. specialize (Hgt x Hp).
      simpl in Hgt. lia. }
  rewrite !size_list_to_set by (done || apply NoDup_seqZ).
  rewrite length_seqZ, children_of_length. unfold parents.
  rewrite length_fmap. lia.
Qed.

(** The branch lengths are those of the nodes but the root. *)
Lemma ng_branch_keys x :
  x ∈ nodes t -> x ≠ root_of t -> x ∈ dom (ng_branch_length self).
Proof.
  intros Hx Hne. destruct Hforest as [_ _ _ HB]. rewrite HB.
  apply elem_of_list_to_set.
  destruct Htree as [Hl _ _ _].
  pose proof (children_links_of t) as Hch. rewrite <- Hl in Hch.
  rewrite <- Hch in Hx. by apply elem_of_cons in Hx as [?|?].
Qed.

End NewickSizes.

(** ** _update_subtrees *)

Lemma for_each_app {A S} (f : S -> A -> result S) (l1 l2 : list A) (s : S) :
  for_each f (l1 ++ l2) s = for_each f l1 s ≫= for_each f l2.
Proof.
  revert s. induction l1 as [|x l1 IH]; intros s; [done|].
  cbn [for_each app]. destruct (f s x) as [s1|e]; [|done].
  cbn [mbind result_bind]. apply IH.
Qed.

Lemma uncached_nodes S t x : x ∈ uncached S t -> x ∈ nodes t /\ S !! x = None.
Proof.
  induction t as [u|p l IHl r IHr]; cbn [uncached nodes].
  - destruct (S !! u) eqn:Hu; [by intros ?%elem_of_nil|].
    intros ->%list_elem_of_singleton. split; [left|done].
  - destruct (S !! p) eqn:Hp; [by intros ?%elem_of_nil|].
    rewrite !elem_of_cons, !elem_of_app. intros [->|[Hx|Hx]].
    + split; [by left|done].
    + destruct (IHr Hx). split; [right; by right|done].
    + destruct (IHl Hx). split; [right; by left|done].
Qed.

Lemma uncached_length S t : (length (uncached S t) <= length (nodes t))%nat.
Proof.
  induction t as [u|p l IHl r IHr]; cbn [uncached nodes].
  - destruct (S !! u); cbn; lia.
  - destruct (S !! p); cbn; [lia|]. rewrite !length_app. lia.
Qed.

Lemma uncached_ext S S' t :
  (forall x, x ∈ nodes t -> S !! x = S' !! x) -> uncached S t = uncached S' t.
Proof.
  induction t as [u|p l IHl r IHr]; cbn [uncached nodes]; intros Hagree.
  - by rewrite (Hagree u ltac:(left)).
  - rewrite (Hagree p ltac:(left)), IHl, IHr; [done| |];
      intros x Hx; apply Hagree; set_solver.
Qed.

Section UpdateSubtrees.
Context {F : Type} `{!Float F}.

Lemma collect_nil fuel (self : NewickGenerator F) acc :
  collect fuel self [] acc = Ok acc.
Proof. by destruct fuel. Qed.

(** The first loop on a stack with the root of a tree on top: the tree is
    gone from the stack, and its nodes without a string are in [nodes]. *)
Lemma collect_tree (self : NewickGenerator F) t :
  tree_in (ng_children self) t ->
  exists c, (c <= length (nodes t))%nat /\
    forall fuel stack acc,
      Z.of_nat (length acc + length (uncached (ng_subtree self) t))
        <= 2 * ng_sample_size self ->
      collect (c + fuel) self (root_of t :: stack) acc
      = collect fuel self stack (acc ++ uncached (ng_subtree self) t).
Proof.
  induction t as [u|p l IHl r IHr]; cbn [tree_in nodes root_of uncached].
  - intros Hu. exists 1%nat. split; [cbn; lia|]. intros fuel stack acc.
    cbn [Nat.add collect]. destruct (ng_subtree self !! u) as [s|].
    + by rewrite app_nil_r.
    + cbn [length]. intros Hlen. rewrite decide_True by lia. by rewrite Hu.
  - intros (Hp & Hl & Hr).
    destruct (IHl Hl) as (cl & Hcl & Hfl).
    destruct (IHr Hr) as (cr & Hcr & Hfr).
    destruct (ng_subtree self !! p) as [s|] eqn:HS.
    + exists 1%nat. split; [cbn; lia|]. intros fuel stack acc _.
      cbn [Nat.add collect]. by rewrite HS, app_nil_r.
    + exists (S (cr + cl)). split; [cbn; rewrite length_app; lia|].
      intros fuel stack acc Hlen. cbn [Nat.add collect]. rewrite HS.
      cbn [length] in Hlen. rewrite length_app in Hlen.
      rewrite decide_True by lia. rewrite Hp.
      replace (cr + cl + fuel)%nat with (cr + (cl + fuel))%nat by lia.
      rewrite Hfr by (rewrite length_app; cbn; lia).
      rewrite Hfl by (rewrite !length_app; cbn; lia).
      f_equal. rewrite <- !app_assoc. done.
Qed.

Lemma subtree_string_children n prec C B (T : gmap Z F) P S root v s ch :
  subtree_string (NG n prec C B T P S root) v = Ok s ->
  C !! v = Some ch -> ch.1 ∈ dom S /\ ch.2 ∈ dom S.
Proof.
  unfold subtree_string. cbn [ng_children ng_subtree ng_branch_length ng_root].
  intros Hs Hv. rewrite Hv in Hs.
  apply result_bind_Ok in Hs as (s1 & H1 & Hs).
  apply result_bind_Ok in Hs as (s2 & H2 & Hs).
  unfold getitem in H1, H2. split; apply elem_of_dom.
  - destruct (S !! ch.1); [eauto|done].
  - destruct (S !! ch.2); [eauto|done].
Qed.

Lemma subtree_string_insert n prec C B (T : gmap Z F) P S root v p sp :
  (forall ch, C !! v = Some ch -> ch.1 ≠ p /\ ch.2 ≠ p) ->
  subtree_string (NG n prec C B T P (<[p := sp]> S) root) v
  = subtree_string (NG n prec C B T P S root) v.
Proof.
  intros Hch. unfold subtree_string.
  cbn [ng_children ng_subtree ng_branch_length ng_root].
  destruct (C !! v) as [ch|]; [|done].
  destruct (Hch ch eq_refl) as [H1 H2].
  unfold getitem. by rewrite !lookup_insert_ne by done.
Qed.

(** One step of the second loop, for a node without a string whose
    children have theirs. *)
Lemma build_subtree_ok n prec C B (T : gmap Z F) P S root p :
  S !! p = None ->
  strings_ok (NG n prec C B T P S root) ->
  match C !! p with
  | Some ch => ch.1 ∈ dom S /\ ch.2 ∈ dom S /\ (p ≠ root -> p ∈ dom B)
  | None => p ∈ dom B
  end ->
  exists s,
    build_subtree (NG n prec C B T P S root) p
    = Ok (NG n prec C B T P (<[p := s]> S) root) /\
    strings_ok (NG n prec C B T P (<[p := s]> S) root).
Proof.
  intros Hp Hok Hch.
  assert (Hs : exists s, subtree_string (NG n prec C B T P S root) p = Ok s).
  { unfold subtree_string.
    cbn [ng_children ng_subtree ng_branch_length ng_root].
    destruct (C !! p) as [ch|].
    - destruct Hch as (H1 & H2 & HB).
      destruct (getitem_dom S _ H1) as (s1 & -> & _).
      destruct (getitem_dom S _ H2) as (s2 & -> & _).
      cbn [mbind result_bind].
      destruct (decide (p = root)) as [?|Hne]; [by eexists|].
      destruct (getitem_dom B _ (HB Hne)) as (bl & -> & _).
      by eexists.
    - destruct (getitem_dom B _ Hch) as (bl & -> & _). by eexists. }
  destruct Hs as [s Hs]. exists s. split.
  { unfold build_subtree. rewrite Hs. done. }
  intros v s'. cbn [ng_subtree]. intros Hv.
  rewrite subtree_string_insert.
  - apply lookup_insert_Some in Hv as [[<- <-]|[Hne Hv]]; [done|].
    by apply Hok.
  - intros ch Hc.
    assert (Hin : ch.1 ∈ dom S /\ ch.2 ∈ dom S).
    { apply lookup_insert_Some in Hv as [[<- <-]|[Hne Hv]].
      - by eapply subtree_string_children.
      - eapply subtree_string_children; [|done]. by apply Hok. }
    apply not_elem_of_dom in Hp. destruct Hin. split; by intros <-.
Qed.

(** The second loop over the nodes that the first loop has found below a
    tree; [S0] is the cache that the first loop has seen. *)
Lemma build_tree (S0 : gmap Z string) t : forall n prec C B (T : gmap Z F) P S root,
  tree_in C t -> NoDup (nodes t) ->
  (forall x, x ∈ nodes t -> x ≠ root -> x ∈ dom B) ->
  (forall u, u ∈ leaves t -> u ≠ root) ->
  (forall x, x ∈ nodes t -> S !! x = S0 !! x) ->
  strings_ok (NG n prec C B T P S root) ->
  exists S',
    for_each build_subtree (rev (uncached S0 t)) (NG n prec C B T P S root)
    = Ok (NG n prec C B T P S' root) /\
    S ⊆ S' /\ (forall x, x ∉ nodes t -> S' !! x = S !! x) /\
    root_of t ∈ dom S' /\ strings_ok (NG n prec C B T P S' root).
Proof.
  induction t as [u|p l IHl r IHr];
    intros n prec C B T P S root Ht Hnd HB Hlv Hagree Hok;
    cbn [uncached root_of nodes leaves tree_in] in *.
  - destruct (S0 !! u) as [s0|] eqn:Hu.
    + exists S. split; [done|]. split; [done|]. split; [done|].
      split; [|done]. apply elem_of_dom. rewrite (Hagree u ltac:(left)).
      eauto.
    + assert (HSu : S !! u = None) by (by rewrite (Hagree u ltac:(left))).
      destruct (build_subtree_ok n prec C B T P S root u HSu Hok)
        as (s & Hb & Hok').
      { rewrite Ht. apply HB; [left|]. apply Hlv. left. }
      exists (<[u := s]> S). split.
      { cbn [rev app for_each]. by rewrite Hb. }
      split; [by apply insert_subseteq|]. split.
      { intros x Hx. rewrite lookup_insert_ne; [done|]. set_solver. }
      split; [|done]. rewrite dom_insert_L. set_solver.
  - destruct Ht as (Hp & Htl & Htr).
    apply NoDup_cons in Hnd as [Hpn Hnd].
    apply NoDup_app in Hnd as (Hndl & Hdisj & Hndr).
    rewrite not_elem_of_app in Hpn. destruct Hpn as [Hpl Hpr].
    destruct (S0 !! p) as [s0|] eqn:HS0.
    + exists S. split; [done|]. split; [done|]. split; [done|].
      split; [|done]. apply elem_of_dom. rewrite (Hagree p ltac:(left)).
      eauto.
    + destruct (IHl n prec C B T P S root Htl Hndl)
        as (S1 & H1 & Hsub1 & Hout1 & Hroot1 & Hok1); try done.
      { intros x Hx. apply HB. right. apply elem_of_app. by left. }
      { intros u Hu. apply Hlv. apply elem_of_app. by left. }
      { intros x Hx. apply Hagree. right. apply elem_of_app. by left. }
      destruct (IHr n prec C B T P S1 root Htr Hndr)
        as (S2 & H2 & Hsub2 & Hout2 & Hroot2 & Hok2); try done.
      { intros x Hx. apply HB. right. apply elem_of_app. by right. }
      { intros u Hu. apply Hlv. apply elem_of_app. by right. }
      { intros x Hx. rewrite Hout1.
        - apply Hagree. right. apply elem_of_app. by right.
        - intros Hxl. by apply (Hdisj x). }
      assert (HSp : S2 !! p = None).
      { rewrite Hout2, Hout1 by done. by rewrite (Hagree p ltac:(left)). }
      destruct (build_subtree_ok n prec C B T P S2 root p HSp Hok2)
        as (s & Hb & Hok').
      { rewrite Hp. cbn [fst snd]. split; [|split].
        - by eapply subseteq_dom.
        - done.
        - intros Hne. apply HB; [left|done]. }
      exists (<[p := s]> S2). split.
      { cbn [rev]. rewrite rev_app_distr, !for_each_app, H1.
        cbn [mbind result_bind]. rewrite H2. cbn [mbind result_bind for_each].
        by rewrite Hb. }
      split.
      { etrans; [exact Hsub1|]. etrans; [exact Hsub2|].
        by apply insert_subseteq. }
      split.
      { intros x Hx. rewrite not_elem_of_cons, not_elem_of_app in Hx.
        destruct Hx as (Hxp & Hxl & Hxr).
        rewrite lookup_insert_ne by done. by rewrite Hout2, Hout1. }
      split; [|done]. rewrite dom_insert_L. set_solver.
Qed.

(** [_update_subtrees] when the children dictionary holds a tree below the
    root: the strings of the nodes without one are built, the others are
    kept, and the root has its string. *)
Lemma update_subtrees_tree n prec C B (T : gmap Z F) P S t :
  tree_in C t -> NoDup (nodes t) ->
  Z.of_nat (length (nodes t)) <= 2 * n ->
  (forall x, x ∈ nodes t -> x ≠ root_of t -> x ∈ dom B) ->
  (forall u, u ∈ leaves t -> u ≠ root_of t) ->
  strings_ok (NG n prec C B T P S (root_of t)) ->
  exists S',
    _update_subtrees (NG n prec C B T P S (root_of t))
    = Ok (NG n prec C B T P S' (root_of t)) /\
    S ⊆ S' /\ (forall x, x ∉ nodes t -> S' !! x = S !! x) /\
    root_of t ∈ dom S' /\ strings_ok (NG n prec C B T P S' (root_of t)).
Proof.
  intros Ht Hnd Hlen HB Hlv Hok.
  destruct (collect_tree (NG n prec C B T P S (root_of t)) t Ht)
    as (c & Hc & Hcollect).
  cbn [ng_subtree ng_sample_size] in Hcollect.
  pose proof (uncached_length S t) as Hul.
  unfold _update_subtrees. cbn [ng_sample_size ng_root].
  replace (Z.to_nat (4 * n + 1)) with (c + (Z.to_nat (4 * n + 1) - c))%nat
    by lia.
  rewrite Hcollect by (cbn [length]; lia).
  rewrite collect_nil. cbn [mbind result_bind app].
  by apply build_tree.
Qed.

(** A string of the cache, in a cache where every string is the one that
    would be built now, is the Newick string of the tree below its node. *)
Lemma cached_string_is_newick (self : NewickGenerator F) t : forall s,
  strings_ok self -> tree_in (ng_children self) t ->
  ng_subtree self !! root_of t = Some s ->
  s = newick_of (ng_branch_length self) (ng_root self) t.
Proof.
  induction t as [u|p l IHl r IHr]; intros s Hok Ht Hs;
    cbn [root_of tree_in newick_of] in *.
  - apply Hok in Hs. unfold subtree_string in Hs. rewrite Ht in Hs.
    apply result_bind_Ok in Hs as (bl & Hbl & Hs).
    unfold getitem in Hbl.
    destruct (ng_branch_length self !! u) as [bl'|]; [|done].
    injection Hbl as ->. by injection Hs as <-.
  - destruct Ht as (Hp & Htl & Htr).
    apply Hok in Hs. unfold subtree_string in Hs. rewrite Hp in Hs.
    cbn [fst snd] in Hs.
    apply result_bind_Ok in Hs as (s1 & H1 & Hs).
    apply result_bind_Ok in Hs as (s2 & H2 & Hs).
    unfold getitem in H1, H2.
    destruct (ng_subtree self !! root_of l) as [s1'|] eqn:Hl; [|done].
    destruct (ng_subtree self !! root_of r) as [s2'|] eqn:Hr; [|done].
    injection H1 as ->. injection H2 as ->.
    rewrite <- (IHl s1 Hok Htl eq_refl), <- (IHr s2 Hok Htr eq_refl).
    destruct (decide (p = ng_root self)) as [?|Hne].
    + by injection Hs as <-.
    + apply result_bind_Ok in Hs as (bl & Hbl & Hs).
      unfold getitem in Hbl.
      destruct (ng_branch_length self !! p) as [bl'|]; [|done].
      injection Hbl as ->. by injection Hs as <-.
Qed.

(** Below a node with a string every node has one. *)
Lemma cached_below (self : NewickGenerator F) t x :
  strings_ok self -> tree_in (ng_children self) t ->
  root_of t ∈ dom (ng_subtree self) -> x ∈ nodes t ->
  x ∈ dom (ng_subtree self).
Proof.
  intros Hok. induction t as [u|p l IHl r IHr];
    cbn [root_of tree_in nodes].
  - intros _ Hu ->%list_elem_of_singleton. done.
  - intros (Hp & Htl & Htr) Hin.
    pose proof Hin as Hin'.
    apply elem_of_dom in Hin' as [s Hs]. apply Hok in Hs.
    destruct self as [n prec C B T P S root].
    destruct (subtree_string_children _ _ _ _ _ _ _ _ _ _ _ Hs Hp)
      as [H1 H2]. cbn [fst snd] in H1, H2.
    rewrite elem_of_cons, elem_of_app. intros [->|[Hx|Hx]].
    + done.
    + by apply IHl.
    + by apply IHr.
Qed.

End UpdateSubtrees.

(** ** NewickGenerator.next on an item of a valid stream *)

Lemma tree_for_root_inner n E t :
  2 <= n -> tree_for n E t ->
  (forall u, u ∈ leaves t -> u ≠ root_of t) /\
  Z.of_nat (length (nodes t)) = 2 * n - 1.
Proof.
  intros Hn Ht. pose proof Ht as [Hl Hnd Hlv Hin]. split.
  - destruct t as [u|p l r].
    + assert (H1 : 1 ∈ leaves (Leaf u)) by (apply Hlv; lia).
      assert (H2 : 2 ∈ leaves (Leaf u)) by (apply Hlv; lia).
      cbn in H1, H2. apply list_elem_of_singleton in H1, H2. lia.
    + intros u Hu. apply Hlv in Hu. cbn [inner root_of] in *.
      apply Forall_cons in Hin as [Hp _]. lia.
  - destruct (tree_for_flat n E t ltac:(lia) Ht) as (Hlen & _).
    rewrite nodes_length.
    assert (length (inner t) = length E).
    { rewrite <- parents_links_of, <- Hl. unfold parents.
      by rewrite length_fmap. }
    lia.
Qed.

Section NewickNext.
Context {F : Type} `{!Float F}.

Lemma ng_forest_fields n prec C B (T : gmap Z F) P S root S' root' EC EB :
  ng_forest (NG n prec C B T P S root) EC EB ->
  ng_forest (NG n prec C B T P S' root') EC EB.
Proof. intros [? ? ? ?]. by split. Qed.

(** The strings that the three loops have left in the cache are the ones
    that would be built for the new tree. *)
Lemma strings_ok_transfer n prec C B (T : gmap Z F) P S root
    C' B' (T' : gmap Z F) P' S' (E' : list link) t :
  0 <= n ->
  strings_ok (NG n prec C B T P S root) ->
  (forall v, v ∈ dom S -> (v = root <-> P !! v = None)) ->
  ng_forest (NG n prec C' B' T' P' S' (root_of t)) E' E' ->
  tree_for n E' t ->
  cache_closed P' S' -> S' ⊆ S ->
  (forall v, v ∈ dom S' ->
     v ∈ nodes t /\ C' !! v = C !! v /\ B' !! v = B !! v /\
     P' !! v = P !! v) ->
  strings_ok (NG n prec C' B' T' P' S' (root_of t)).
Proof.
  intros Hn Hstr Hroot Hf Ht Hcl Hsub Hsame v s Hv.
  unfold strings_ok in Hstr.
  cbn [ng_subtree ng_parent ng_root] in *.
  assert (HvS' : v ∈ dom S') by (apply elem_of_dom; eauto).
  destruct (Hsame v HvS') as (Hvt & HC & HB & HP).
  pose proof (lookup_weaken _ _ _ _ Hv Hsub) as HvS.
  pose proof (Hstr v s HvS) as Hold.
  assert (Hr : v = root <-> v = root_of t).
  { rewrite (Hroot v) by (apply elem_of_dom; eauto). rewrite <- HP.
    apply (ng_parent_dom (NG n prec C' B' T' P' S' (root_of t)) E' t Hn Hf
             Ht v Hvt). }
  unfold subtree_string in *.
  cbn [ng_children ng_subtree ng_branch_length ng_root] in *.
  rewrite HC. destruct (C !! v) as [ch|] eqn:HCv.
  - assert (Hch : forall c, c = ch.1 \/ c = ch.2 -> S' !! c = S !! c).
    { intros c Hc.
      assert (HPc : P' !! c = Some v).
      { destruct Hf as [HC' HP' _ _].
        cbn [ng_children ng_parent] in HC', HP'.
        apply HP', child_pairs_elem. exists ch. split; [|done].
        apply HC'. by rewrite HC. }
      destruct (S' !! c) as [x|] eqn:Hc'.
      - symmetry. by eapply lookup_weaken.
      - exfalso. apply (Hcl c v HPc); [|done]. by apply not_elem_of_dom. }
    unfold getitem in *.
    rewrite (Hch ch.1) by (by left). rewrite (Hch ch.2) by (by right).
    destruct (S !! ch.1) as [s1|]; [|done].
    destruct (S !! ch.2) as [s2|]; [|done].
    cbn [mbind result_bind] in *.
    destruct (decide (v = root)) as [Heq|Hne].
    + rewrite decide_True by (by apply Hr). done.
    + rewrite decide_False by (by rewrite <- Hr). by rewrite HB.
  - unfold getitem in *. by rewrite HB.
Qed.

(** [next] on an item of a valid stream: it returns the Newick string of
    the new tree, and leaves the forest and the cache in order. *)
Lemma next_ok n prec C B (T : gmap Z F) P S root
    (E K E' out rin : list (edge F)) t len :
  2 <= n ->
  flat n (fst <$> E) ->
  ng_forest (NG n prec C B T P S root) (fst <$> E) (fst <$> E) ->
  ng_cache (NG n prec C B T P S root) (fst <$> E) ->
  E ≡ₚ out ++ K -> E' ≡ₚ K ++ rin -> tree_for n (fst <$> E') t ->
  exists C' B' T' P' S',
    NewickGenerator_next (NG n prec C B T P S root) (len, out, rin)
    = Ok (NG n prec C' B' T' P' S' (root_of t),
          (len, newick_of B' (root_of t) t)) /\
    ng_forest (NG n prec C' B' T' P' S' (root_of t)) (fst <$> E')
      (fst <$> E') /\
    ng_cache (NG n prec C' B' T' P' S' (root_of t)) (fst <$> E').
Proof.
  intros Hn Hflat Hf [Hcl Hnodes Hstr Hroot] HE HE' Ht.
  cbn [ng_subtree ng_parent ng_root ng_sample_size] in Hcl, Hnodes, Hroot.
  assert (Hn0 : 0 <= n) by lia.
  destruct (ng_update_ok n prec C B T P S root E K E' out rin t Hn0 Hflat Hf
              Hcl Hnodes HE HE' Ht)
    as (s1 & s2 & C' & B' & T' & P' & S1 & H1 & H2 & H3 & Hf' & Hcl' & Hsub
        & Hsame).
  set (self3 := NG n prec C' B' T' P' S1 root) in *.
  set (self4 := NG n prec C' B' T' P' S1 (root_of t)).
  assert (Hf4 : ng_forest self4 (fst <$> E') (fst <$> E')).
  { by eapply ng_forest_fields. }
  destruct (tree_for_flat n _ t Hn0 Ht)
    as (_ & _ & _ & _ & _ & Hnt & _).
  destruct (tree_for_root_inner n _ t Hn Ht) as [Hlv Hlen].
  pose proof (ng_find_root self3 _ t Hn0 Hf' Ht ltac:(cbn; lia)) as Hroot'.
  destruct (ng_sizes self4 _ t Hn0 Hf4 Ht) as (HsT & HsP & HsB).
  assert (Hsame' : forall v, v ∈ dom S1 ->
            v ∈ nodes t /\ C' !! v = C !! v /\ B' !! v = B !! v /\
            P' !! v = P !! v).
  { intros v Hv. destruct (Hsame v Hv) as (Hvn & ? & ? & ?).
    split; [by apply Hnt|done]. }
  assert (Hok4 : strings_ok self4).
  { by eapply (strings_ok_transfer n prec C B T P S root). }
  destruct (update_subtrees_tree n prec C' B' T' P' S1 t)
    as (S' & Hu & Hsub' & Hout & Hin & Hok'); try done.
  { by apply (ng_tree_in self4 (fst <$> E') t). }
  { by destruct Ht. }
  { lia. }
  { intros x Hx Hne. by apply (ng_branch_keys self4 (fst <$> E') t). }
  set (self5 := NG n prec C' B' T' P' S' (root_of t)) in *.
  assert (Hf5 : ng_forest self5 (fst <$> E') (fst <$> E')).
  { by eapply ng_forest_fields. }
  assert (Hti : tree_in (ng_children self5) t).
  { by apply (ng_tree_in self5 (fst <$> E') t). }
  exists C', B', T', P', S'. split; [|split; [done|]].
  - subst self3 self4 self5.
    cbn [ng_sample_size ng_time ng_parent ng_branch_length]
      in Hroot', HsT, HsP, HsB.
    unfold NewickGenerator_next. rewrite H1. cbn [mbind result_bind].
    rewrite H2. cbn [mbind result_bind]. rewrite H3. cbn [mbind result_bind].
    cbn [ng_sample_size ng_precision ng_children ng_time ng_branch_length
         ng_parent ng_subtree ng_root].
    rewrite Hroot'. cbn [mbind result_bind].
    cbn [ng_sample_size ng_precision ng_children ng_time ng_branch_length
         ng_parent ng_subtree ng_root].
    rewrite !bool_decide_eq_true_2 by done.
    cbn [assert mbind result_bind]. rewrite Hu.
    cbn [mbind result_bind ng_subtree ng_root].
    apply elem_of_dom in Hin as [s Hs].
    unfold getitem. rewrite Hs. cbn [mbind result_bind].
    by rewrite (cached_string_is_newick
                  (NG n prec C' B' T' P' S' (root_of t)) t s Hok' Hti Hs).
  - assert (Hall : forall x, x ∈ nodes t -> x ∈ dom S').
    { intros x Hx. by apply (cached_below self5 t x). }
    assert (Hdom : forall v, v ∈ dom S' -> v ∈ nodes t).
    { intros v Hv. destruct (decide (v ∈ nodes t)) as [?|Hnv]; [done|].
      assert (v ∈ dom S1).
      { apply elem_of_dom. rewrite <- (Hout v Hnv). by apply elem_of_dom. }
      by apply Hsame'. }
    split; cbn [ng_subtree ng_parent ng_root ng_sample_size].
    + intros x p Hx Hnx. exfalso. apply Hnx, Hall.
      destruct Hf5 as [_ HP _ _]. cbn [ng_parent] in HP.
      apply HP, child_pairs_child in Hx as [Hc _].
      destruct (tree_for_flat n _ t Hn0 Ht) as (_ & _ & _ & _ & _ & _ & Hch).
      by apply Hch.
    + intros v Hv. by apply Hnt, Hdom.
    + exact Hok'.
    + intros v Hv. symmetry.
      apply (ng_parent_dom self5 (fst <$> E') t Hn0 Hf5 Ht v (Hdom v Hv)).
Qed.

End NewickNext.

(** ** The cache does not change the forest *)

Lemma for_each_rel {A S} (R : S -> S -> Prop) (f : S -> A -> result S) l :
  (forall s1 s2 x s1' s2',
     R s1 s2 -> f s1 x = Ok s1' -> f s2 x = Ok s2' -> R s1' s2') ->
  forall s1 s2 s1' s2',
    R s1 s2 -> for_each f l s1 = Ok s1' -> for_each f l s2 = Ok s2' ->
    R s1' s2'.
Proof.
  intros Hf. induction l as [|x l IH]; intros s1 s2 s1' s2' HR H1 H2.
  { cbn in H1, H2. by simplify_eq. }
  cbn [for_each] in H1, H2.
  apply result_bind_Ok in H1 as (a1 & Ha1 & H1).
  apply result_bind_Ok in H2 as (a2 & Ha2 & H2).
  eapply IH; [|done|done]. by eapply Hf.
Qed.

Section ForestEq.
Context {F : Type} `{!Float F}.
Implicit Types (s self : NewickGenerator F).

Lemma forest_eq_refl s : forest_eq s s.
Proof. by repeat split. Qed.

Lemma forest_eq_sym s1 s2 : forest_eq s1 s2 -> forest_eq s2 s1.
Proof.
  intros [(? & ? & ? & ? & ? & ?) ?]. by repeat split.
Qed.

Lemma forest_eq_trans s1 s2 s3 :
  forest_eq s1 s2 -> forest_eq s2 s3 -> forest_eq s1 s3.
Proof.
  intros [(? & ? & ? & ? & ? & ?) ?] [(? & ? & ? & ? & ? & ?) ?].
  repeat split; congruence.
Qed.

Lemma forest_eq_NG n prec C B (T : gmap Z F) P S S' root :
  forest_eq (NG n prec C B T P S root) (NG n prec C B T P S' root).
Proof. by repeat split. Qed.

Lemma forest_eq_inv s1 s2 :
  forest_eq s1 s2 ->
  exists n prec C B T P S1 S2 root,
    s1 = NG n prec C B T P S1 root /\ s2 = NG n prec C B T P S2 root.
Proof.
  destruct s1 as [n1 p1 C1 B1 T1 P1 S1 r1], s2 as [n2 p2 C2 B2 T2 P2 S2 r2].
  intros [(? & ? & ? & ? & ? & ?) ?]. cbn in *. simplify_eq.
  by eexists _, _, _, _, _, _, _, _, _.
Qed.

Lemma propogate_forest_eq s j s' :
  _propogate_subtree_loss s j = Ok s' -> forest_eq s s'.
Proof.
  unfold _propogate_subtree_loss. intros Hp.
  apply result_bind_Ok in Hp as (S' & _ & Hp). injection Hp as <-.
  by repeat split.
Qed.

Lemma remove_child_rel s1 s2 j s1' s2' :
  forest_eq s1 s2 -> remove_child s1 j = Ok s1' ->
  remove_child s2 j = Ok s2' -> forest_eq s1' s2'.
Proof.
  intros HR H1 H2. unfold remove_child in H1, H2.
  apply result_bind_Ok in H1 as (a1 & Ha1 & H1).
  apply result_bind_Ok in H2 as (a2 & Ha2 & H2).
  apply propogate_forest_eq in Ha1, Ha2.
  assert (HRa : forest_eq a1 a2).
  { eapply forest_eq_trans; [apply forest_eq_sym; exact Ha1|].
    eapply forest_eq_trans; [exact HR|exact Ha2]. }
  apply forest_eq_inv in HRa
    as (n & prec & C & B & T & P & S1 & S2 & root & -> & ->).
  cbn in H1, H2.
  destruct (delitem P j) as [P'|]; [|done].
  destruct (delitem B j) as [B'|]; [|done].
  cbn in H1, H2. simplify_eq. apply forest_eq_NG.
Qed.

Lemma remove_record_rel s1 s2 (e : edge F) s1' s2' :
  forest_eq s1 s2 -> remove_record s1 e = Ok s1' ->
  remove_record s2 e = Ok s2' -> forest_eq s1' s2'.
Proof.
  intros HR H1 H2. destruct e as [[[c1 c2] p] t].
  apply forest_eq_inv in HR
    as (n & prec & C & B & T & P & S1 & S2 & root & -> & ->).
  unfold remove_record in H1, H2. cbn in H1, H2.
  destruct (delitem C p) as [C'|]; [|done].
  destruct (delitem T p) as [T'|]; [|done].
  cbn in H1, H2.
  apply result_bind_Ok in H1 as (a1 & Ha1 & H1).
  apply result_bind_Ok in H2 as (a2 & Ha2 & H2).
  apply result_bind_Ok in H1 as (b1 & Hb1 & H1).
  apply result_bind_Ok in H2 as (b2 & Hb2 & H2).
  simplify_eq.
  eapply remove_child_rel; [|exact Hb1|exact Hb2].
  eapply remove_child_rel; [|exact Ha1|exact Ha2].
  apply forest_eq_NG.
Qed.

Lemma insert_child_rel p s1 s2 j s1' s2' :
  forest_eq s1 s2 -> insert_child p s1 j = Ok s1' ->
  insert_child p s2 j = Ok s2' -> forest_eq s1' s2'.
Proof.
  intros HR H1 H2. unfold insert_child in H1, H2.
  apply propogate_forest_eq in H1, H2.
  apply forest_eq_inv in HR
    as (n & prec & C & B & T & P & S1 & S2 & root & -> & ->).
  cbn in H1, H2.
  eapply forest_eq_trans; [apply forest_eq_sym; exact H1|].
  eapply forest_eq_trans; [|exact H2]. apply forest_eq_NG.
Qed.

Lemma insert_record_rel s1 s2 (e : edge F) s1' s2' :
  forest_eq s1 s2 -> insert_record s1 e = Ok s1' ->
  insert_record s2 e = Ok s2' -> forest_eq s1' s2'.
Proof.
  intros HR H1 H2. destruct e as [[[c1 c2] p] t].
  apply forest_eq_inv in HR
    as (n & prec & C & B & T & P & S1 & S2 & root & -> & ->).
  unfold insert_record in H1, H2. cbn [fst snd for_each] in H1, H2.
  apply result_bind_Ok in H1 as (b1 & Hb1 & H1).
  apply result_bind_Ok in H2 as (b2 & Hb2 & H2).
  apply result_bind_Ok in Hb1 as (a1 & Ha1 & Hb1).
  apply result_bind_Ok in Hb2 as (a2 & Ha2 & Hb2).
  apply result_bind_Ok in Hb1 as (d1 & Hd1 & Hb1).
  apply result_bind_Ok in Hb2 as (d2 & Hd2 & Hb2).
  simplify_eq.
  assert (HRb : forest_eq b1 b2).
  { eapply insert_child_rel; [|exact Hd1|exact Hd2].
    eapply insert_child_rel; [|exact Ha1|exact Ha2].
    cbn. apply forest_eq_NG. }
  apply forest_eq_inv in HRb
    as (n' & prec' & C' & B' & T' & P' & S1' & S2' & root' & -> & ->).
  cbn. apply forest_eq_NG.
Qed.

Lemma set_branch_lengths_rel s1 s2 (e : edge F) s1' s2' :
  forest_eq s1 s2 -> set_branch_lengths s1 e = Ok s1' ->
  set_branch_lengths s2 e = Ok s2' -> forest_eq s1' s2'.
Proof.
  intros HR H1 H2. destruct e as [[[c1 c2] p] t].
  apply forest_eq_inv in HR
    as (n & prec & C & B & T & P & S1 & S2 & root & -> & ->).
  unfold set_branch_lengths in H1, H2. cbn in H1, H2.
  destruct (getitem T c1) as [t1|]; [|done]. cbn in H1, H2.
  destruct (getitem T c2) as [t2|]; [|done]. cbn in H1, H2.
  simplify_eq. apply forest_eq_NG.
Qed.

Lemma update_subtrees_forest_eq s s' :
  _update_subtrees s = Ok s' -> forest_eq s s'.
Proof.
  unfold _update_subtrees. intros Hu.
  apply result_bind_Ok in Hu as (nodes & _ & Hu).
  apply (for_each_inv (forest_eq s) build_subtree (rev nodes) s s');
    [|exact Hu|apply forest_eq_refl].
  intros a x a' Hb Ha. eapply forest_eq_trans; [exact Ha|].
  unfold build_subtree in Hb.
  apply result_bind_Ok in Hb as (str & _ & Hb). injection Hb as <-.
  by repeat split.
Qed.

(** Two builders that differ in their caches only: when both return from
    [next], they differ in their caches only. *)
Lemma next_rel s1 s2 d s1' s2' y1 y2 :
  forest_eq s1 s2 ->
  NewickGenerator_next s1 d = Ok (s1', y1) ->
  NewickGenerator_next s2 d = Ok (s2', y2) ->
  forest_eq s1' s2'.
Proof.
  intros HR H1 H2. destruct d as [[len out] rin].
  unfold NewickGenerator_next in H1, H2.
  apply result_bind_Ok in H1 as (a1 & Ha1 & H1).
  apply result_bind_Ok in H2 as (a2 & Ha2 & H2).
  apply result_bind_Ok in H1 as (b1 & Hb1 & H1).
  apply result_bind_Ok in H2 as (b2 & Hb2 & H2).
  apply result_bind_Ok in H1 as (c1 & Hc1 & H1).
  apply result_bind_Ok in H2 as (c2 & Hc2 & H2).
  assert (HRc : forest_eq c1 c2).
  { eapply (for_each_rel forest_eq set_branch_lengths rin);
      [apply set_branch_lengths_rel| |exact Hc1|exact Hc2].
    eapply (for_each_rel forest_eq insert_record rin);
      [apply insert_record_rel| |exact Hb1|exact Hb2].
    eapply (for_each_rel forest_eq remove_record out);
      [apply remove_record_rel|exact HR|exact Ha1|exact Ha2]. }
  apply forest_eq_inv in HRc
    as (n & prec & C & B & T & P & S1 & S2 & root & -> & ->).
  cbn [ng_parent] in H1, H2.
  apply result_bind_Ok in H1 as (r1 & Hr1 & H1).
  apply result_bind_Ok in H2 as (r2 & Hr2 & H2).
  rewrite Hr1 in Hr2. injection Hr2 as <-.
  apply result_bind_Ok in H1 as (? & _ & H1).
  apply result_bind_Ok in H2 as (? & _ & H2).
  apply result_bind_Ok in H1 as (? & _ & H1).
  apply result_bind_Ok in H2 as (? & _ & H2).
  apply result_bind_Ok in H1 as (? & _ & H1).
  apply result_bind_Ok in H2 as (? & _ & H2).
  apply result_bind_Ok in H1 as (u1 & Hu1 & H1).
  apply result_bind_Ok in H2 as (u2 & Hu2 & H2).
  apply result_bind_Ok in H1 as (ret1 & _ & H1).
  apply result_bind_Ok in H2 as (ret2 & _ & H2).
  simplify_eq.
  apply update_subtrees_forest_eq in Hu1, Hu2.
  eapply forest_eq_trans; [apply forest_eq_sym; exact Hu1|].
  eapply forest_eq_trans; [|exact Hu2]. cbn. apply forest_eq_NG.
Qed.

End ForestEq.

(** ** The caching builder and the builder without a cache *)

Section CachedAndNaive.
Context {F : Type} `{!Float F}.

Lemma newick_loop_cons (self : NewickGenerator F) d ds :
  newick_loop self (d :: ds) =
  match NewickGenerator_next self d with
  | Ok (self', y) => (y :: (newick_loop self' ds).1, (newick_loop self' ds).2)
  | Raise e => ([], Raise e)
  end.
Proof.
  cbn [newick_loop]. rewrite gen_bind_lift.
  destruct (NewickGenerator_next self d) as [[self' y]|e]; [|done].
  by rewrite gen_bind_yield.
Qed.

Lemma naive_loop_cons (self : NewickGenerator F) d ds :
  naive_loop self (d :: ds) =
  match naive_next self d with
  | Ok (self', y) => (y :: (naive_loop self' ds).1, (naive_loop self' ds).2)
  | Raise e => ([], Raise e)
  end.
Proof.
  cbn [naive_loop]. rewrite gen_bind_lift.
  destruct (naive_next self d) as [[self' y]|e]; [|done].
  by rewrite gen_bind_yield.
Qed.

Lemma ng_cache_empty n prec C B (T : gmap Z F) P root E :
  ng_cache (NG n prec C B T P ∅ root) E.
Proof.
  split; cbn [ng_subtree ng_parent ng_root ng_sample_size].
  - intros x p _ _. by rewrite dom_empty_L.
  - intros v Hv. by rewrite dom_empty_L in Hv.
  - intros v s Hv. by rewrite lookup_empty in Hv.
  - intros v Hv. by rewrite dom_empty_L in Hv.
Qed.

(** The two builders side by side over a valid stream. *)
Lemma loops_agree n (E : list (edge F)) ds :
  diff_stream n E ds ->
  forall sc sn,
    2 <= n -> ng_sample_size sc = n -> forest_eq sc sn ->
    flat n (fst <$> E) ->
    ng_forest sc (fst <$> E) (fst <$> E) -> ng_cache sc (fst <$> E) ->
    exists ys,
      newick_loop sc ds = (ys, Ok ()) /\ naive_loop sn ds = (ys, Ok ()) /\
      length ys = length ds.
Proof.
  induction 1 as [E|E K E' t len out rin ds HK HE' Ht Hds IH];
    intros sc sn Hn Hsize HR Hflat Hf Hc.
  { by exists []. }
  apply forest_eq_inv in HR
    as (n' & prec & C & B & T & P & S1 & S2 & root & -> & ->).
  cbn [ng_sample_size] in Hsize. subst n'.
  destruct (next_ok n prec C B T P S1 root E K E' out rin t len Hn Hflat Hf
              Hc HK HE' Ht)
    as (C1 & B1 & T1 & P1 & S1' & Hnext1 & Hf1 & Hc1).
  assert (Hf0 : ng_forest (NG n prec C B T P ∅ root) (fst <$> E) (fst <$> E)).
  { by eapply ng_forest_fields. }
  destruct (next_ok n prec C B T P ∅ root E K E' out rin t len Hn Hflat Hf0
              (ng_cache_empty _ _ _ _ _ _ _ _) HK HE' Ht)
    as (C2 & B2 & T2 & P2 & S2' & Hnext2 & Hf2 & Hc2).
  pose proof (next_rel _ _ _ _ _ _ _ (forest_eq_NG n prec C B T P S1 ∅ root)
                Hnext1 Hnext2) as HR'.
  assert (HB : B2 = B1).
  { destruct HR' as [(_ & _ & HB & _) _]. cbn in HB. exact HB. }
  subst B2.
  destruct (IH (NG n prec C1 B1 T1 P1 S1' (root_of t))
              (NG n prec C2 B1 T2 P2 S2' (root_of t)))
    as (ys & Hys1 & Hys2 & Hlen); try done.
  { by eapply tree_for_is_flat; [lia|]. }
  exists ((len, newick_of B1 (root_of t) t) :: ys).
  rewrite newick_loop_cons, Hnext1, Hys1.
  rewrite naive_loop_cons. unfold naive_next, clear_cache.
  cbn [ng_sample_size ng_precision ng_children ng_time ng_branch_length
       ng_parent ng_subtree ng_root].
  rewrite Hnext2, Hys2. cbn [fst snd length]. by rewrite Hlen.
Qed.

Lemma ng_init_ok n prec :
  ng_forest (@NewickGenerator_init F _ n prec) [] [] /\
  ng_cache (@NewickGenerator_init F _ n prec) [].
Proof.
  split; [split|apply ng_cache_empty]; cbn.
  - intros p ch. rewrite lookup_empty, elem_of_nil. naive_solver.
  - intros c p. rewrite lookup_empty, elem_of_nil. naive_solver.
  - rewrite samples_dict_dom. set_solver.
  - by rewrite dom_empty_L.
Qed.

End CachedAndNaive.



(** ** newick_trees *)

Section NewickTrees.
Context {F : Type} `{!Float F}.

Lemma next_length (self self' : NewickGenerator F) d y :
  NewickGenerator_next self d = Ok (self', y) -> y.1 = d.1.1.
Proof.
  destruct d as [[len out] rin]. unfold NewickGenerator_next. intros Hn.
  apply result_bind_Ok in Hn as (s1 & _ & Hn).
  apply result_bind_Ok in Hn as (s2 & _ & Hn).
  apply result_bind_Ok in Hn as (s3 & _ & Hn).
  apply result_bind_Ok in Hn as (root & _ & Hn).
  apply result_bind_Ok in Hn as ([] & _ & Hn).
  apply result_bind_Ok in Hn as ([] & _ & Hn).
  apply result_bind_Ok in Hn as ([] & _ & Hn).
  apply result_bind_Ok in Hn as (s4 & _ & Hn).
  apply result_bind_Ok in Hn as (ret & _ & Hn).
  by injection Hn as <- <-.
Qed.

Lemma newick_loop_lengths (ds : list (delta F)) : forall self ys,
  newick_loop self ds = (ys, Ok ()) -> fst <$> ys = length_of <$> ds.
Proof.
  induction ds as [|d ds IH]; intros self ys.
  { by intros [= <-]. }
  rewrite newick_loop_cons.
  destruct (NewickGenerator_next self d) as [[self' y]|e] eqn:Hd; [|done].
  destruct (newick_loop self' ds) as [ys' r] eqn:Hloop.
  cbn [fst snd]. intros [= <- ->]. rewrite !fmap_cons. f_equal.
  - by apply next_length in Hd.
  - by apply (IH self').
Qed.

End NewickTrees.



(** ** NewickGenerator.next *)



(** X10. The search for the root in [next], on a parent dictionary that
    holds a tree and has no entry for its root: from any node of the tree
    it arrives at the root, in no more steps than the tree is high. *)
Theorem find_root_reaches_the_root (P : gmap Z Z) (t : tree) (x : Z)
    (fuel : nat) :
  parents_in P t -> P !! root_of t = None -> x ∈ nodes t ->
  (height t <= fuel)%nat ->
  find_root fuel P x = Ok (root_of t).
Proof.
  intros HP Hroot Hx Hfuel.
  destruct (find_root_tree P t x HP Hx) as (d & Hd & Hf).
  replace fuel with (d + (fuel - d))%nat by lia.
  by rewrite Hf, find_root_unfold, Hroot.
Qed.

Lemma find_root_reaches_the_root_witness :
  let P : gmap Z Z := <[1 := 4]> (<[2 := 4]> (<[4 := 5]> (<[3 := 5]> ∅))) in
  let t := Node 5 (Node 4 (Leaf 1) (Leaf 2)) (Leaf 3) in
  find_root 4 P 1 = Ok 5.
Proof.
  intros P t.
  apply (find_root_reaches_the_root P t 1 4).
  - cbn. repeat split; by vm_compute.
  - by vm_compute.
  - cbn. set_solver.
  - cbn. lia.
Defined.
